(** * LSOracle / mockturtle: network storage, cut rewriting and cleanup

    A shallow embedding of the k-LUT network ([klut_network]), of the
    reference-counting walks of [cut_rewriting_impl], of the
    reconvergence-driven cut generator, of the conflict graph with its two
    independent-set heuristics, of [cleanup_dangling] and of the vector
    backed [node_map], together with the properties stated about them.

    Conventions.
    - A node index ([node = uint64_t], an index into [std::vector]) is a
      [nat]; vectors are lists.  Reading or writing a vector out of range is
      undefined behaviour in the source; here a read yields the default
      element and a write does nothing, and the theorems assume indices in
      range wherever the result depends on it.
    - A 32-bit unsigned field is a [Z] kept in [0, 2^32) by [wrap32]; a
      [std::size_t] is wrapped by [wrap64]. *)

From Stdlib Require Import ZArith Lia List Permutation QArith Lqa.
From stdpp Require Import base decidable option numbers list gmap.

Open Scope Z_scope.
Close Scope Q_scope.

(** ** Machine integers *)

Definition wrap32 (z : Z) : Z := z mod 2 ^ 32.
Definition wrap64 (z : Z) : Z := z mod 2 ^ 64.

Definition uint32 (z : Z) : Prop := 0 <= z < 2 ^ 32.

(** ** The truth-table cache *)

Module Cache.

(** A [kitty::dynamic_truth_table] as the list of its function values, bit 0
    first. *)
Definition truth_table := list bool.

Definition tt_complement (tt : truth_table) : truth_table := map negb tt.

Fixpoint index_of (tt : truth_table) (data : list truth_table) : option nat :=
  match data with
  | [] => None
  | x :: rest =>
      if decide (x = tt) then Some 0%nat
      else match index_of tt rest with
           | Some i => Some (S i)
           | None => None
           end
  end.

(** Modelled from the spec: [truth_table_cache], whose source file is not
    part of the repository files at hand.  The spec says that small functions
    are interned by value and that a node stores only an integer literal into
    the cache.  The literals that [klut_network] hard-codes (0 and 1 for the
    constants, 2 for a primary input, 3 for NOT, 4 for AND, after inserting
    the tables of zero, NOT and AND in this order) fix the numbering: a table
    is stored with bit 0 cleared, and the literal is twice its position plus
    one when the table had to be complemented. *)
Definition insert (tt : truth_table) (data : list truth_table)
  : list truth_table * nat :=
  let is_compl := match tt with true :: _ => true | _ => false end in
  let tt' := if is_compl then tt_complement tt else tt in
  let phase := if is_compl then 1%nat else 0%nat in
  match index_of tt' data with
  | Some i => (data, (2 * i + phase)%nat)
  | None => (data ++ [tt'], (2 * length data + phase)%nat)
  end.

(** Modelled from the spec: [truth_table_cache::operator[]], the reading
    side of the same numbering: the table at position [literal / 2],
    complemented when the literal is odd. *)
Definition lookup (literal : nat) (data : list truth_table) : truth_table :=
  let tt := data !!! (literal / 2)%nat in
  if Nat.odd literal then tt_complement tt else tt.

End Cache.

(** ** The k-LUT network *)

Module Klut.

Abbreviation node := nat.
Abbreviation signal := nat.

(** [klut_storage_node]: the fan-in list and the four 32-bit data fields.
    [data0_h1] is the fan-out size, [data0_h2] the application-specific
    value, [data1_h1] the function literal, [data1_h2] the visited flag. *)
Record klut_storage_node := mk_node {
  children : list signal;
  data0_h1 : Z;
  data0_h2 : Z;
  data1_h1 : nat;
  data1_h2 : Z
}.

#[global] Instance klut_storage_node_eq_dec : EqDecision klut_storage_node.
Proof. solve_decision. Defined.

(** A default-constructed node: no children, all data fields zero. *)
Definition empty_node : klut_storage_node := mk_node [] 0 0 0%nat 0.

#[global] Instance klut_storage_node_inhabited : Inhabited klut_storage_node :=
  populate empty_node.

(** What the observers registered in [network_events] are told. *)
Inductive event :=
  | on_add (n : node)
  | on_modified (n : node) (old_children : list signal).

#[global] Instance event_eq_dec : EqDecision event.
Proof. solve_decision. Defined.

(** [klut_storage] with [klut_storage_data], and the notifications delivered
    so far to an observer registered in [_events].  The structural-hash
    index is keyed by what [klut_storage_node::operator==] compares: the
    children and the function literal. *)
Record klut_network := mk_ntk {
  nodes : list klut_storage_node;
  inputs : list node;
  outputs : list signal;
  hash : gmap (list signal * nat) node;
  cache : list Cache.truth_table;
  trav_id_ : Z;
  events : list event
}.

Definition set_nodes (ns : list klut_storage_node) (ntk : klut_network) :=
  mk_ntk ns (inputs ntk) (outputs ntk) (hash ntk) (cache ntk) (trav_id_ ntk)
    (events ntk).

Definition set_data0_h1 (v : Z) (n : klut_storage_node) :=
  mk_node (children n) v (data0_h2 n) (data1_h1 n) (data1_h2 n).
Definition set_data0_h2 (v : Z) (n : klut_storage_node) :=
  mk_node (children n) (data0_h1 n) v (data1_h1 n) (data1_h2 n).
Definition set_data1_h1 (v : nat) (n : klut_storage_node) :=
  mk_node (children n) (data0_h1 n) (data0_h2 n) v (data1_h2 n).
Definition set_data1_h2 (v : Z) (n : klut_storage_node) :=
  mk_node (children n) (data0_h1 n) (data0_h2 n) (data1_h1 n) v.
Definition set_children (cs : list signal) (n : klut_storage_node) :=
  mk_node cs (data0_h1 n) (data0_h2 n) (data1_h1 n) (data1_h2 n).

(** [data[0].h1++] on a 32-bit field. *)
Definition incr_h1 (n : klut_storage_node) : klut_storage_node :=
  set_data0_h1 (wrap32 (data0_h1 n + 1)) n.

(** [_storage->nodes[n]]. *)
Definition node_at (ntk : klut_network) (n : node) : klut_storage_node :=
  nodes ntk !!! n.

(** The truth tables that [_init] reserves. *)
Definition tt_zero : Cache.truth_table := [false].
Definition tt_not : Cache.truth_table := [true; false].
Definition tt_and : Cache.truth_table := [false; false; false; true].

(** The constructor: the storage starts with the node of constant 0, and
    [_init] reserves the second node for constant 1, interns three truth
    tables and sets the literals of the two constants. *)
Definition _init : klut_network :=
  let c0 := (Cache.insert tt_zero []).1 in
  let c1 := (Cache.insert tt_not c0).1 in
  let c2 := (Cache.insert tt_and c1).1 in
  mk_ntk [set_data1_h1 0%nat empty_node; set_data1_h1 1%nat empty_node]
    [] [] ∅ c2 0 [].

Definition get_constant (value : bool) : signal := if value then 1%nat else 0%nat.

Definition create_pi (ntk : klut_network) : klut_network * signal :=
  let index := length (nodes ntk) in
  (mk_ntk (nodes ntk ++ [set_data1_h1 2%nat empty_node])
     (inputs ntk ++ [index]) (outputs ntk) (hash ntk) (cache ntk)
     (trav_id_ ntk) (events ntk),
   index).

Definition create_po (f : signal) (ntk : klut_network) : klut_network :=
  mk_ntk (alter incr_h1 f (nodes ntk)) (inputs ntk) (outputs ntk ++ [f])
    (hash ntk) (cache ntk) (trav_id_ ntk) (events ntk).

Definition is_constant (n : node) : bool := bool_decide (n <= 1)%nat.

Definition is_pi (ntk : klut_network) (n : node) : bool :=
  bool_decide (1 < n)%nat && bool_decide (children (node_at ntk n) = []).

Definition set_value (n : node) (v : Z) (ntk : klut_network) : klut_network :=
  set_nodes (alter (set_data0_h2 v) n (nodes ntk)) ntk.

(** [_create_node]: look the node up in the structural-hash index; when it
    is new, append it, register it, reference its children, clear its value
    and notify the observers. *)
Definition _create_node (children : list signal) (literal : nat)
    (ntk : klut_network) : klut_network * signal :=
  let node := set_data1_h1 literal (set_children children empty_node) in
  match hash ntk !! (children, literal) with
  | Some index => (ntk, index)
  | None =>
      let index := length (nodes ntk) in
      let nodes1 := nodes ntk ++ [node] in
      let nodes2 := foldl (fun ns c => alter incr_h1 c ns) nodes1 children in
      let nodes3 := alter (set_data0_h2 0) index nodes2 in
      (mk_ntk nodes3 (inputs ntk) (outputs ntk)
         (<[(children, literal) := index]> (hash ntk)) (cache ntk)
         (trav_id_ ntk) (events ntk ++ [on_add index]),
       index)
  end.

Definition set_cache (c : list Cache.truth_table) (ntk : klut_network) :=
  mk_ntk (nodes ntk) (inputs ntk) (outputs ntk) (hash ntk) c (trav_id_ ntk)
    (events ntk).

Definition create_node (children : list signal) (function : Cache.truth_table)
    (ntk : klut_network) : klut_network * signal :=
  let '(c, literal) := Cache.insert function (cache ntk) in
  _create_node children literal (set_cache c ntk).

Definition create_not (a : signal) (ntk : klut_network) := _create_node [a] 3 ntk.
Definition create_and (a b : signal) (ntk : klut_network) := _create_node [a; b] 4 ntk.

(** [size]: the node count cast to [uint32_t]. *)
Definition size (ntk : klut_network) : Z := wrap32 (Z.of_nat (length (nodes ntk))).
Definition num_pis (ntk : klut_network) : Z := wrap32 (Z.of_nat (length (inputs ntk))).
Definition num_pos (ntk : klut_network) : Z := wrap32 (Z.of_nat (length (outputs ntk))).

Definition fanin_size (ntk : klut_network) (n : node) : Z :=
  wrap32 (Z.of_nat (length (children (node_at ntk n)))).
Definition fanout_size (ntk : klut_network) (n : node) : Z :=
  data0_h1 (node_at ntk n).

(** The children that [foreach_fanin] enumerates. *)
Definition fanins (ntk : klut_network) (n : node) : list signal :=
  if bool_decide (n = 0%nat) || is_pi ntk n then [] else children (node_at ntk n).

(** Custom node values. *)
Definition clear_values (ntk : klut_network) : klut_network :=
  set_nodes (map (set_data0_h2 0) (nodes ntk)) ntk.
Definition value (ntk : klut_network) (n : node) : Z := data0_h2 (node_at ntk n).
(** [incr_value] returns the value before the increment. *)
Definition incr_value (n : node) (ntk : klut_network) : klut_network * Z :=
  (set_value n (wrap32 (value ntk n + 1)) ntk, value ntk n).
(** [decr_value] returns the value after the decrement. *)
Definition decr_value (n : node) (ntk : klut_network) : klut_network * Z :=
  (set_value n (wrap32 (value ntk n - 1)) ntk, wrap32 (value ntk n - 1)).

(** Visited flags. *)
Definition clear_visited (ntk : klut_network) : klut_network :=
  set_nodes (map (set_data1_h2 0) (nodes ntk)) ntk.
Definition visited (ntk : klut_network) (n : node) : Z := data1_h2 (node_at ntk n).
Definition set_visited (n : node) (v : Z) (ntk : klut_network) : klut_network :=
  set_nodes (alter (set_data1_h2 v) n (nodes ntk)) ntk.
Definition trav_id (ntk : klut_network) : Z := trav_id_ ntk.
Definition incr_trav_id (ntk : klut_network) : klut_network :=
  mk_ntk (nodes ntk) (inputs ntk) (outputs ntk) (hash ntk) (cache ntk)
    (wrap32 (trav_id_ ntk + 1)) (events ntk).


(** [substitute_node], the loop body for the child at position [j] of node
    [i]: when it refers to [old_node], copy the current children of the node,
    redirect the child, count one more fan-out of [new_signal] and notify the
    observers with the copy. *)
Definition substitute_child (old_node : node) (new_signal : signal) (i : nat)
    (st : list klut_storage_node * list event) (j : nat)
  : list klut_storage_node * list event :=
  let n := st.1 !!! i in
  match children n !! j with
  | Some child =>
      if decide (child = old_node) then
        let old_children := children n in
        let ns1 := alter (set_children (<[j := new_signal]> (children n))) i st.1 in
        let ns2 := alter incr_h1 new_signal ns1 in
        (ns2, st.2 ++ [on_modified i old_children])
      else st
  | None => st
  end.

(** The loop over the children of node [i]. *)
Definition substitute_in_node (old_node : node) (new_signal : signal)
    (st : list klut_storage_node * list event) (i : nat)
  : list klut_storage_node * list event :=
  foldl (substitute_child old_node new_signal i) st
    (seq 0 (length (children (st.1 !!! i)))).

(** The loop over the primary outputs. *)
Definition substitute_output (old_node : node) (new_signal : signal)
    (st : list klut_storage_node * list signal) (output : signal)
  : list klut_storage_node * list signal :=
  if decide (output = old_node)
  then (alter incr_h1 new_signal st.1, st.2 ++ [new_signal])
  else (st.1, st.2 ++ [output]).

Definition substitute_node (old_node : node) (new_signal : signal)
    (ntk : klut_network) : klut_network :=
  (* find all parents from old_node *)
  let '(ns1, ev) :=
    foldl (substitute_in_node old_node new_signal) (nodes ntk, events ntk)
      (seq 0 (length (nodes ntk))) in
  (* check outputs *)
  let '(ns2, outs) :=
    foldl (substitute_output old_node new_signal) (ns1, []) (outputs ntk) in
  (* reset fan-in of old node *)
  let ns3 := alter (set_data0_h1 0) old_node ns2 in
  mk_ntk ns3 (inputs ntk) outs (hash ntk) (cache ntk) (trav_id_ ntk) ev.

(** *** Vocabulary for the statements about reference counts *)

(** Occurrences of [x] in a list of signals. *)
Definition occ (x : node) (l : list signal) : nat := count_occ Nat.eq_dec l x.
#[global] Arguments occ : simpl never.

(** Fan-in references to [x] in a node table. *)
Definition fanin_refs (ns : list klut_storage_node) (x : node) : nat :=
  sum_list_with (fun n => occ x (children n)) ns.

(** All references to [x]: from children lists and from primary outputs. *)
Definition count_refs (ntk : klut_network) (x : node) : nat :=
  (fanin_refs (nodes ntk) x + occ x (outputs ntk))%nat.

(** A reference after the substitution of [o] by [s]. *)
Definition redirect (o : node) (s : signal) (c : signal) : signal :=
  if decide (c = o) then s else c.

(** The notifications that rewriting the children [pre ++ post] of node [i]
    produces once [pre] has been rewritten: one for each occurrence of [o]
    in [post], carrying the children as they stand just before it is
    rewritten. *)
Fixpoint notifications (o : node) (s : signal) (i : node)
    (pre post : list signal) : list event :=
  match post with
  | [] => []
  | c :: rest =>
      if decide (c = o)
      then on_modified i (pre ++ c :: rest) :: notifications o s i (pre ++ [s]) rest
      else notifications o s i (pre ++ [c]) rest
  end.

(** [k] applications of [++] to a 32-bit counter. *)
Definition bump (k : nat) (z : Z) : Z := Nat.iter k (fun v => wrap32 (v + 1)) z.

(** A node with new children and [k] more fan-outs counted. *)
Definition upd (cs : list signal) (k : nat) (n : klut_storage_node) :=
  mk_node cs (bump k (data0_h1 n)) (data0_h2 n) (data1_h1 n) (data1_h2 n).

(** The shape of a node table after some references were redirected: node
    [k] has children [cs k m] and [d k] more fan-outs than its original [m]. *)
Definition shaped (ns ns' : list klut_storage_node)
    (cs : nat -> klut_storage_node -> list signal) (d : nat -> nat) : Prop :=
  forall k, ns' !! k = (fun m => upd (cs k m) (d k) m) <$> ns !! k.

(** Every notification of the loop over the nodes. *)
Definition all_notifications (o : node) (s : signal)
    (ns : list klut_storage_node) : list event :=
  concat (imap (fun i n => notifications o s i [] (children n)) ns).


(** The notifications that C1 describes: one for each node that refers to
    [o], carrying the fan-in list of the node before the substitution. *)
Definition notified_per_node (o : node) (ns : list klut_storage_node)
  : list event :=
  concat (imap (fun i n =>
                  if bool_decide (o ∈ children n)
                  then [on_modified i (children n)] else []) ns).

(** C1 as it is stated. *)
Definition substitute_node_as_stated (ntk : klut_network) (o : node)
    (s : signal) : Prop :=
  let ntk' := substitute_node o s ntk in
  (forall k, children (node_at ntk' k)
             = map (redirect o s) (children (node_at ntk k)))
  /\ outputs ntk' = map (redirect o s) (outputs ntk)
  /\ fanout_size ntk' s
     = wrap32 (fanout_size ntk s + Z.of_nat (count_refs ntk o))
  /\ fanout_size ntk' o = 0
  /\ events ntk' = events ntk ++ notified_per_node o (nodes ntk).

(** Two inputs and the gate AND(a, a), which is the primary output. *)
Definition double_reference_network : klut_network :=
  let '(n1, a) := create_pi _init in
  let '(n2, b) := create_pi n1 in
  let '(n3, g) := create_and a a n2 in
  create_po g n3.

(** One input, which is the primary output. *)
Definition projection_network : klut_network :=
  let '(n1, a) := create_pi _init in
  create_po a n1.


(** The operations that build a network. *)
Inductive operation :=
  | op_create_pi
  | op_create_node (children : list signal) (function : Cache.truth_table)
  | op_create_po (f : signal)
  | op_substitute_node (old_node : node) (new_signal : signal).

(** The arguments of an operation are nodes of the network; with any other
    argument the source indexes a vector out of range. *)
Definition in_range (ntk : klut_network) (op : operation) : bool :=
  match op with
  | op_create_pi => true
  | op_create_node children _ =>
      forallb (fun c => bool_decide (c < length (nodes ntk))%nat) children
  | op_create_po f => bool_decide (f < length (nodes ntk))%nat
  | op_substitute_node old_node new_signal =>
      bool_decide (old_node < length (nodes ntk))%nat
      && bool_decide (new_signal < length (nodes ntk))%nat
  end.

Definition apply_operation (op : operation) (ntk : klut_network)
  : klut_network :=
  match op with
  | op_create_pi => (create_pi ntk).1
  | op_create_node children function => (create_node children function ntk).1
  | op_create_po f => create_po f ntk
  | op_substitute_node old_node new_signal =>
      substitute_node old_node new_signal ntk
  end.

(** A sequence of operations, run from a given network. *)
Fixpoint build (ops : list operation) (ntk : klut_network)
  : option klut_network :=
  match ops with
  | [] => Some ntk
  | op :: rest =>
      if in_range ntk op then build rest (apply_operation op ntk) else None
  end.

(** No operation substitutes a node by itself. *)
Definition no_self_substitution (op : operation) : Prop :=
  match op with
  | op_substitute_node old_node new_signal => old_node <> new_signal
  | _ => True
  end.

(** C8 as it is stated: every counter is the number of references. *)
Definition counters_exact (ntk : klut_network) : Prop :=
  forall k, fanout_size ntk k = Z.of_nat (count_refs ntk k).

(** Every counter is the number of references, as a 32-bit number, and no
    reference points outside the node table. *)
Definition counters_consistent (ntk : klut_network) : Prop :=
  (forall k, (length (nodes ntk) <= k)%nat -> count_refs ntk k = 0%nat)
  /\ (forall k, fanout_size ntk k = wrap32 (Z.of_nat (count_refs ntk k))).

(** The nodes on a path from a primary output. *)
Inductive reachable (ntk : klut_network) : node -> Prop :=
  | reachable_output f : f ∈ outputs ntk -> reachable ntk f
  | reachable_fanin p c :
      reachable ntk p -> c ∈ children (node_at ntk p) -> reachable ntk c.


(** Two inputs, their conjunction as primary output, and the substitution of
    the second input by the first. *)
Definition sample_operations : list operation :=
  [op_create_pi; op_create_pi; op_create_node [2; 3]%nat tt_and;
   op_create_po 4; op_substitute_node 3 2].

End Klut.

(** ** The conflict graph and the independent-set heuristics *)

Module Graph.

(** A [uint32_t] stored into an [int32_t]. *)
Definition to_int32 (z : Z) : Z :=
  if wrap32 z <? 2 ^ 31 then wrap32 z else wrap32 z - 2 ^ 32.

(** [std::set<uint32_t>] as the ascending list of its elements. *)
Fixpoint set_insert (x : nat) (s : list nat) : list nat :=
  match s with
  | [] => [x]
  | y :: rest =>
      if decide (x < y)%nat then x :: s
      else if decide (x = y) then s
      else y :: set_insert x rest
  end.

Definition set_count (x : nat) (s : list nat) : nat :=
  if bool_decide (x ∈ s) then 1%nat else 0%nat.

Definition set_erase (x : nat) (s : list nat) : list nat :=
  filter (fun y => y <> x) s.

(** [detail::graph].  A weight of -1 means that the vertex is removed. *)
Record graph := mk_graph {
  _num_vertices : Z;
  _num_edges : Z;
  _adjacent : list (list nat);
  _weights : list Z
}.

Definition empty_graph : graph := mk_graph 0 0 [] [].

Definition add_vertex (weight : Z) (g : graph) : graph * nat :=
  let index := length (_weights g) in
  (mk_graph (wrap32 (_num_vertices g + 1)) (_num_edges g)
     (_adjacent g ++ [[]]) (_weights g ++ [to_int32 weight]),
   index).

Definition add_edge (v1 v2 : nat) (g : graph) : graph :=
  if decide (v1 = v2) then g
  else if decide (set_count v2 (_adjacent g !!! v1) = 0%nat) then
    mk_graph (_num_vertices g) (wrap64 (_num_edges g + 1))
      (alter (set_insert v1) v2 (alter (set_insert v2) v1 (_adjacent g)))
      (_weights g)
  else g.

(** [remove_vertex]; [None] when the assertion [_weights[vertex] != -1]
    fails. *)
Definition remove_vertex (vertex : nat) (g : graph) : option graph :=
  if decide (_weights g !!! vertex = -1) then None
  else
    let neighbors := _adjacent g !!! vertex in
    let adjacent1 :=
      foldl (fun adj w => alter (set_erase vertex) w adj) (_adjacent g) neighbors in
    Some (mk_graph (wrap32 (_num_vertices g - 1))
            (wrap64 (_num_edges g - Z.of_nat (length neighbors)))
            (<[vertex := []]> adjacent1)
            (<[vertex := -1]> (_weights g))).

Definition has_vertex (g : graph) (vertex : nat) : bool :=
  bool_decide (0 <= _weights g !!! vertex).

Definition degree (g : graph) (vertex : nat) : nat :=
  length (_adjacent g !!! vertex).
Definition weight (g : graph) (vertex : nat) : Z := _weights g !!! vertex.

(** [gwmin_value]: the weight over the degree plus one.  The source divides
    in [double]; the quotient is kept exact here, which orders two vertices
    as the source does as long as the product of a weight and a degree plus
    one stays below 2^52. *)
Definition gwmin_value (g : graph) (vertex : nat) : Q :=
  (inject_Z (weight g vertex) / inject_Z (Z.of_nat (degree g vertex) + 1))%Q.

Definition num_vertices (g : graph) : Z := _num_vertices g.
Definition num_edges (g : graph) : Z := _num_edges g.

(** [std::stable_sort] with the strict order [before]: insertion keeps an
    element in front of the later elements that are not strictly before
    it. *)
Fixpoint stable_insert (before : nat -> nat -> bool) (x : nat) (l : list nat)
  : list nat :=
  match l with
  | [] => [x]
  | y :: rest =>
      if before y x then y :: stable_insert before x rest else x :: l
  end.

Fixpoint stable_sort (before : nat -> nat -> bool) (l : list nat) : list nat :=
  match l with
  | [] => []
  | x :: rest => stable_insert before x (stable_sort before rest)
  end.

(** The comparison that [maximum_weighted_independent_set_gwmin] sorts
    with. *)
Definition gwmin_before (g : graph) (v w : nat) : bool :=
  let value_v := gwmin_value g v in
  let value_w := gwmin_value g w in
  negb (Qle_bool value_v value_w)
  || (Qeq_bool value_v value_w && bool_decide (degree g w < degree g v)%nat).

(** The body of the loop of both heuristics: a vertex that is still present
    joins the independent set and is removed with all its neighbours. *)
Definition select_vertex (st : option (graph * list nat)) (i : nat)
  : option (graph * list nat) :=
  match st with
  | None => None
  | Some (g, mwis) =>
      if negb (has_vertex g i) then Some (g, mwis)
      else
        let neighbors := _adjacent g !!! i in
        match remove_vertex i g with
        | None => None
        | Some g1 =>
            match foldl (fun og v => og ≫= remove_vertex v) (Some g1) neighbors with
            | None => None
            | Some g2 => Some (g2, mwis ++ [i])
            end
        end
  end.

Definition maximum_weighted_independent_set_gwmin (g : graph)
  : option (graph * list nat) :=
  let vertices := seq 0 (Z.to_nat (num_vertices g)) in
  let sorted := stable_sort (gwmin_before g) vertices in
  foldl select_vertex (Some (g, [])) sorted.

Definition maximal_weighted_independent_set (g : graph)
  : option (graph * list nat) :=
  foldl select_vertex (Some (g, [])) (seq 0 (Z.to_nat (num_vertices g))).


(** The calls on a graph. *)
Inductive graph_operation :=
  | g_add_vertex (weight : Z)
  | g_add_edge (v1 v2 : nat)
  | g_remove_vertex (vertex : nat).

(** A call as C9 allows it: a 32-bit weight, vertex indices of the graph,
    and the removal of a present vertex only. *)
Definition allowed (g : graph) (op : graph_operation) : bool :=
  match op with
  | g_add_vertex weight => bool_decide (0 <= weight < 2 ^ 32)
  | g_add_edge v1 v2 =>
      bool_decide (v1 < length (_weights g))%nat
      && bool_decide (v2 < length (_weights g))%nat
  | g_remove_vertex vertex =>
      bool_decide (vertex < length (_weights g))%nat && has_vertex g vertex
  end.

(** A call as the callers make it: moreover the weight is below 2^31, so
    that it stays non-negative as an [int32_t], and an edge joins present
    vertices. *)
Definition proper (g : graph) (op : graph_operation) : bool :=
  allowed g op &&
  match op with
  | g_add_vertex weight => bool_decide (weight < 2 ^ 31)
  | g_add_edge v1 v2 => has_vertex g v1 && has_vertex g v2
  | g_remove_vertex vertex => true
  end.

Definition apply_graph_operation (op : graph_operation) (g : graph)
  : option graph :=
  match op with
  | g_add_vertex weight => Some (add_vertex weight g).1
  | g_add_edge v1 v2 => Some (add_edge v1 v2 g)
  | g_remove_vertex vertex => remove_vertex vertex g
  end.

(** A sequence of calls, each checked by [ok], from a given graph. *)
Fixpoint run_graph (ok : graph -> graph_operation -> bool)
    (ops : list graph_operation) (g : graph) : option graph :=
  match ops with
  | [] => Some g
  | op :: rest =>
      if ok g op then apply_graph_operation op g ≫= run_graph ok rest
      else None
  end.

(** [v] is in the adjacency set of [u]. *)
Definition adjacent (g : graph) (u v : nat) : Prop := v ∈ _adjacent g !!! u.

(** The vertex indices with a non-negative weight. *)
Definition present_count (g : graph) : nat :=
  length (filter (fun w => 0 <= w) (_weights g)).

(** The sum of the sizes of the adjacency sets. *)
Definition adjacency_total (g : graph) : nat :=
  sum_list_with length (_adjacent g).

(** What C9 states of a graph. *)
Definition graph_invariants (g : graph) : Prop :=
  (forall u v, adjacent g u v -> adjacent g v u)
  /\ (forall u, ~ adjacent g u u)
  /\ (forall v, (v < length (_weights g))%nat -> has_vertex g v = false ->
        _adjacent g !!! v = [] /\ weight g v = -1)
  /\ num_vertices g = Z.of_nat (present_count g)
  /\ 2 * num_edges g = Z.of_nat (adjacency_total g).


(** The representation invariant of a graph: adjacency sets have no
    duplicates, join distinct present vertices in both directions, a weight
    is -1 or non-negative, and the two counters count, in 32 and in 64
    bits. *)
Definition graph_wf (g : graph) : Prop :=
  length (_adjacent g) = length (_weights g)
  /\ (forall u v, adjacent g u v ->
        adjacent g v u /\ u <> v /\ has_vertex g u = true
        /\ (u < length (_weights g))%nat)
  /\ (forall u l, _adjacent g !! u = Some l -> NoDup l)
  /\ (forall v w, _weights g !! v = Some w -> -1 <= w)
  /\ num_vertices g = wrap32 (Z.of_nat (present_count g))
  /\ (exists m, adjacency_total g = (2 * m)%nat
                /\ num_edges g = wrap64 (Z.of_nat m)).


(** [picks] follows the selection rule [better]: every pick is a present
    vertex that no present vertex is better than, in the graph at hand; it
    leaves the graph with its neighbours; at the end no vertex is present. *)
Fixpoint selection_follows (better : graph -> nat -> nat -> bool) (g : graph)
    (picks : list nat) : Prop :=
  match picks with
  | [] => forall v, (v < length (_weights g))%nat -> has_vertex g v = false
  | x :: rest =>
      (x < length (_weights g))%nat /\ has_vertex g x = true
      /\ (forall y, (y < length (_weights g))%nat -> has_vertex g y = true ->
            better g y x = false)
      /\ match select_vertex (Some (g, [])) x with
         | Some (g', _) => selection_follows better g' rest
         | None => False
         end
  end.

(** No element of the list is strictly before an earlier one. *)
Fixpoint in_order (before : nat -> nat -> bool) (l : list nat) : Prop :=
  match l with
  | [] => True
  | x :: rest => (forall y, y ∈ rest -> before y x = false) /\ in_order before rest
  end.


(** A call that builds a graph: no vertex is removed. *)
Definition builds (op : graph_operation) : Prop :=
  match op with
  | g_remove_vertex _ => False
  | _ => True
  end.

(** The conflict graphs of the counterexample to C5: weights 6, 1, 4, 5, 1
    and the edges 0-1, 1-2, 3-4. *)
Definition sample_conflicts : list graph_operation :=
  [g_add_vertex 6; g_add_vertex 1; g_add_vertex 4; g_add_vertex 5;
   g_add_vertex 1; g_add_edge 0 1; g_add_edge 1 2; g_add_edge 3 4].

Definition sample_conflict_graph : graph :=
  mk_graph 5 3 [[1]; [0; 2]; [1]; [4]; [3]]%nat [6; 1; 4; 5; 1].


(** What [network_cuts_graph] reads of a cut of [cuts.cuts( n )]: its number
    of leaves [cut->size()], its gain [( *cut )->data.gain], and the gates
    that [foreach_gate] enumerates on the [cut_view] of the cut. *)
Record cut_record := mk_cut {
  leaves : nat;
  gain : Z;
  gates : list nat
}.

(** What it reads of a node [n] of [foreach_node]: whether [is_constant],
    [is_ci], [is_ro] or [mffc_size( ntk, n ) == 1] holds, and its cuts. *)
Record node_record := mk_node_record {
  skipped : bool;
  cuts : list cut_record
}.

Abbreviation cut_addr := (nat * nat)%type.

(** The locals of [network_cuts_graph]. *)
Record cuts_graph_state := mk_state {
  st_g : graph;
  st_conflicts : list (list cut_addr);
  st_vertex_to_cut_addr : list cut_addr;
  st_cut_addr_to_vertex : list (list nat)
}.

(** The tests that make the loop over the cuts [continue]. *)
Definition retained (allow_zero_gain : bool) (cut : cut_record) : bool :=
  negb (bool_decide (leaves cut <= 2)%nat)
  && negb (bool_decide (gain cut < (if allow_zero_gain then 0 else 1))).

(** The body of the loop over the cuts of node [n]; [cctr] counts the cuts
    that became vertices. *)
Definition add_cut (allow_zero_gain : bool) (n : nat)
    (acc : cuts_graph_state * nat) (cut : cut_record) : cuts_graph_state * nat :=
  let '(st, cctr) := acc in
  if negb (retained allow_zero_gain cut) then (st, cctr)
  else
    let conflicts :=
      foldl (fun cf n2 => alter (fun l => l ++ [(n, cctr)]) n2 cf)
        (st_conflicts st) (gates cut) in
    let '(g, v) := add_vertex (gain cut) (st_g st) in
    (mk_state g conflicts (st_vertex_to_cut_addr st ++ [(n, cctr)])
       (alter (fun l => l ++ [v]) n (st_cut_addr_to_vertex st)),
     S cctr).

(** The body of the loop over the nodes. *)
Definition add_node_cuts (nodes_size : nat) (allow_zero_gain : bool)
    (st : cuts_graph_state) (entry : nat * node_record) : cuts_graph_state :=
  let '(n, r) := entry in
  if bool_decide (nodes_size <= n)%nat || skipped r then st
  else (foldl (add_cut allow_zero_gain n) (st, 0%nat) (cuts r)).1.

(** The body of the innermost loop over the pairs of [conflicts[n]]. *)
Definition add_conflict (st : cuts_graph_state) (cl : list cut_addr) (j : nat)
    (g : graph) (i : nat) : graph :=
  let '(n1, c1) := cl !!! i in
  let '(n2, c2) := cl !!! j in
  let v1 := (st_cut_addr_to_vertex st !!! n1) !!! c1 in
  let v2 := (st_cut_addr_to_vertex st !!! n2) !!! c2 in
  if decide (v1 <> v2) then add_edge v1 v2 g else g.

Definition add_conflicts (st : cuts_graph_state) (g : graph)
    (cl : list cut_addr) : graph :=
  foldl (fun g j => foldl (add_conflict st cl j) g (seq 0 j)) g
    (seq 1 (length cl - 1)).

(** [network_cuts_graph], on the nodes of the network in the order of
    [foreach_node], with [nodes_size = cuts.nodes_size()]. *)
Definition network_cuts_graph (nodes_size : nat) (allow_zero_gain : bool)
    (ntk : list node_record) : graph * list cut_addr :=
  let st0 := mk_state empty_graph (replicate nodes_size []) []
               (replicate nodes_size []) in
  let st := foldl (add_node_cuts nodes_size allow_zero_gain) st0
              (imap (fun n r => (n, r)) ntk) in
  (foldl (add_conflicts st) (st_g st) (st_conflicts st),
   st_vertex_to_cut_addr st).

(** The candidate selection of [cut_rewriting_impl::run]. *)
Inductive strategy := minimize_weight | greedy.

Definition select_candidates (s : strategy) (g : graph)
  : option (graph * list nat) :=
  match s with
  | minimize_weight => maximum_weighted_independent_set_gwmin g
  | greedy => maximal_weighted_independent_set g
  end.

(** The cuts of node [n] that become vertices, with their addresses. *)
Fixpoint node_candidates (allow_zero_gain : bool) (n cctr : nat)
    (cs : list cut_record) : list (cut_addr * cut_record) :=
  match cs with
  | [] => []
  | cut :: rest =>
      if retained allow_zero_gain cut
      then ((n, cctr), cut) :: node_candidates allow_zero_gain n (S cctr) rest
      else node_candidates allow_zero_gain n cctr rest
  end.

(** The candidates in the order of their vertices. *)
Definition candidates (nodes_size : nat) (allow_zero_gain : bool)
    (entries : list (nat * node_record)) : list (cut_addr * cut_record) :=
  flat_map (fun '(n, r) =>
              if bool_decide (nodes_size <= n)%nat || skipped r then []
              else node_candidates allow_zero_gain n 0 (cuts r)) entries.


(** The vertex of a cut address. *)
Definition vertex_of (st : cuts_graph_state) (a : cut_addr) : nat :=
  (st_cut_addr_to_vertex st !!! a.1) !!! a.2.

(** The state of [network_cuts_graph] once the candidates [vs] are vertices
    and the nodes below [k] are done. *)
Definition cuts_graph_inv (nodes_size : nat) (st : cuts_graph_state)
    (vs : list (cut_addr * cut_record)) (k : nat) : Prop :=
  graph_wf (st_g st)
  /\ (forall v, (v < length (_weights (st_g st)))%nat -> has_vertex (st_g st) v = true)
  /\ length (_weights (st_g st)) = length vs
  /\ st_vertex_to_cut_addr st = map fst vs
  /\ length (st_conflicts st) = nodes_size
  /\ length (st_cut_addr_to_vertex st) = nodes_size
  /\ (forall v a cut, vs !! v = Some (a, cut) ->
        (st_cut_addr_to_vertex st !!! a.1) !! a.2 = Some v)
  /\ (forall n l c v, st_cut_addr_to_vertex st !! n = Some l -> l !! c = Some v ->
        exists cut, vs !! v = Some ((n, c), cut))
  /\ (forall n2 a, a ∈ st_conflicts st !!! n2 ->
        exists v cut, vs !! v = Some (a, cut))
  /\ (forall v a cut n2, vs !! v = Some (a, cut) -> n2 ∈ gates cut ->
        (n2 < nodes_size)%nat -> a ∈ st_conflicts st !!! n2)
  /\ (forall n, (k <= n)%nat -> st_cut_addr_to_vertex st !!! n = []).


(** A graph on [n] vertices, none removed. *)
Definition full_graph (n : nat) (g : graph) : Prop :=
  graph_wf g
  /\ (forall v, (v < length (_weights g))%nat -> has_vertex g v = true)
  /\ length (_weights g) = n.


(** Two constants and two gates: node 2 with a retained and a trivial cut,
    node 3 with two retained cuts. *)
Definition sample_cuts : list node_record :=
  [mk_node_record true []; mk_node_record true [];
   mk_node_record false [mk_cut 3 1 [2%nat]; mk_cut 2 5 [2%nat]];
   mk_node_record false [mk_cut 3 2 [2%nat; 3%nat]; mk_cut 4 1 [3%nat]]].

End Graph.

(** ** The reconvergence-driven cut *)

Module ReconvCut.
Import Klut.

(** How a cut computation ends: with the cut and the marked network, on the
    failed assertion "cut-size overflow", or (in this model only) when the
    recursion budget is used up. *)
Inductive outcome :=
  | Done (cut : list node) (ntk : klut_network)
  | AssertionFailed
  | OutOfFuel.

(** [cost]: one less than the number of fan-ins that are neither constant nor
    marked. *)
Definition cost (ntk : klut_network) (n : node) : Z :=
  foldl (fun current_cost child =>
           if negb (is_constant child) && bool_decide (value ntk child = 0)
           then current_cost + 1 else current_cost)
    (-1) (fanins ntk n).

(** The body of the loop over the fan-ins of the expanded node [n]. *)
Definition expand_child (n : node) (st : list node * klut_network)
    (child : signal) : list node * klut_network :=
  if negb (is_constant n) && negb (bool_decide (child ∈ st.1))
     && bool_decide (value st.2 child = 0)
  then (st.1 ++ [child], set_value child 1 st.2)
  else st.

(** [std::find_if] for the first node that is not a primary input, with the
    nodes before and after it. *)
Fixpoint find_non_pi (ntk : klut_network) (pre cut : list node)
  : option (list node * node * list node) :=
  match cut with
  | [] => None
  | x :: rest =>
      if negb (is_pi ntk x) then Some (pre, x, rest)
      else find_non_pi ntk (pre ++ [x]) rest
  end.

Section compute_cut.
(** [std::sort] with a comparison; the order that it gives to equivalent
    elements is not specified. *)
Variable std_sort : (node -> node -> bool) -> list node -> list node.
(** [reconv_cut_params::cut_size]. *)
Variable cut_size : Z.

Fixpoint compute_cut_recur (fuel : nat) (cut : list node) (ntk : klut_network)
  : outcome :=
  match fuel with
  | O => OutOfFuel
  | S fuel =>
      if negb (bool_decide (Z.of_nat (length cut) <= cut_size))
      then AssertionFailed
      else
        let cut := std_sort (fun a b => bool_decide (cost ntk a < cost ntk b)) cut in
        (* find the first non-pi node to extend the cut *)
        match find_non_pi ntk [] cut with
        | None => Done cut ntk
        | Some (pre, n, post) =>
            let c := cost ntk n in
            if bool_decide (cut_size < wrap64 (Z.of_nat (length cut) + c))
            then Done cut ntk
            else
              let '(cut', ntk') :=
                foldl (expand_child n) (pre ++ post, ntk) (fanins ntk n) in
              compute_cut_recur fuel cut' ntk'
        end
  end.

Definition run (fuel : nat) (pivots : list node) (ntk : klut_network)
  : outcome :=
  (* the constructor asserts that there is a pivot *)
  if bool_decide (pivots = []) then AssertionFailed
  else
    let ntk := clear_values ntk in
    let ntk := foldl (fun ntk p => set_value p 1 ntk) ntk pivots in
    compute_cut_recur fuel pivots ntk.

End compute_cut.


(** Two networks with the same fan-in lists: they differ in data fields
    only. *)
Definition same_structure (ntk ntk' : klut_network) : Prop :=
  children <$> nodes ntk' = children <$> nodes ntk.

(** The nodes whose value is zero. *)
Definition unmarked (ntk : klut_network) : nat :=
  length (filter (fun n => data0_h2 n = 0) (nodes ntk)).

(** Every fan-in is a node of the network, and a fan-in list is shorter than
    2^31, the range of the [int32_t] cost. *)
Definition fanins_in_range (ntk : klut_network) : Prop :=
  forall n m, nodes ntk !! n = Some m ->
    Z.of_nat (length (children m)) < 2 ^ 31
    /\ forall c, c ∈ children m -> (c < length (nodes ntk))%nat.


(** The fan-ins in [l] that [cost] counts. *)
Definition counted (ntk : klut_network) (l : list signal) : nat :=
  length (filter (fun c => is_constant c = false /\ value ntk c = 0) l).


(** No gate has a constant among its fan-ins. *)
Definition no_constant_fanin (ntk : klut_network) : Prop :=
  forall n c, c ∈ fanins ntk n -> is_constant c = false.

(** Why the expansion stopped: every leaf is a primary input, or the leaf
    that is cheapest to expand among those that are not would bring the cut
    over [cut_size]. *)
Definition stopped (cut_size : Z) (cut : list node) (ntk : klut_network) : Prop :=
  (forall x, x ∈ cut -> is_pi ntk x = true)
  \/ (exists n, n ∈ cut /\ is_pi ntk n = false
        /\ (forall m, m ∈ cut -> is_pi ntk m = false -> cost ntk n <= cost ntk m)
        /\ cut_size < Z.of_nat (length cut) + cost ntk n).


(** Two inputs and their conjunction. *)
Definition and_network : klut_network :=
  let '(n1, a) := create_pi _init in
  let '(n2, b) := create_pi n1 in
  (create_and a b n2).1.

(** The conjunction of the two constants. *)
Definition constant_and_network : klut_network := (create_and 0 1 _init).1.

End ReconvCut.

(** ** The reference-counting walks of cut rewriting *)

Module CutRewriting.
Import Klut.

(** Modelled from the spec: [is_ci] of a network without latches; the
    combinational inputs are the primary inputs. *)
Definition is_ci (ntk : klut_network) (n : node) : bool := is_pi ntk n.

(** Modelled from the spec: [is_ro] of a network without latches; no node is
    a register output. *)
Definition is_ro (ntk : klut_network) (n : node) : bool := false.

(** The start of [cut_rewriting_impl::run]: the values are cleared and then
    set, node by node, to the fan-out size. *)
Definition run_init_values (ntk : klut_network) : klut_network :=
  foldl (fun ntk n => set_value n (fanout_size ntk n) ntk) (clear_values ntk)
    (seq 0 (length (nodes ntk))).

(** [unit_cost]: every node costs one. *)
Definition unit_cost (ntk : klut_network) (n : node) : Z := 1.

(** Two inputs, their conjunction, its negation, and an output on it. *)
Definition not_and_network : klut_network :=
  let '(n1, a) := create_pi _init in
  let '(n2, b) := create_pi n1 in
  let '(n3, f) := create_and a b n2 in
  let '(n4, g) := create_not f n3 in
  create_po g n4.

Section cut_rewriting_impl.
(** The node cost function [NodeCostFn], with a 32-bit result. *)
Variable cost_fn : klut_network -> node -> Z.

(** The body of the loop of [recursive_deref] over the fan-ins, with the
    recursive call as an argument; [None] when the recursion budget of the
    model is used up. *)
Definition deref_fanin (recursive_deref : node -> klut_network -> option (klut_network * Z))
    (acc : option (klut_network * Z)) (s : signal) : option (klut_network * Z) :=
  match acc with
  | None => None
  | Some (ntk, value) =>
      let '(ntk1, v) := decr_value s ntk in
      if bool_decide (v = 0) then
        match recursive_deref s ntk1 with
        | None => None
        | Some (ntk2, c) => Some (ntk2, wrap32 (value + c))
        end
      else Some (ntk1, value)
  end.

Fixpoint recursive_deref (fuel : nat) (n : node) (ntk : klut_network)
  : option (klut_network * Z) :=
  match fuel with
  | O => None
  | S fuel =>
      if is_constant n || is_ci ntk n || is_ro ntk n then Some (ntk, 0)
      else foldl (deref_fanin (recursive_deref fuel))
             (Some (ntk, wrap32 (cost_fn ntk n))) (fanins ntk n)
  end.

(** The body of the loop of [recursive_ref] over the fan-ins. *)
Definition ref_fanin (recursive_ref : node -> klut_network -> option (klut_network * Z))
    (acc : option (klut_network * Z)) (s : signal) : option (klut_network * Z) :=
  match acc with
  | None => None
  | Some (ntk, value) =>
      let '(ntk1, v) := incr_value s ntk in
      if bool_decide (v = 0) then
        match recursive_ref s ntk1 with
        | None => None
        | Some (ntk2, c) => Some (ntk2, wrap32 (value + c))
        end
      else Some (ntk1, value)
  end.

Fixpoint recursive_ref (fuel : nat) (n : node) (ntk : klut_network)
  : option (klut_network * Z) :=
  match fuel with
  | O => None
  | S fuel =>
      if is_constant n || is_ci ntk n || is_ro ntk n then Some (ntk, 0)
      else foldl (ref_fanin (recursive_ref fuel))
             (Some (ntk, wrap32 (cost_fn ntk n))) (fanins ntk n)
  end.

(** The body of the loop of [recursive_ref_contains]; the accumulator holds
    the network, the signed 32-bit value and the flag. *)
Definition ref_contains_fanin (repl : node)
    (recursive_ref_contains : node -> klut_network -> option (klut_network * Z * bool))
    (acc : option (klut_network * Z * bool)) (s : signal)
  : option (klut_network * Z * bool) :=
  match acc with
  | None => None
  | Some (ntk, value, contains) =>
      let contains := contains || bool_decide (s = repl) in
      let '(ntk1, v) := incr_value s ntk in
      if bool_decide (v = 0) then
        match recursive_ref_contains s ntk1 with
        | None => None
        | Some (ntk2, v, c) =>
            Some (ntk2, Graph.to_int32 (wrap32 (value + v)), contains || c)
        end
      else Some (ntk1, value, contains)
  end.

Fixpoint recursive_ref_contains (fuel : nat) (n repl : node) (ntk : klut_network)
  : option (klut_network * Z * bool) :=
  match fuel with
  | O => None
  | S fuel =>
      if is_constant n || is_ci ntk n || is_ro ntk n then Some (ntk, 0, false)
      else foldl (ref_contains_fanin repl (fun s => recursive_ref_contains fuel s repl))
             (Some (ntk, Graph.to_int32 (cost_fn ntk n), bool_decide (n = repl)))
             (fanins ntk n)
  end.


(** The test that ends a walk. *)
Definition terminal (ntk : klut_network) (n : node) : bool :=
  is_constant n || is_ci ntk n || is_ro ntk n.

(** Both walks at once: [up] is [recursive_ref], otherwise [recursive_deref]. *)
Definition walk (up : bool) (fuel : nat) : node -> klut_network -> option (klut_network * Z) :=
  if up then recursive_ref fuel else recursive_deref fuel.

Definition walk_fanin (up : bool) :=
  if up then ref_fanin else deref_fanin.

Definition delta (up : bool) : Z := if up then 1 else -1.

(** How often a counter that starts at [v] and is moved [m] times passes the
    test for zero: after the step when going down, before it when going up. *)
Fixpoint zero_hits (up : bool) (v : Z) (m : nat) : nat :=
  match m with
  | O => 0
  | S m => ((if bool_decide (wrap32 (if up then v else v - 1) = 0%Z) then 1 else 0)
            + zero_hits up (v + delta up)%Z m)%nat
  end.

Definition sum_with (g : node -> Z) (l : list node) : Z :=
  foldr (fun p a => g p + a) 0 l.

(** What a walk has done when it went from [ntk] to [ntk']: [F] lists the
    nodes whose fan-ins were walked, [roots] those among them that were
    entered without a test, [L] the nodes that were moved besides the
    fan-ins of [F]. *)
Definition walked (up : bool) (ntk ntk' : klut_network) (roots L F : list node) : Prop :=
  clear_values ntk' = clear_values ntk
  /\ (forall x, (x < length (nodes ntk))%nat ->
        value ntk' x
        = wrap32 (value ntk x
                  + delta up * Z.of_nat (occ x L + occ x (flat_map (fanins ntk) F))))
  /\ (forall x, occ x F
        = (occ x roots
           + if terminal ntk x then 0
             else zero_hits up (value ntk x) (occ x L + occ x (flat_map (fanins ntk) F)))%nat).

Definition values_ok (ntk : klut_network) : Prop := forall x, uint32 (value ntk x).

Definition max_rank (rank : node -> nat) (l : list node) : nat :=
  foldr (fun p m => Nat.max (rank p) m) 0%nat l.

End cut_rewriting_impl.

End CutRewriting.

(** ** The vector node map *)

Module NodeMap.

(** The network function that the vector [node_map] sizes itself with. *)
Class Network (Ntk : Type) := size : Ntk -> Z.

#[global] Instance klut_is_network : Network Klut.klut_network := Klut.size.

(** [std::vector<T>::resize( count, value )]. *)
Definition vector_resize {T} (count : nat) (value : T) (v : list T) : list T :=
  if decide (count <= length v)%nat then take count v
  else v ++ replicate (count - length v) value.

Section node_map.
Context {T Ntk : Type} `{Network Ntk}.

(** The constructor with a default value. *)
Definition node_map (ntk : Ntk) (init_value : T) : list T :=
  replicate (Z.to_nat (size ntk)) init_value.

(** [reset]: clear, then resize to the size of the network. *)
Definition reset (ntk : Ntk) (init_value : T) (data : list T) : list T :=
  vector_resize (Z.to_nat (size ntk)) init_value [].

(** [resize]: only when the network is larger than the map. *)
Definition resize (ntk : Ntk) (init_value : T) (data : list T) : list T :=
  if decide (Z.of_nat (length data) < size ntk)
  then vector_resize (Z.to_nat (size ntk)) init_value data
  else data.

End node_map.

End NodeMap.

(** ** Cleaning up dangling nodes *)

Module Cleanup.
Import Klut.

(** Modelled from the spec: the number of latches of a network without
    latches.  The loops of [cleanup_dangling] over latches and register
    outputs then run zero times. *)
Definition num_latches (ntk : klut_network) : Z := 0.

(** [is_complemented]: a signal of the k-LUT network is a node. *)
Definition is_complemented (f : signal) : bool := false.

(** [clone_node]: a node with the function of [source] in [other]; [None]
    when the assertion on the children fails. *)
Definition clone_node (other : klut_network) (source : node)
    (children : list signal) (ntk : klut_network) : option (klut_network * signal) :=
  if decide (children = []) then None
  else let tt := Cache.lookup (data1_h1 (node_at other source)) (cache other) in
       Some (create_node children tt ntk).

(** Modelled from the spec: [topo_view], whose source is absent.  The walk is
    depth first from the outputs and lists a node after its fan-ins; the
    constants and the primary inputs come first; nodes without a path to an
    output are not visited.  [None] when the recursion budget of the model is
    used up, as on a cycle. *)
Fixpoint create_topo_rec (fuel : nat) (ntk : klut_network) (n : node)
    (order : list node) : option (list node) :=
  if bool_decide (n ∈ order) then Some order
  else match fuel with
       | O => None
       | S fuel =>
           match foldl (fun acc c => acc ≫= create_topo_rec fuel ntk c)
                   (Some order) (fanins ntk n) with
           | Some order' => Some (order' ++ [n])
           | None => None
           end
       end.

Definition topo_order (fuel : nat) (ntk : klut_network) : option (list node) :=
  let start :=
    foldl (fun o n => if bool_decide (n ∈ o) then o else o ++ [n])
      [get_constant false; get_constant true] (inputs ntk) in
  foldl (fun acc f => acc ≫= create_topo_rec fuel ntk f) (Some start) (outputs ntk).

(** The loops over the fan-ins of a node and over the outputs: a signal is
    translated by [old_to_new], with a NOT in front when it is complemented. *)
Definition translate_signal (old_to_new : list signal)
    (st : klut_network * list signal) (f : signal) : klut_network * list signal :=
  let g := old_to_new !!! f in
  if is_complemented f
  then let '(dest, s) := create_not g st.1 in (dest, st.2 ++ [s])
  else (st.1, st.2 ++ [g]).

(** The body of the loop over the nodes in topological order: the children
    of a gate are translated and the gate is cloned into [dest]. *)
Definition cleanup_node (ntk : klut_network)
    (st : option (klut_network * list signal)) (node : node)
  : option (klut_network * list signal) :=
  match st with
  | None => None
  | Some (dest, old_to_new) =>
      if is_constant node || CutRewriting.is_ci ntk node || CutRewriting.is_ro ntk node
      then Some (dest, old_to_new)
      else
        let '(dest1, children) :=
          foldl (translate_signal old_to_new) (dest, []) (fanins ntk node) in
        match clone_node ntk node children dest1 with
        | None => None
        | Some (dest2, s) => Some (dest2, <[node := s]> old_to_new)
        end
  end.

(** The first part of the generic [cleanup_dangling]: the map [old_to_new]
    is set for the constants and the primary inputs, then the nodes are
    cloned.  [None] when the leaves do not match the primary inputs (the
    assertion [it == end]) or an assertion of [clone_node] fails. *)
Definition cleanup_dangling_nodes (fuel : nat) (ntk dest : klut_network)
    (leaves : list signal) : option (klut_network * list signal) :=
  if decide (length leaves = length (inputs ntk)) then
    let old_to_new := NodeMap.node_map ntk 0%nat in
    let old_to_new := <[get_constant false := get_constant false]> old_to_new in
    let old_to_new :=
      if decide (get_constant true <> get_constant false)
      then <[get_constant true := get_constant true]> old_to_new
      else old_to_new in
    let old_to_new :=
      foldl (fun m nl => <[nl.1 := nl.2]> m) old_to_new (zip (inputs ntk) leaves) in
    order ← topo_order fuel ntk;
    foldl (cleanup_node ntk) (Some (dest, old_to_new)) order
  else None.

(** The generic [cleanup_dangling]: the translated outputs, in order. *)
Definition cleanup_dangling_generic (fuel : nat) (ntk dest : klut_network)
    (leaves : list signal) : option (klut_network * list signal) :=
  '(dest1, old_to_new) ← cleanup_dangling_nodes fuel ntk dest leaves;
  Some (foldl (translate_signal old_to_new) (dest1, []) (outputs ntk)).

(** The loop that creates the primary inputs of the destination. *)
Definition create_pis (count : nat) (dest : klut_network)
  : klut_network * list signal :=
  Nat.iter count
    (fun st => let '(d, s) := create_pi st.1 in (d, st.2 ++ [s])) (dest, []).

(** [cleanup_dangling<Ntk>]. *)
Definition cleanup_dangling (fuel : nat) (ntk : klut_network) : option klut_network :=
  let '(dest, pis) :=
    create_pis (Z.to_nat (wrap32 (num_pis ntk - num_latches ntk))) _init in
  '(dest', fs) ← cleanup_dangling_generic fuel ntk dest pis;
  Some (foldl (fun d f => create_po f d) dest' fs).

(** A network in which every node has a path to an output, or is a constant
    or a primary input. *)
Definition dangling_free (fuel : nat) (ntk : klut_network) : Prop :=
  exists order, topo_order fuel ntk = Some order
                /\ forall n, (n < length (nodes ntk))%nat -> n ∈ order.

(** Two equal gates after a substitution: the inputs 2 and 3, NOT(2) at 4,
    AND(4,3) at 5, AND(2,3) at 6, AND(5,6) at 7 with an output; node 4 is
    then replaced by 2 in its fan-outs and gets an output of its own. *)
Definition equal_gates_network : klut_network :=
  let '(n1, a) := create_pi _init in
  let '(n2, b) := create_pi n1 in
  let '(n3, c) := create_not a n2 in
  let '(n4, d) := create_and c b n3 in
  let '(n5, e) := create_and a b n4 in
  let '(n6, f) := create_and d e n5 in
  create_po c (substitute_node c a (create_po f n6)).

End Cleanup.


(** * Properties *)

(** ** Machine integers *)

Lemma wrap32_range z : uint32 (wrap32 z).
Proof. unfold uint32, wrap32. apply Z.mod_pos_bound. lia. Qed.

Lemma wrap32_small z : uint32 z -> wrap32 z = z.
Proof. unfold uint32, wrap32. intros H. apply Z.mod_small. lia. Qed.

Lemma wrap32_add_l a b : wrap32 (wrap32 a + b) = wrap32 (a + b).
Proof. unfold wrap32. apply Zplus_mod_idemp_l. Qed.

Lemma wrap32_add_r a b : wrap32 (a + wrap32 b) = wrap32 (a + b).
Proof. unfold wrap32. apply Zplus_mod_idemp_r. Qed.

Lemma wrap32_sub_l a b : wrap32 (wrap32 a - b) = wrap32 (a - b).
Proof. unfold wrap32. apply Zminus_mod_idemp_l. Qed.

Lemma wrap32_idem a : wrap32 (wrap32 a) = wrap32 a.
Proof. unfold wrap32. apply Zmod_mod. Qed.

(** ** The truth-table cache *)

Section CacheFacts.
Import Cache.

Lemma index_of_app_hit tt data rest i :
  index_of tt data = Some i -> index_of tt (data ++ rest) = Some i.
Proof.
  revert i. induction data as [|x data IH]; intros i; simpl; [discriminate|].
  destruct (decide (x = tt)); [done|].
  destruct (index_of tt data) as [k|] eqn:E; [|discriminate].
  intros [= <-]. by rewrite (IH k).
Qed.

Lemma index_of_app_miss tt data :
  index_of tt data = None -> index_of tt (data ++ [tt]) = Some (length data).
Proof.
  induction data as [|x data IH]; simpl.
  - intros _. by rewrite decide_True.
  - destruct (decide (x = tt)); [discriminate|].
    destruct (index_of tt data); [discriminate|].
    intros _. by rewrite IH.
Qed.

(** Interning: inserting a table a second time stores nothing and returns
    the literal of the first insertion. *)
Lemma insert_again tt data :
  insert tt (insert tt data).1 = insert tt data.
Proof.
  unfold insert.
  set (c := match tt with true :: _ => true | _ => false end).
  set (tt' := if c then tt_complement tt else tt).
  destruct (index_of tt' data) as [i|] eqn:E; simpl.
  - by rewrite E.
  - by rewrite (index_of_app_miss _ _ E).
Qed.

End CacheFacts.

(** ** Structural hashing *)

Section KlutHashing.
Import Klut.

Lemma _create_node_again children literal ntk :
  let r := _create_node children literal ntk in
  _create_node children literal r.1 = (r.1, r.2).
Proof.
  unfold _create_node.
  destruct (hash ntk !! (children, literal)) as [index|] eqn:E; simpl.
  - by rewrite E.
  - by rewrite lookup_insert_eq.
Qed.

(** C3.  Calling [create_node] a second time with the same children and the
    same function returns the signal of the first call, changes nothing in
    the network, and so leaves its size where the first call put it. *)
Theorem create_node_dedup (children : list signal)
    (function : Cache.truth_table) (ntk : klut_network) :
  let first := create_node children function ntk in
  let second := create_node children function first.1 in
  second.2 = first.2 /\ second.1 = first.1 /\ size second.1 = size first.1.
Proof.
  cbv zeta.
  assert (H : create_node children function
                (create_node children function ntk).1
              = ((create_node children function ntk).1,
                 (create_node children function ntk).2)).
  { unfold create_node.
    pose proof (insert_again function (cache ntk)) as Hc.
    destruct (Cache.insert function (cache ntk)) as [c literal] eqn:Ei.
    simpl in Hc.
    pose proof (_create_node_again children literal (set_cache c ntk)) as Hn.
    cbv zeta in Hn.
    assert (Hk : cache (_create_node children literal (set_cache c ntk)).1 = c).
    { unfold _create_node.
      destruct (hash (set_cache c ntk) !! (children, literal)); reflexivity. }
    rewrite Hk, Hc.
    assert (Hs : set_cache c (_create_node children literal (set_cache c ntk)).1
                 = (_create_node children literal (set_cache c ntk)).1).
    { revert Hk. destruct (_create_node children literal (set_cache c ntk)).1.
      simpl. intros ->. reflexivity. }
    rewrite Hs. exact Hn. }
  rewrite H. simpl. auto.
Qed.

End KlutHashing.

(** ** Reference counts in the k-LUT network *)

Section KlutCounters.
Import Klut.

Lemma bump_wrap k r : bump k (wrap32 r) = wrap32 (r + Z.of_nat k).
Proof.
  induction k as [|k IH].
  - simpl. f_equal. lia.
  - unfold bump in *. simpl Nat.iter. rewrite IH, wrap32_add_l. f_equal. lia.
Qed.

Lemma bump_add j k z : bump j (bump k z) = bump (j + k) z.
Proof. unfold bump. by rewrite Nat.iter_add. Qed.

Lemma bump_S_r k z : bump k (wrap32 (z + 1)) = bump (S k) z.
Proof. unfold bump. by rewrite Nat.iter_succ_r. Qed.

Lemma upd_id n : upd (children n) 0 n = n.
Proof. by destruct n. Qed.

Lemma upd_upd cs cs' j k n : upd cs' j (upd cs k n) = upd cs' (j + k) n.
Proof. unfold upd. simpl. by rewrite bump_add. Qed.

Lemma incr_h1_upd cs k n : incr_h1 (upd cs k n) = upd cs (S k) n.
Proof. reflexivity. Qed.

Lemma set_children_upd cs cs' k n : set_children cs' (upd cs k n) = upd cs' k n.
Proof. reflexivity. Qed.

Lemma occ_app x l1 l2 : occ x (l1 ++ l2) = (occ x l1 + occ x l2)%nat.
Proof. apply count_occ_app. Qed.

Lemma occ_cons x c l :
  occ x (c :: l) = ((if decide (c = x) then 1 else 0) + occ x l)%nat.
Proof.
  unfold occ. simpl. destruct (Nat.eq_dec c x), (decide (c = x)); simpl; congruence.
Qed.

Lemma occ_nil x : occ x [] = 0%nat.
Proof. reflexivity. Qed.

(** Referencing the children [cs] one by one counts, for every node, as many
    fan-outs as it has occurrences in [cs]. *)
Lemma reference_children cs : forall (ns : list klut_storage_node) k,
  foldl (fun ns c => alter incr_h1 c ns) ns cs !! k
  = (fun n => upd (children n) (occ k cs) n) <$> ns !! k.
Proof.
  induction cs as [|c cs IH]; intros ns k; simpl foldl.
  - rewrite occ_nil. destruct (ns !! k) as [n|]; simpl; [|done].
    by rewrite upd_id.
  - rewrite IH, list_lookup_alter, occ_cons.
    destruct (decide (c = k)) as [->|Hne].
    + destruct (ns !! k) as [n|]; simpl; [|done].
      f_equal. unfold incr_h1, upd. simpl. f_equal.
      rewrite bump_S_r. reflexivity.
    + destruct (ns !! k) as [n|]; simpl; done.
Qed.


Lemma redirect_eq o s : redirect o s o = s.
Proof. unfold redirect. by rewrite decide_True. Qed.

Lemma redirect_ne o s c : c <> o -> redirect o s c = c.
Proof. unfold redirect. intros. by rewrite decide_False. Qed.

Lemma substitute_children_from o s i (ns : list klut_storage_node) n post :
  ns !! i = Some n ->
  forall pre st ev,
    children n = pre ++ post ->
    shaped ns st.1
      (fun k m => if decide (k = i) then map (redirect o s) pre ++ post else children m)
      (fun k => if decide (k = s) then occ o pre else 0%nat) ->
    st.2 = ev ->
    let r := foldl (substitute_child o s i) st (seq (length pre) (length post)) in
    shaped ns r.1
      (fun k m => if decide (k = i) then map (redirect o s) (children m) else children m)
      (fun k => if decide (k = s) then occ o (children n) else 0%nat)
    /\ r.2 = ev ++ notifications o s i (map (redirect o s) pre) post.
Proof.
  intros Hi. induction post as [|c post IH]; intros pre st ev Hcs Hsh Hev; simpl.
  - rewrite app_nil_r in *. split; [|done].
    intros k. rewrite Hsh. destruct (ns !! k) as [m|] eqn:Ek; simpl; [|done].
    rewrite <- Hcs. destruct (decide (k = i)) as [->|]; [|done].
    rewrite Hi in Ek. by injection Ek as ->.
  - assert (Hsti : st.1 !! i = Some (upd (map (redirect o s) pre ++ c :: post)
        (if decide (i = s) then occ o pre else 0%nat) n)).
    { rewrite Hsh, Hi. simpl. by rewrite decide_True. }
    assert (Hlen : length (map (redirect o s) pre) = length pre) by apply length_map.
    assert (Hstep : substitute_child o s i st (length pre)
      = if decide (c = o)
        then (alter incr_h1 s (alter (set_children
                (<[length pre := s]> (map (redirect o s) pre ++ c :: post))) i st.1),
              st.2 ++ [on_modified i (map (redirect o s) pre ++ c :: post)])
        else st).
    { unfold substitute_child.
      rewrite (list_lookup_total_correct _ _ _ Hsti). simpl children.
      rewrite lookup_app_r, Hlen, Nat.sub_diag by lia. reflexivity. }
    simpl foldl. rewrite Hstep. clear Hstep.
    replace (S (length pre)) with (length (pre ++ [c])) by (rewrite length_app; simpl; lia).
    assert (Hins : <[length pre := s]> (map (redirect o s) pre ++ c :: post)
                   = map (redirect o s) pre ++ s :: post).
    { rewrite <- Hlen. rewrite insert_app_r_alt, Nat.sub_diag by lia. reflexivity. }
    destruct (decide (c = o)) as [->|Hne].
    + rewrite Hins.
      specialize (IH (pre ++ [o]) (alter incr_h1 s (alter (set_children
                (map (redirect o s) pre ++ s :: post)) i st.1),
              st.2 ++ [on_modified i (map (redirect o s) pre ++ o :: post)])
              (ev ++ [on_modified i (map (redirect o s) pre ++ o :: post)])).
      rewrite map_app in IH. simpl map in IH. rewrite redirect_eq in IH.
      rewrite <- (app_assoc ev) in IH. simpl app in IH.
      apply IH.
      * rewrite Hcs, <- app_assoc. reflexivity.
      * intros k. simpl.
        destruct (decide (k = s)) as [->|Hsk];
          [rewrite list_lookup_alter_eq | rewrite list_lookup_alter_ne by congruence];
          (match goal with |- context [alter _ i _ !! ?x] =>
             destruct (decide (x = i)) as [->|Hik];
             [rewrite list_lookup_alter_eq | rewrite list_lookup_alter_ne by congruence]
           end);
          rewrite Hsh;
          (match goal with |- context [ns !! ?x] => destruct (ns !! x) as [m|] end;
           simpl; [|done]);
          rewrite ?occ_app, ?occ_cons, ?occ_nil, ?(decide_True (P := o = o)) by done;
          rewrite <- ?app_assoc; simpl;
          repeat case_decide; try congruence;
          unfold incr_h1, set_children, upd; simpl; f_equal; f_equal;
          rewrite ?Nat.add_1_r, ?Nat.add_0_r; reflexivity.
      * simpl. by rewrite Hev.
    + specialize (IH (pre ++ [c]) st ev).
      rewrite map_app in IH. simpl map in IH. rewrite redirect_ne in IH by done.
      apply IH.
      * rewrite Hcs, <- app_assoc. reflexivity.
      * intros k. rewrite Hsh.
        destruct (ns !! k) as [m|] eqn:Ek; simpl; [|done].
        destruct (decide (k = s)), (decide (k = i)); simpl;
          rewrite ?occ_app, ?occ_cons, ?occ_nil, ?(decide_False (P := c = o)) by done;
          rewrite <- ?app_assoc, ?Nat.add_0_r; reflexivity.
      * done.
Qed.

Lemma shaped_refl ns : shaped ns ns (fun _ m => children m) (fun _ => 0%nat).
Proof.
  intros k. destruct (ns !! k) as [m|]; simpl; [|done]. by rewrite upd_id.
Qed.

Lemma shaped_length ns ns' cs d : shaped ns ns' cs d -> length ns' = length ns.
Proof.
  intros H. apply Nat.le_antisymm.
  - destruct (decide (length ns' <= length ns)%nat) as [|Hn]; [done|].
    assert (Hlt : (length ns < length ns')%nat) by lia.
    apply lookup_lt_is_Some in Hlt as [x Hx].
    rewrite H, lookup_ge_None_2 in Hx by lia. done.
  - destruct (decide (length ns <= length ns')%nat) as [|Hn]; [done|].
    assert (Hlt : (length ns' < length ns)%nat) by lia.
    apply lookup_lt_is_Some in Hlt as [x Hx].
    pose proof (H (length ns')) as Hk. rewrite Hx, lookup_ge_None_2 in Hk by lia.
    done.
Qed.

Lemma shaped_trans ns ns1 ns2 cs1 d1 cs2 d2 :
  shaped ns ns1 cs1 d1 -> shaped ns1 ns2 cs2 d2 ->
  shaped ns ns2 (fun k m => cs2 k (upd (cs1 k m) (d1 k) m))
    (fun k => (d2 k + d1 k)%nat).
Proof.
  intros H1 H2 k. rewrite H2, H1. destruct (ns !! k) as [m|]; simpl; [|done].
  by rewrite upd_upd.
Qed.

Lemma shaped_ext ns ns' cs d cs' d' :
  (forall k m, ns !! k = Some m -> cs k m = cs' k m) ->
  (forall k, d k = d' k) ->
  shaped ns ns' cs d -> shaped ns ns' cs' d'.
Proof.
  intros Hc Hd H k. rewrite H. destruct (ns !! k) as [m|] eqn:E; simpl; [|done].
  by rewrite (Hc k m E), Hd.
Qed.

Lemma substitute_in_node_spec o s i ns ev n :
  ns !! i = Some n ->
  let r := substitute_in_node o s (ns, ev) i in
  shaped ns r.1
    (fun k m => if decide (k = i) then map (redirect o s) (children m) else children m)
    (fun k => if decide (k = s) then occ o (children n) else 0%nat)
  /\ r.2 = ev ++ notifications o s i [] (children n).
Proof.
  intros Hi. unfold substitute_in_node. simpl.
  rewrite (list_lookup_total_correct _ _ _ Hi).
  apply (substitute_children_from o s i ns n (children n) Hi [] (ns, ev) ev);
    [done| |done].
  simpl. eapply shaped_ext; [| |apply shaped_refl].
  - intros k m Hk. simpl. destruct (decide (k = i)) as [->|]; [|done].
    rewrite Hi in Hk. by injection Hk as ->.
  - intros k. simpl. by destruct (decide (k = s)).
Qed.

Lemma fanin_refs_app ns1 ns2 x :
  fanin_refs (ns1 ++ ns2) x = (fanin_refs ns1 x + fanin_refs ns2 x)%nat.
Proof. unfold fanin_refs. by rewrite sum_list_with_app. Qed.

Lemma substitute_nodes_upto o s ns ev m :
  (m <= length ns)%nat ->
  let r := foldl (substitute_in_node o s) (ns, ev) (seq 0 m) in
  shaped ns r.1
    (fun k n => if decide (k < m)%nat then map (redirect o s) (children n) else children n)
    (fun k => if decide (k = s) then fanin_refs (take m ns) o else 0%nat)
  /\ r.2 = ev ++ all_notifications o s (take m ns).
Proof.
  induction m as [|m IH]; intros Hm.
  - simpl. split; [|by rewrite app_nil_r].
    eapply shaped_ext; [| |apply shaped_refl]; [done|].
    intros k. simpl. by destruct (decide (k = s)).
  - rewrite seq_S, foldl_app. simpl.
    destruct IH as [IH1 IH2]; [lia|].
    destruct (foldl (substitute_in_node o s) (ns, ev) (seq 0 m)) as [ns1 ev1] eqn:E.
    simpl in IH1, IH2.
    assert (Hlt : (m < length ns)%nat) by lia.
    apply lookup_lt_is_Some in Hlt as [n Hn].
    assert (Hn1 : ns1 !! m = Some (upd (children n)
              (if decide (m = s) then fanin_refs (take m ns) o else 0%nat) n)).
    { rewrite IH1, Hn. simpl. rewrite decide_False by lia. done. }
    destruct (substitute_in_node_spec o s m ns1 ev1 _ Hn1) as [S1 S2].
    simpl in S1, S2. rewrite (take_S_r _ _ _ Hn). split.
    + eapply shaped_ext; [| |exact (shaped_trans _ _ _ _ _ _ _ IH1 S1)].
      * intros k x Hk. simpl.
        destruct (decide (k = m)), (decide (k < m)%nat), (decide (k < S m)%nat);
          try lia; reflexivity.
      * intros k. simpl. rewrite fanin_refs_app. unfold fanin_refs at 3. simpl.
        destruct (decide (k = s)); lia.
    + rewrite S2, IH2. simpl. unfold all_notifications.
      rewrite imap_app, concat_app, <- app_assoc. simpl.
      rewrite length_take, Nat.min_l, Nat.add_0_r, app_nil_r by lia. reflexivity.
Qed.


Lemma substitute_outputs o s outs : forall ns acc,
  let r := foldl (substitute_output o s) (ns, acc) outs in
  shaped ns r.1 (fun _ m => children m)
    (fun k => if decide (k = s) then occ o outs else 0%nat)
  /\ r.2 = acc ++ map (redirect o s) outs.
Proof.
  induction outs as [|c outs IH]; intros ns acc; simpl.
  - split; [|by rewrite app_nil_r].
    eapply shaped_ext; [| |apply shaped_refl]; [done|].
    intros k. simpl. by destruct (decide (k = s)).
  - assert (Hstep : substitute_output o s (ns, acc) c
      = (if decide (c = o) then alter incr_h1 s ns else ns, acc ++ [redirect o s c])).
    { unfold substitute_output, redirect. simpl. by destruct (decide (c = o)). }
    rewrite Hstep. clear Hstep.
    destruct (IH (if decide (c = o) then alter incr_h1 s ns else ns)
                (acc ++ [redirect o s c])) as [I1 I2].
    split; [|by rewrite I2, <- app_assoc].
    intros k. rewrite I1, occ_cons.
    destruct (decide (c = o)) as [->|Hne]; [|done].
    rewrite list_lookup_alter.
    destruct (decide (s = k)) as [->|]; destruct (ns !! k) as [m|]; simpl;
      rewrite ?decide_True by done; rewrite ?decide_False by congruence;
      try done.
    f_equal. unfold upd, incr_h1. simpl. f_equal. rewrite bump_S_r.
    f_equal.
Qed.

(** The node table and the outputs after [substitute_node]. *)
Lemma substitute_node_shape o s ntk :
  let ntk' := substitute_node o s ntk in
  (exists ns2,
     shaped (nodes ntk) ns2 (fun _ m => map (redirect o s) (children m))
       (fun k => if decide (k = s) then count_refs ntk o else 0%nat)
     /\ nodes ntk' = alter (set_data0_h1 0) o ns2)
  /\ outputs ntk' = map (redirect o s) (outputs ntk)
  /\ events ntk' = events ntk ++ all_notifications o s (nodes ntk)
  /\ inputs ntk' = inputs ntk /\ hash ntk' = hash ntk /\ cache ntk' = cache ntk.
Proof.
  unfold substitute_node.
  destruct (substitute_nodes_upto o s (nodes ntk) (events ntk) (length (nodes ntk)))
    as [N1 N2]; [done|].
  destruct (foldl (substitute_in_node o s) _ _) as [ns1 ev] eqn:E1.
  destruct (substitute_outputs o s (outputs ntk) ns1 []) as [O1 O2].
  destruct (foldl (substitute_output o s) _ _) as [ns2 outs] eqn:E2.
  simpl in *. rewrite firstn_all in N1, N2.
  split; [|by repeat split].
  exists ns2. split; [|done].
  eapply shaped_ext; [| |exact (shaped_trans _ _ _ _ _ _ _ N1 O1)].
  - intros k m Hk. simpl. rewrite decide_True; [done|].
    by apply lookup_lt_Some in Hk.
  - intros k. simpl. unfold count_refs. destruct (decide (k = s)); lia.
Qed.


Lemma notifications_length o s i post : forall pre,
  length (notifications o s i pre post) = occ o post.
Proof.
  induction post as [|c post IH]; intros pre; simpl; [done|].
  rewrite occ_cons. destruct (decide (c = o)); simpl; by rewrite IH.
Qed.

Lemma notifications_none o s i post : forall pre,
  occ o post = 0%nat -> notifications o s i pre post = [].
Proof.
  intros pre H. apply length_zero_iff_nil. by rewrite notifications_length.
Qed.

Lemma notifications_single o s i post : forall pre,
  occ o post = 1%nat ->
  notifications o s i pre post = [on_modified i (pre ++ post)].
Proof.
  induction post as [|c post IH]; intros pre; [done|].
  rewrite occ_cons. simpl. destruct (decide (c = o)) as [->|Hne]; intros H.
  - rewrite notifications_none by lia. done.
  - rewrite IH by lia. by rewrite <- app_assoc.
Qed.

Lemma occ_redirect_old o s l : o <> s -> occ o (map (redirect o s) l) = 0%nat.
Proof.
  intros Hne. induction l as [|c l IH]; [done|]. simpl map.
  rewrite occ_cons, IH. unfold redirect.
  destruct (decide (c = o)); rewrite decide_False by congruence; done.
Qed.

Lemma occ_redirect_new o s l :
  o <> s -> occ s (map (redirect o s) l) = (occ s l + occ o l)%nat.
Proof.
  intros Hne. induction l as [|c l IH]; [done|]. simpl map.
  rewrite !occ_cons, IH. unfold redirect.
  destruct (decide (c = o)) as [->|].
  - rewrite decide_True, decide_False by congruence. lia.
  - destruct (decide (c = s)); lia.
Qed.

Lemma occ_redirect_other o s k l :
  k <> o -> k <> s -> occ k (map (redirect o s) l) = occ k l.
Proof.
  intros Ho Hs. induction l as [|c l IH]; [done|]. simpl map.
  rewrite !occ_cons, IH. unfold redirect.
  destruct (decide (c = o)) as [->|]; [|done].
  rewrite !decide_False by congruence. done.
Qed.

Lemma shaped_children ns ns' cs d :
  shaped ns ns' cs d -> map children ns' = imap (fun k m => cs k m) ns.
Proof.
  intros H. apply list_eq. intros k.
  rewrite list_lookup_fmap, H, list_lookup_imap.
  by destruct (ns !! k).
Qed.

Lemma fanin_refs_children ns x :
  fanin_refs ns x = sum_list (map (occ x) (map children ns)).
Proof.
  unfold fanin_refs. induction ns as [|n ns IH]; simpl; [done|]. by rewrite IH.
Qed.

Lemma fanin_refs_alter f i ns x :
  (forall n, children (f n) = children n) ->
  fanin_refs (alter f i ns) x = fanin_refs ns x.
Proof.
  intros Hf. rewrite !fanin_refs_children. f_equal. f_equal.
  apply list_eq. intros k. rewrite !list_lookup_fmap, list_lookup_alter.
  destruct (decide (i = k)) as [->|]; [|done].
  destruct (ns !! k); simpl; [|done]. by rewrite Hf.
Qed.

Lemma fanin_refs_shaped ns ns' d g x :
  shaped ns ns' (fun _ m => map g (children m)) d ->
  fanin_refs ns' x = sum_list_with (fun n => occ x (map g (children n))) ns.
Proof.
  intros H. rewrite fanin_refs_children.
  assert (E : map children ns' = map (fun m => map g (children m)) ns).
  { apply list_eq. intros k. rewrite !list_lookup_fmap, H.
    by destruct (ns !! k). }
  rewrite E. clear. induction ns as [|n ns IH]; simpl; [done|]. by rewrite IH.
Qed.


Lemma node_at_shaped ns2 ntk ntk' cs d f k :
  shaped (nodes ntk) ns2 cs d ->
  nodes ntk' = alter f k ns2 ->
  forall i, (i < length (nodes ntk))%nat ->
    node_at ntk' i
    = (if decide (k = i) then f else id) (upd (cs i (node_at ntk i)) (d i) (node_at ntk i)).
Proof.
  intros H E i Hi. unfold node_at.
  apply lookup_lt_is_Some in Hi as [m Hm].
  rewrite (list_lookup_total_correct _ _ _ Hm).
  apply list_lookup_total_correct.
  rewrite E, list_lookup_alter.
  destruct (decide (k = i)) as [->|]; rewrite H, Hm; done.
Qed.

(** C1, amended.  When [s] is another node than [o], [substitute_node]
    redirects every fan-in reference and every primary output from [o] to
    [s], leaves no reference to [o], counts one more fan-out of [s] for
    every reference moved, zeroes the fan-out counter of [o] and keeps the
    other counters.  The observers receive one notification for each moved
    fan-in reference, in node order and then in fan-in order, each carrying
    the fan-in list as it stands just before that reference is rewritten: a
    node that refers to [o] once yields exactly one notification, with its
    fan-in list before the substitution, and a node that does not refer to
    [o] yields none. *)
Theorem substitute_node_moves_references (ntk : klut_network) (o : node)
    (s : signal) :
  o <> s ->
  (o < length (nodes ntk))%nat ->
  (s < length (nodes ntk))%nat ->
  uint32 (fanout_size ntk s) ->
  let ntk' := substitute_node o s ntk in
  (forall k, children (node_at ntk' k)
             = map (redirect o s) (children (node_at ntk k)))
  /\ outputs ntk' = map (redirect o s) (outputs ntk)
  /\ count_refs ntk' o = 0%nat
  /\ fanout_size ntk' s
     = wrap32 (fanout_size ntk s + Z.of_nat (count_refs ntk o))
  /\ fanout_size ntk' o = 0
  /\ (forall k, k <> o -> k <> s -> fanout_size ntk' k = fanout_size ntk k)
  /\ events ntk' = events ntk ++ all_notifications o s (nodes ntk)
  /\ (forall i n, nodes ntk !! i = Some n ->
        length (notifications o s i [] (children n)) = occ o (children n)
        /\ (occ o (children n) = 1%nat ->
            notifications o s i [] (children n) = [on_modified i (children n)])).
Proof.
  intros Hne Ho Hs Hr ntk'.
  destruct (substitute_node_shape o s ntk)
    as [[ns2 [Hsh Hn]] [Hout [Hev _]]].
  fold ntk' in Hn, Hout, Hev.
  pose proof (node_at_shaped _ _ _ _ _ _ _ Hsh Hn) as Hat.
  assert (Hlen : length (nodes ntk') = length (nodes ntk)).
  { rewrite Hn, length_alter. exact (shaped_length _ _ _ _ Hsh). }
  repeat split.
  - intros k. destruct (decide (k < length (nodes ntk))%nat) as [Hk|Hk].
    + rewrite (Hat k Hk). destruct (decide (o = k)); reflexivity.
    + unfold node_at. rewrite !list_lookup_total_alt.
      rewrite !lookup_ge_None_2 by lia. done.
  - done.
  - unfold count_refs. rewrite Hout, Hn, occ_redirect_old by done.
    rewrite fanin_refs_alter by done.
    rewrite (fanin_refs_shaped _ _ _ _ _ Hsh).
    rewrite Nat.add_0_r. clear -Hne. induction (nodes ntk) as [|n ns IH]; [done|].
    simpl. rewrite IH, occ_redirect_old by done. done.
  - unfold fanout_size. rewrite (Hat s Hs), decide_False, decide_True by done.
    simpl. rewrite <- (wrap32_small _ Hr) at 1. apply bump_wrap.
  - unfold fanout_size. rewrite (Hat o Ho), decide_True by done. done.
  - intros k Hko Hks. unfold fanout_size.
    destruct (decide (k < length (nodes ntk))%nat) as [Hk|Hk].
    + rewrite (Hat k Hk), !decide_False by done. done.
    + unfold node_at. rewrite !list_lookup_total_alt.
      rewrite !lookup_ge_None_2 by lia. done.
  - done.
  - apply notifications_length.
  - intros H1. by rewrite notifications_single.
Qed.

Lemma substitute_node_moves_references_witness :
  fanout_size (substitute_node 2 3 double_reference_network) 3
  = wrap32 (fanout_size double_reference_network 3
            + Z.of_nat (count_refs double_reference_network 2))
  /\ events (substitute_node 2 3 double_reference_network)
     = events double_reference_network
       ++ all_notifications 2 3 (nodes double_reference_network).
Proof.
  assert (H1 : 2%nat <> 3%nat) by lia.
  assert (H2 : (2 < length (nodes double_reference_network))%nat)
    by (vm_compute; lia).
  assert (H3 : (3 < length (nodes double_reference_network))%nat)
    by (vm_compute; lia).
  assert (H4 : uint32 (fanout_size double_reference_network 3))
    by (split; vm_compute; [discriminate|reflexivity]).
  destruct (substitute_node_moves_references double_reference_network 2 3
              H1 H2 H3 H4) as (_ & _ & _ & Hs & _ & _ & He & _).
  exact (conj Hs He).
Defined.

(** C1 as stated fails on a node that refers to [o] twice (a second
    notification carries a half-rewritten fan-in list) and on the
    substitution of a node by itself (its counter ends at zero). *)
Lemma substitute_node_as_stated_fails :
  ~ substitute_node_as_stated double_reference_network 2 3
  /\ ~ substitute_node_as_stated projection_network 2 2.
Proof.
  split.
  - intros (_ & _ & _ & _ & H). vm_compute in H. discriminate.
  - intros (_ & _ & H & _). vm_compute in H. discriminate.
Qed.


Lemma occ_zero_forallb x n cs :
  forallb (fun c => bool_decide (c < n)%nat) cs = true -> (n <= x)%nat ->
  occ x cs = 0%nat.
Proof.
  intros H Hx. induction cs as [|c cs IH]; [done|].
  simpl in H. apply andb_prop in H as [Hc H]. apply bool_decide_eq_true in Hc.
  rewrite occ_cons, IH, decide_False by (done || lia). done.
Qed.

Lemma occ_pos x l : x ∈ l -> (1 <= occ x l)%nat.
Proof.
  intros H. apply list_elem_of_In in H.
  apply (count_occ_In Nat.eq_dec) in H. unfold occ. lia.
Qed.

Lemma fanin_refs_pos ns p n c :
  ns !! p = Some n -> c ∈ children n -> (1 <= fanin_refs ns c)%nat.
Proof.
  intros Hp Hc. unfold fanin_refs.
  pose proof (sum_list_with_in n (fun n => occ c (children n)) ns) as H.
  simpl in H. pose proof (occ_pos _ _ Hc).
  assert (n ∈ ns) by (apply list_elem_of_lookup; eauto).
  specialize (H ltac:(done)). lia.
Qed.

Lemma reachable_referenced ntk k : reachable ntk k -> (1 <= count_refs ntk k)%nat.
Proof.
  intros [f Hf|p c _ Hc]; unfold count_refs.
  - pose proof (occ_pos _ _ Hf). lia.
  - unfold node_at in Hc. rewrite list_lookup_total_alt in Hc.
    destruct (nodes ntk !! p) as [n|] eqn:E; simpl in Hc.
    + pose proof (fanin_refs_pos _ _ _ _ E Hc). lia.
    + by apply elem_of_nil in Hc.
Qed.

Lemma counters_consistent_init : counters_consistent _init.
Proof.
  split.
  - intros k _. reflexivity.
  - intros k. unfold fanout_size, node_at, count_refs. simpl.
    destruct k as [|[|k]]; reflexivity.
Qed.

Lemma counters_consistent_create_pi ntk :
  counters_consistent ntk -> counters_consistent (create_pi ntk).1.
Proof.
  intros [Hr Hc].
  assert (Hrefs : forall k, count_refs (create_pi ntk).1 k = count_refs ntk k).
  { intros k. unfold count_refs. simpl. rewrite fanin_refs_app.
    change (fanin_refs [_] k) with 0%nat. lia. }
  split.
  - intros k Hk. rewrite Hrefs. apply Hr. simpl in Hk.
    rewrite length_app in Hk. lia.
  - intros k. rewrite Hrefs, <- Hc. unfold fanout_size, node_at. simpl.
    destruct (decide (k < length (nodes ntk))%nat).
    + by rewrite lookup_total_app_l.
    + rewrite !list_lookup_total_alt, lookup_app_r by lia.
      rewrite (lookup_ge_None_2 (nodes ntk)) by lia.
      by destruct (k - length (nodes ntk))%nat as [|[|?]].
Qed.

Lemma counters_consistent_create_po f ntk :
  (f < length (nodes ntk))%nat ->
  counters_consistent ntk -> counters_consistent (create_po f ntk).
Proof.
  intros Hf [Hr Hc].
  assert (Hrefs : forall k, count_refs (create_po f ntk) k
            = (count_refs ntk k + if decide (k = f) then 1 else 0)%nat).
  { intros k. unfold count_refs. simpl. rewrite fanin_refs_alter by done.
    rewrite occ_app, occ_cons, occ_nil.
    destruct (decide (f = k)), (decide (k = f)); try congruence; lia. }
  split.
  - intros k Hk. simpl in Hk. rewrite length_alter in Hk.
    rewrite Hrefs, Hr, decide_False by lia. done.
  - intros k. rewrite Hrefs. unfold fanout_size, node_at. simpl.
    destruct (decide (k = f)) as [->|Hne].
    + rewrite list_lookup_total_alter_eq by done. simpl.
      fold (node_at ntk f). fold (fanout_size ntk f).
      rewrite Hc, wrap32_add_l. f_equal. lia.
    + rewrite list_lookup_total_alter_ne by done.
      fold (node_at ntk k). fold (fanout_size ntk k).
      rewrite Hc. f_equal. lia.
Qed.


Lemma counters_consistent_set_cache c ntk :
  counters_consistent ntk -> counters_consistent (set_cache c ntk).
Proof. intros H. exact H. Qed.

Lemma counters_consistent__create_node cs literal ntk :
  forallb (fun c => bool_decide (c < length (nodes ntk))%nat) cs = true ->
  counters_consistent ntk -> counters_consistent (_create_node cs literal ntk).1.
Proof.
  intros Hcs [Hr Hc]. unfold _create_node.
  destruct (hash ntk !! (cs, literal)) as [index|]; [by split|].
  set (node := set_data1_h1 literal (set_children cs empty_node)).
  set (ns3 := alter (set_data0_h2 0) (length (nodes ntk))
                (foldl (fun ns c => alter incr_h1 c ns) (nodes ntk ++ [node]) cs)).
  cbn [fst].
  assert (Hlook : forall k, ns3 !! k
            = (fun n => (if decide (length (nodes ntk) = k) then set_data0_h2 0 else id)
                          (upd (children n) (occ k cs) n))
              <$> (nodes ntk ++ [node]) !! k).
  { intros k. unfold ns3. rewrite list_lookup_alter.
    destruct (decide (length (nodes ntk) = k)) as [->|];
      rewrite reference_children; by destruct (_ !! k). }
  assert (Hch : map children ns3 = map children (nodes ntk) ++ [cs]).
  { apply list_eq. intros k.
    rewrite list_lookup_fmap, Hlook, <- (map_app children _ [node]),
      list_lookup_fmap.
    destruct (_ !! k) as [n|]; simpl; [|done].
    by destruct (decide (length (nodes ntk) = k)). }
  assert (Hrefs : forall k,
            count_refs (mk_ntk ns3 (inputs ntk) (outputs ntk)
                          (<[(cs, literal) := length (nodes ntk)]> (hash ntk))
                          (cache ntk) (trav_id_ ntk)
                          (events ntk ++ [on_add (length (nodes ntk))])) k
            = (count_refs ntk k + occ k cs)%nat).
  { intros k. unfold count_refs. simpl.
    rewrite !fanin_refs_children, Hch, map_app, sum_list_with_app. simpl. lia. }
  assert (Hlen : length ns3 = S (length (nodes ntk))).
  { unfold ns3. rewrite length_alter.
    assert (forall l (ns : list klut_storage_node),
              length (foldl (fun ns c => alter incr_h1 c ns) ns l) = length ns) as ->.
    { induction l as [|c l IH]; intros ns; simpl; [done|].
      by rewrite IH, length_alter. }
    rewrite length_app. simpl. lia. }
  split.
  - intros k Hk. simpl in Hk. rewrite Hlen in Hk.
    rewrite Hrefs, Hr, (occ_zero_forallb _ _ _ Hcs) by lia. done.
  - intros k. rewrite Hrefs. unfold fanout_size, node_at. simpl.
    rewrite list_lookup_total_alt, Hlook.
    destruct (decide (k < length (nodes ntk))%nat) as [Hk|Hk].
    + rewrite lookup_app_l by done.
      apply lookup_lt_is_Some in Hk as [n Hn]. rewrite Hn. simpl.
      assert (data0_h1 n = wrap32 (Z.of_nat (count_refs ntk k))) as E.
      { rewrite <- Hc. unfold fanout_size, node_at.
        by rewrite (list_lookup_total_correct _ _ _ Hn). }
      destruct (decide (length (nodes ntk) = k)); simpl;
        rewrite E, bump_wrap; f_equal; lia.
    + rewrite (occ_zero_forallb _ _ _ Hcs), Hr by lia.
      rewrite lookup_app_r by lia.
      destruct (k - length (nodes ntk))%nat as [|j] eqn:Ej; simpl.
      * destruct (decide (length (nodes ntk) = k)); reflexivity.
      * destruct j; reflexivity.
Qed.

Lemma counters_consistent_create_node cs function ntk :
  forallb (fun c => bool_decide (c < length (nodes ntk))%nat) cs = true ->
  counters_consistent ntk ->
  counters_consistent (create_node cs function ntk).1.
Proof.
  intros Hcs H. unfold create_node.
  destruct (Cache.insert function (cache ntk)) as [c literal].
  by apply counters_consistent__create_node.
Qed.

Lemma sum_occ_redirect_old o s (ns : list klut_storage_node) :
  o <> s ->
  sum_list_with (fun n => occ o (map (redirect o s) (children n))) ns = 0%nat.
Proof.
  intros Hne. induction ns as [|n ns IH]; [done|].
  cbn [sum_list_with]. rewrite IH, occ_redirect_old by done. done.
Qed.

Lemma sum_occ_redirect_new o s (ns : list klut_storage_node) :
  o <> s ->
  sum_list_with (fun n => occ s (map (redirect o s) (children n))) ns
  = (fanin_refs ns s + fanin_refs ns o)%nat.
Proof.
  intros Hne. unfold fanin_refs. induction ns as [|n ns IH]; [done|].
  cbn [sum_list_with]. rewrite IH, occ_redirect_new by done. lia.
Qed.

Lemma sum_occ_redirect_other o s k (ns : list klut_storage_node) :
  k <> o -> k <> s ->
  sum_list_with (fun n => occ k (map (redirect o s) (children n))) ns
  = fanin_refs ns k.
Proof.
  intros Ho Hs. unfold fanin_refs. induction ns as [|n ns IH]; [done|].
  cbn [sum_list_with]. rewrite IH, occ_redirect_other by done. lia.
Qed.

Lemma count_refs_substitute_node o s ntk k :
  o <> s ->
  count_refs (substitute_node o s ntk) k
  = if decide (k = o) then 0%nat
    else if decide (k = s) then (count_refs ntk s + count_refs ntk o)%nat
    else count_refs ntk k.
Proof.
  intros Hne.
  destruct (substitute_node_shape o s ntk) as [[ns2 [Hsh Hn]] [Hout _]].
  unfold count_refs. rewrite Hout, Hn, fanin_refs_alter by done.
  rewrite (fanin_refs_shaped _ _ _ _ _ Hsh).
  destruct (decide (k = o)) as [->|Hko]; [|destruct (decide (k = s)) as [->|Hks]].
  - by rewrite occ_redirect_old, sum_occ_redirect_old.
  - rewrite occ_redirect_new, sum_occ_redirect_new by done. lia.
  - by rewrite occ_redirect_other, sum_occ_redirect_other.
Qed.

Lemma substitute_node_counters ntk o s :
  o <> s ->
  (o < length (nodes ntk))%nat ->
  (s < length (nodes ntk))%nat ->
  uint32 (fanout_size ntk s) ->
  let ntk' := substitute_node o s ntk in
  length (nodes ntk') = length (nodes ntk)
  /\ fanout_size ntk' s
     = wrap32 (fanout_size ntk s + Z.of_nat (count_refs ntk o))
  /\ fanout_size ntk' o = 0
  /\ (forall k, k <> o -> k <> s -> fanout_size ntk' k = fanout_size ntk k).
Proof.
  intros Hne Ho Hs Hr ntk'.
  destruct (substitute_node_shape o s ntk) as [[ns2 [Hsh Hn]] _].
  fold ntk' in Hn.
  pose proof (node_at_shaped _ _ _ _ _ _ _ Hsh Hn) as Hat.
  assert (Hlen : length (nodes ntk') = length (nodes ntk)).
  { rewrite Hn, length_alter. exact (shaped_length _ _ _ _ Hsh). }
  repeat split; [done| | |].
  - unfold fanout_size. rewrite (Hat s Hs), decide_False, decide_True by done.
    simpl. rewrite <- (wrap32_small _ Hr) at 1. apply bump_wrap.
  - unfold fanout_size. rewrite (Hat o Ho), decide_True by done. done.
  - intros k Hko Hks. unfold fanout_size.
    destruct (decide (k < length (nodes ntk))%nat) as [Hk|Hk].
    + rewrite (Hat k Hk), !decide_False by done. done.
    + unfold node_at. rewrite !list_lookup_total_alt.
      rewrite !lookup_ge_None_2 by lia. done.
Qed.

Lemma counters_consistent_substitute_node o s ntk :
  o <> s -> (o < length (nodes ntk))%nat -> (s < length (nodes ntk))%nat ->
  counters_consistent ntk -> counters_consistent (substitute_node o s ntk).
Proof.
  intros Hne Ho Hs [Hr Hc].
  assert (Hu : uint32 (fanout_size ntk s)) by (rewrite Hc; apply wrap32_range).
  destruct (substitute_node_counters ntk o s Hne Ho Hs Hu)
    as (Hlen & Hfs & Hfo & Hfk).
  split.
  - intros k Hk. rewrite Hlen in Hk. rewrite count_refs_substitute_node by done.
    rewrite !decide_False by lia. by apply Hr.
  - intros k. rewrite count_refs_substitute_node by done.
    destruct (decide (k = o)) as [->|Hko]; [|destruct (decide (k = s)) as [->|Hks]].
    + by rewrite Hfo.
    + rewrite Hfs, Hc, wrap32_add_l. f_equal. lia.
    + rewrite Hfk by done. apply Hc.
Qed.


Lemma counters_consistent_apply_operation op ntk :
  in_range ntk op = true -> no_self_substitution op ->
  counters_consistent ntk -> counters_consistent (apply_operation op ntk).
Proof.
  destruct op as [|cs f|f|o s]; simpl; intros Hr Hs H.
  - by apply counters_consistent_create_pi.
  - by apply counters_consistent_create_node.
  - apply counters_consistent_create_po; [|done]. by apply bool_decide_eq_true in Hr.
  - apply andb_prop in Hr as [Ho Hn].
    apply bool_decide_eq_true in Ho. apply bool_decide_eq_true in Hn.
    by apply counters_consistent_substitute_node.
Qed.

Lemma counters_consistent_build ops : forall ntk0 ntk,
  build ops ntk0 = Some ntk -> Forall no_self_substitution ops ->
  counters_consistent ntk0 -> counters_consistent ntk.
Proof.
  induction ops as [|op ops IH]; intros ntk0 ntk; simpl.
  - by intros [= <-] _.
  - destruct (in_range ntk0 op) eqn:Hr; [|done].
    intros Hb Hf H0. apply Forall_cons in Hf as [Hop Hf].
    apply (IH _ _ Hb Hf). by apply counters_consistent_apply_operation.
Qed.

Lemma fanout_size_alter f n ntk k :
  (forall m, data0_h1 (f m) = data0_h1 m) ->
  fanout_size (set_nodes (alter f n (nodes ntk)) ntk) k = fanout_size ntk k.
Proof.
  intros Hf. unfold fanout_size, node_at. simpl.
  rewrite !list_lookup_total_alt, list_lookup_alter.
  destruct (decide (n = k)) as [->|]; [|done].
  destruct (nodes ntk !! k); simpl; [|done]. apply Hf.
Qed.

Lemma fanout_size_map f ntk k :
  f empty_node = empty_node ->
  (forall m, data0_h1 (f m) = data0_h1 m) ->
  fanout_size (set_nodes (map f (nodes ntk)) ntk) k = fanout_size ntk k.
Proof.
  intros He Hf. unfold fanout_size, node_at. simpl.
  rewrite !list_lookup_total_alt, list_lookup_fmap.
  destruct (nodes ntk !! k); simpl; [|done]. apply Hf.
Qed.

(** C8, amended.  In a network built from the initial one by [create_pi],
    [create_node], [create_po] and [substitute_node] of a node by another
    node, all on nodes of the network, the fan-out counter of every node is
    the number of references to it, from children lists and from primary
    outputs, as a 32-bit number: it is that number when it fits in 32 bits,
    and then every node reachable from a primary output has a counter of at
    least 1.  The operations on the scratch value, on the visited flag and
    on the traversal id leave every fan-out counter unchanged. *)
Theorem fanout_counters_count_references (ops : list operation)
    (ntk : klut_network) :
  build ops _init = Some ntk ->
  Forall no_self_substitution ops ->
  (forall k, fanout_size ntk k = wrap32 (Z.of_nat (count_refs ntk k)))
  /\ (forall k, Z.of_nat (count_refs ntk k) < 2 ^ 32 ->
        fanout_size ntk k = Z.of_nat (count_refs ntk k))
  /\ (forall k, reachable ntk k -> Z.of_nat (count_refs ntk k) < 2 ^ 32 ->
        1 <= fanout_size ntk k)
  /\ (forall n v k, fanout_size (set_value n v ntk) k = fanout_size ntk k)
  /\ (forall n k, fanout_size (incr_value n ntk).1 k = fanout_size ntk k)
  /\ (forall n k, fanout_size (decr_value n ntk).1 k = fanout_size ntk k)
  /\ (forall k, fanout_size (clear_values ntk) k = fanout_size ntk k)
  /\ (forall n v k, fanout_size (set_visited n v ntk) k = fanout_size ntk k)
  /\ (forall k, fanout_size (clear_visited ntk) k = fanout_size ntk k)
  /\ (forall k, fanout_size (incr_trav_id ntk) k = fanout_size ntk k).
Proof.
  intros Hb Hf.
  destruct (counters_consistent_build _ _ _ Hb Hf counters_consistent_init)
    as [_ Hc].
  assert (Hx : forall k, Z.of_nat (count_refs ntk k) < 2 ^ 32 ->
             fanout_size ntk k = Z.of_nat (count_refs ntk k)).
  { intros k Hk. rewrite Hc. apply wrap32_small. unfold uint32. lia. }
  repeat split; try done.
  - intros k Hk Hlt. rewrite (Hx k Hlt).
    pose proof (reachable_referenced _ _ Hk). lia.
  - intros n v k. by apply fanout_size_alter.
  - intros n k. by apply fanout_size_alter.
  - intros n k. by apply fanout_size_alter.
  - intros k. by apply fanout_size_map.
  - intros n v k. by apply fanout_size_alter.
  - intros k. by apply fanout_size_map.
Qed.

Lemma fanout_counters_count_references_witness :
  fanout_size (default _init (build sample_operations _init)) 2
  = Z.of_nat (count_refs (default _init (build sample_operations _init)) 2).
Proof.
  assert (Hb : build sample_operations _init
               = Some (default _init (build sample_operations _init)))
    by (vm_compute; reflexivity).
  assert (Hf : Forall no_self_substitution sample_operations).
  { repeat constructor. simpl. lia. }
  destruct (fanout_counters_count_references _ _ Hb Hf) as (_ & H & _).
  apply H. vm_compute. reflexivity.
Defined.

(** C8 as stated fails when a referenced node is substituted by itself: the
    primary input stays the primary output, and its counter is zero. *)
Lemma counters_exact_fails :
  exists ntk,
    build [op_create_pi; op_create_po 2; op_substitute_node 2 2] _init = Some ntk
    /\ fanout_size ntk 2 = 0
    /\ count_refs ntk 2 = 1%nat
    /\ reachable ntk 2
    /\ ~ counters_exact ntk.
Proof.
  eexists. split; [vm_compute; reflexivity|].
  split; [reflexivity|]. split; [reflexivity|]. split.
  - apply reachable_output. simpl. apply list_elem_of_In. simpl. auto.
  - intros H. specialize (H 2%nat). vm_compute in H. discriminate.
Qed.

End KlutCounters.

(** ** The conflict graph *)

Section GraphFacts.
Import Graph.


Example removed_vertex_gets_edge :
  run_graph allowed [g_add_vertex 1; g_add_vertex 1; g_remove_vertex 0; g_add_edge 0 1] empty_graph
  = Some (mk_graph 1 1 [[1%nat]; [0%nat]] [-1; 1]).
Proof. vm_compute. reflexivity. Qed.

Example huge_weight_vertex :
  run_graph allowed [g_add_vertex 4294967295] empty_graph
  = Some (mk_graph 1 0 [[]] [-1]).
Proof. vm_compute. reflexivity. Qed.


Lemma elem_of_set_insert y x s : y ∈ set_insert x s <-> y = x \/ y ∈ s.
Proof.
  induction s as [|z s IH]; simpl.
  - rewrite list_elem_of_singleton, elem_of_nil. tauto.
  - destruct (decide (x < z)%nat); [by rewrite elem_of_cons|].
    destruct (decide (x = z)) as [->|].
    + rewrite elem_of_cons. tauto.
    + rewrite !elem_of_cons, IH. tauto.
Qed.

Lemma length_set_insert x s : x ∉ s -> length (set_insert x s) = S (length s).
Proof.
  induction s as [|z s IH]; simpl; [done|]. intros Hx.
  apply not_elem_of_cons in Hx as [Hxz Hx].
  destruct (decide (x < z)%nat); [done|].
  rewrite decide_False by done. simpl. by rewrite IH.
Qed.

Lemma NoDup_set_insert x s : x ∉ s -> NoDup s -> NoDup (set_insert x s).
Proof.
  induction s as [|z s IH]; simpl; intros Hx Hs.
  - apply NoDup_singleton.
  - apply NoDup_cons in Hs as [Hz Hs].
    pose proof Hx as Hx'. apply not_elem_of_cons in Hx' as [Hxz Hxs].
    destruct (decide (x < z)%nat) as [Hlt|].
    + apply NoDup_cons. split; [done|by apply NoDup_cons].
    + rewrite decide_False by done.
      apply NoDup_cons. rewrite elem_of_set_insert. split; [|by apply IH].
      intros [->|?]; done.
Qed.

Lemma elem_of_set_erase y x s : y ∈ set_erase x s <-> y ∈ s /\ y <> x.
Proof. unfold set_erase. rewrite list_elem_of_filter. tauto. Qed.

Lemma NoDup_set_erase x s : NoDup s -> NoDup (set_erase x s).
Proof. apply NoDup_filter. Qed.

Lemma set_erase_absent x s : x ∉ s -> set_erase x s = s.
Proof.
  induction s as [|z s IH]; [done|]. intros Hx.
  apply not_elem_of_cons in Hx as [Hxz Hx]. unfold set_erase in *.
  rewrite filter_cons, decide_True by done. by rewrite IH.
Qed.

Lemma length_set_erase x s :
  NoDup s -> x ∈ s -> S (length (set_erase x s)) = length s.
Proof.
  induction s as [|z s IH]; intros Hs Hx; [by apply elem_of_nil in Hx|].
  apply NoDup_cons in Hs as [Hz Hs]. unfold set_erase in *.
  rewrite filter_cons. destruct (decide (z <> x)) as [Hne|He].
  - simpl. rewrite IH; [done..|]. apply elem_of_cons in Hx as [->|]; done.
  - assert (z = x) as -> by (destruct (decide (z = x)); done).
    fold (set_erase x s). by rewrite set_erase_absent.
Qed.

Lemma set_count_zero x s : set_count x s = 0%nat <-> x ∉ s.
Proof.
  unfold set_count. destruct (bool_decide (x ∈ s)) eqn:E.
  - apply bool_decide_eq_true in E. split; [done|tauto].
  - apply bool_decide_eq_false in E. tauto.
Qed.


Lemma total_alter (f : list nat -> list nat) i (adj : list (list nat)) l :
  adj !! i = Some l ->
  (sum_list_with length (alter f i adj) + length l
   = sum_list_with length adj + length (f l))%nat.
Proof.
  revert i. induction adj as [|a adj IH]; intros [|i] H; simplify_eq/=.
  - lia.
  - specialize (IH _ H). lia.
Qed.

Lemma total_insert i (adj : list (list nat)) l y :
  adj !! i = Some l ->
  (sum_list_with length (<[i := y]> adj) + length l
   = sum_list_with length adj + length y)%nat.
Proof.
  revert i. induction adj as [|a adj IH]; intros [|i] H; simplify_eq/=.
  - lia.
  - specialize (IH _ H). lia.
Qed.

Lemma present_insert_removed i (ws : list Z) w :
  ws !! i = Some w -> 0 <= w ->
  S (length (filter (fun w => 0 <= w) (<[i := -1]> ws)))
  = length (filter (fun w => 0 <= w) ws).
Proof.
  revert i. induction ws as [|a ws IH]; intros [|i] H Hw; simplify_eq/=.
  - rewrite !filter_cons, decide_False, decide_True by lia. done.
  - rewrite !filter_cons. destruct (decide (0 <= a)); simpl; by rewrite IH.
Qed.

Lemma set_erase_idem x s : set_erase x (set_erase x s) = set_erase x s.
Proof. apply set_erase_absent. rewrite elem_of_set_erase. tauto. Qed.

Lemma erase_neighbors_lookup x N : forall (adj : list (list nat)) u,
  foldl (fun adj w => alter (set_erase x) w adj) adj N !! u
  = if decide (u ∈ N) then set_erase x <$> adj !! u else adj !! u.
Proof.
  induction N as [|w N IH]; intros adj u; cbn [foldl].
  - rewrite decide_False; [done|]. apply not_elem_of_nil.
  - rewrite IH, list_lookup_alter.
    destruct (decide (w = u)) as [->|Hne].
    + rewrite (decide_True (P := u ∈ u :: N)) by apply list_elem_of_here.
      destruct (decide (u ∈ N)); [|done].
      destruct (adj !! u); simpl; [|done]. by rewrite set_erase_idem.
    + destruct (decide (u ∈ N)) as [Hin|Hin].
      * rewrite decide_True; [done|]. by apply list_elem_of_further.
      * rewrite decide_False; [done|]. rewrite elem_of_cons. intros [->|]; done.
Qed.

Lemma erase_neighbors_length x N : forall (adj : list (list nat)),
  length (foldl (fun adj w => alter (set_erase x) w adj) adj N) = length adj.
Proof.
  induction N as [|w N IH]; intros adj; simpl; [done|].
  by rewrite IH, length_alter.
Qed.

Lemma erase_neighbors_total x N : forall (adj : list (list nat)),
  NoDup N ->
  (forall w, w ∈ N -> exists l, adj !! w = Some l /\ NoDup l /\ x ∈ l) ->
  (sum_list_with length (foldl (fun adj w => alter (set_erase x) w adj) adj N)
   + length N = sum_list_with length adj)%nat.
Proof.
  induction N as [|w N IH]; intros adj HN H; simpl; [lia|].
  apply NoDup_cons in HN as [Hw HN].
  destruct (H w) as (l & Hl & Hnd & Hx); [apply list_elem_of_here|].
  pose proof (total_alter (set_erase x) w adj l Hl) as Ht.
  pose proof (length_set_erase x l Hnd Hx) as He.
  specialize (IH (alter (set_erase x) w adj) HN).
  assert (Hrest : forall w', w' ∈ N ->
            exists l', alter (set_erase x) w adj !! w' = Some l' /\ NoDup l' /\ x ∈ l').
  { intros w' Hw'. rewrite list_lookup_alter_ne by (intros ->; done).
    apply H. by apply list_elem_of_further. }
  specialize (IH Hrest). lia.
Qed.


Lemma has_vertex_true g v : has_vertex g v = true <-> 0 <= _weights g !!! v.
Proof. unfold has_vertex. apply bool_decide_eq_true. Qed.

Lemma adjacent_in_range g u v :
  graph_wf g -> adjacent g u v ->
  (u < length (_weights g))%nat /\ (v < length (_weights g))%nat
  /\ u <> v /\ has_vertex g u = true /\ has_vertex g v = true
  /\ adjacent g v u.
Proof.
  intros (_ & Hadj & _) H.
  destruct (Hadj _ _ H) as (Hs & Hne & Hu & Hlu).
  destruct (Hadj _ _ Hs) as (_ & _ & Hv & Hlv). done.
Qed.

(** The adjacency sets after [remove_vertex]. *)
Lemma remove_vertex_adjacent g x g' u :
  graph_wf g -> (x < length (_weights g))%nat ->
  remove_vertex x g = Some g' ->
  _adjacent g' !!! u
  = if decide (u = x) then [] else set_erase x (_adjacent g !!! u).
Proof.
  intros Hwf Hx. unfold remove_vertex.
  destruct (decide (_weights g !!! x = -1)); [done|]. intros [= <-]. simpl.
  destruct Hwf as (Hlen & Hadj & _).
  rewrite list_lookup_total_insert, erase_neighbors_length.
  destruct (decide (u = x)) as [->|Hne].
  - rewrite decide_True; [done|]. split; [done|lia].
  - rewrite decide_False by (intros [? _]; congruence).
    rewrite list_lookup_total_alt, erase_neighbors_lookup.
    destruct (decide (u ∈ _adjacent g !!! x)) as [Hin|Hin].
    + rewrite list_lookup_total_alt. by destruct (_adjacent g !! u).
    + rewrite <- list_lookup_total_alt. symmetry. apply set_erase_absent.
      intros Hxu. apply Hin. by apply (Hadj u x).
Qed.

Lemma remove_vertex_weights g x g' :
  remove_vertex x g = Some g' -> _weights g' = <[x := -1]> (_weights g).
Proof.
  unfold remove_vertex.
  destruct (decide (_weights g !!! x = -1)); [done|]. by intros [= <-].
Qed.

Lemma remove_vertex_some g x :
  has_vertex g x = true -> is_Some (remove_vertex x g).
Proof.
  rewrite has_vertex_true. intros H. unfold remove_vertex.
  rewrite decide_False by lia. eauto.
Qed.

Lemma remove_vertex_adjacent_iff g x g' u v :
  graph_wf g -> (x < length (_weights g))%nat ->
  remove_vertex x g = Some g' ->
  adjacent g' u v <-> adjacent g u v /\ u <> x /\ v <> x.
Proof.
  intros Hwf Hx Hr. unfold adjacent.
  rewrite (remove_vertex_adjacent _ _ _ u Hwf Hx Hr).
  destruct (decide (u = x)) as [->|Hne].
  - rewrite elem_of_nil. tauto.
  - rewrite elem_of_set_erase. tauto.
Qed.

Lemma remove_vertex_has_vertex g x g' v :
  (x < length (_weights g))%nat ->
  remove_vertex x g = Some g' ->
  has_vertex g' v = if decide (v = x) then false else has_vertex g v.
Proof.
  intros Hx Hr. unfold has_vertex.
  rewrite (remove_vertex_weights _ _ _ Hr), list_lookup_total_insert.
  destruct (decide (v = x)) as [->|Hne].
  - rewrite decide_True by done. apply bool_decide_eq_false. lia.
  - rewrite decide_False by (intros [? _]; congruence). done.
Qed.

Lemma total_lookup_bound (adj : list (list nat)) i :
  (length (adj !!! i) <= sum_list_with length adj)%nat.
Proof.
  rewrite list_lookup_total_alt. destruct (adj !! i) as [l|] eqn:E; simpl; [|lia].
  apply (sum_list_with_in l length). apply list_elem_of_lookup. eauto.
Qed.

Lemma remove_vertex_wf g x g' :
  graph_wf g -> (x < length (_weights g))%nat -> has_vertex g x = true ->
  remove_vertex x g = Some g' -> graph_wf g'.
Proof.
  intros Hwf Hx Hp Hr.
  pose proof (remove_vertex_adjacent_iff g x g') as Hiff.
  pose proof (remove_vertex_has_vertex g x g') as Hhas.
  pose proof (remove_vertex_weights g x g' Hr) as Hw.
  pose proof (fun u => remove_vertex_adjacent g x g' u Hwf Hx Hr) as Hadj'.
  pose proof Hwf as (Hlen & Hadj & Hnd & Hge & Hnv & m & Hm & Hne).
  assert (Hlen' : length (_adjacent g') = length (_weights g')).
  { rewrite Hw, length_insert. revert Hr. unfold remove_vertex.
    destruct (decide _); [done|]. intros [= <-]. simpl.
    by rewrite length_insert, erase_neighbors_length. }
  split; [done|]. split; [|split; [|split; [|split]]].
  - intros u v Huv. apply (Hiff u v Hwf Hx Hr) in Huv as (Huv & Hux & Hvx).
    destruct (Hadj _ _ Huv) as (Hs & Huv' & Hu & Hlu).
    split; [by apply (Hiff v u Hwf Hx Hr)|]. split; [done|].
    rewrite (Hhas u Hx Hr), decide_False by done. rewrite Hw, length_insert. done.
  - intros u l Hl. apply list_lookup_total_correct in Hl. rewrite Hadj' in Hl.
    subst l. destruct (decide (u = x)); [apply NoDup_nil_2|].
    apply NoDup_set_erase. rewrite list_lookup_total_alt.
    destruct (_adjacent g !! u) eqn:E; simpl; [by apply (Hnd u)|apply NoDup_nil_2].
  - intros v w. rewrite Hw, list_lookup_insert.
    destruct (decide (x = v /\ (x < length (_weights g))%nat)); [intros [= <-]; lia|].
    apply Hge.
  - apply has_vertex_true in Hp.
    destruct (_weights g !! x) as [w|] eqn:Ew;
      [|apply lookup_ge_None in Ew; lia].
    rewrite (list_lookup_total_correct _ _ _ Ew) in Hp.
    pose proof (present_insert_removed x (_weights g) w Ew Hp) as Hc.
    revert Hr. unfold remove_vertex. destruct (decide _); [done|].
    intros [= <-]. unfold num_vertices, present_count in *. simpl.
    rewrite Hnv, wrap32_sub_l. f_equal. lia.
  - set (N := _adjacent g !!! x).
    assert (HN : NoDup N).
    { unfold N. rewrite list_lookup_total_alt.
      destruct (_adjacent g !! x) eqn:E; simpl; [by apply (Hnd x)|apply NoDup_nil_2]. }
    assert (Hx' : (x < length (_adjacent g))%nat) by lia.
    apply list_lookup_lookup_total_lt in Hx'. fold N in Hx'.
    assert (HNx : x ∉ N).
    { intros Hin. by destruct (Hadj x x Hin) as (_ & ? & _). }
    pose proof (erase_neighbors_total x N (_adjacent g) HN) as Ht.
    assert (Hpre : forall w, w ∈ N ->
              exists l, _adjacent g !! w = Some l /\ NoDup l /\ x ∈ l).
    { intros w Hin. destruct (adjacent_in_range g x w Hwf Hin)
        as (_ & Hlw & _ & _ & _ & Hs).
      rewrite <- Hlen in Hlw. apply list_lookup_lookup_total_lt in Hlw.
      exists (_adjacent g !!! w). split; [done|]. split; [by apply (Hnd w)|done]. }
    specialize (Ht Hpre).
    set (adj1 := foldl (fun adj w => alter (set_erase x) w adj) (_adjacent g) N) in *.
    assert (H1 : adj1 !! x = Some N).
    { unfold adj1. rewrite erase_neighbors_lookup, decide_False by done. done. }
    pose proof (total_insert x adj1 N [] H1) as Hi. simpl in Hi.
    assert (Hle : (length N <= m)%nat).
    { assert (2 * length N <= adjacency_total g)%nat; [|lia].
      unfold adjacency_total. lia. }
    exists (m - length N)%nat.
    revert Hr. unfold remove_vertex. destruct (decide _); [done|].
    intros [= <-]. unfold adjacency_total, num_edges in *. simpl. fold N. fold adj1.
    split; [lia|]. rewrite Hne. unfold wrap64.
    rewrite Zminus_mod_idemp_l. f_equal. lia.
Qed.


Lemma to_int32_small w : 0 <= w < 2 ^ 31 -> to_int32 w = w.
Proof.
  intros H. unfold to_int32. rewrite wrap32_small by (unfold uint32; lia).
  destruct (w <? 2 ^ 31) eqn:E; [done|]. apply Z.ltb_ge in E. lia.
Qed.

Lemma add_vertex_adjacent g w u :
  graph_wf g -> _adjacent (add_vertex w g).1 !!! u = _adjacent g !!! u.
Proof.
  intros (Hlen & _). simpl.
  destruct (decide (u < length (_adjacent g))%nat).
  - by rewrite lookup_total_app_l.
  - rewrite !list_lookup_total_alt, lookup_app_r by lia.
    rewrite (lookup_ge_None_2 (_adjacent g)) by lia.
    by destruct (u - length (_adjacent g))%nat as [|[|?]].
Qed.

Lemma add_vertex_wf g w :
  graph_wf g -> 0 <= w < 2 ^ 31 -> graph_wf (add_vertex w g).1.
Proof.
  intros Hwf Hw. pose proof (add_vertex_adjacent g w) as Ha.
  pose proof Hwf as (Hlen & Hadj & Hnd & Hge & Hnv & m & Hm & Hne).
  split; [simpl; rewrite !length_app; simpl; lia|].
  split; [|split; [|split; [|split]]].
  - intros u v Huv. unfold adjacent in *. rewrite Ha in * by done.
    destruct (Hadj _ _ Huv) as (Hs & Huv' & Hu & Hlu).
    split; [done|]. split; [done|]. split.
    + unfold has_vertex in *. simpl. by rewrite lookup_total_app_l.
    + simpl. rewrite length_app. lia.
  - intros u l. simpl. rewrite lookup_app_Some.
    intros [Hl|[_ Hl]]; [by apply (Hnd u)|].
    destruct (u - length (_adjacent g))%nat as [|?]; simplify_eq/=.
    apply NoDup_nil_2.
  - intros v z. simpl. rewrite lookup_app_Some.
    intros [Hl|[_ Hl]]; [by apply (Hge v)|].
    destruct (v - length (_weights g))%nat as [|?]; simplify_eq/=.
    rewrite to_int32_small by done. lia.
  - unfold num_vertices, present_count in *. simpl.
    rewrite filter_app, length_app, to_int32_small by done.
    rewrite filter_cons, decide_True by lia. simpl.
    rewrite Hnv, wrap32_add_l. f_equal. lia.
  - exists m. unfold adjacency_total, num_edges in *. simpl.
    rewrite sum_list_with_app. simpl. split; [lia|done].
Qed.

Lemma add_edge_new g v1 v2 :
  v1 <> v2 -> v2 ∉ _adjacent g !!! v1 ->
  add_edge v1 v2 g
  = mk_graph (_num_vertices g) (wrap64 (_num_edges g + 1))
      (alter (set_insert v1) v2 (alter (set_insert v2) v1 (_adjacent g)))
      (_weights g).
Proof.
  intros Hne Hin. unfold add_edge. rewrite decide_False by done.
  rewrite decide_True; [done|]. by apply set_count_zero.
Qed.

Lemma add_edge_old g v1 v2 :
  v1 = v2 \/ v2 ∈ _adjacent g !!! v1 -> add_edge v1 v2 g = g.
Proof.
  intros H. unfold add_edge. destruct (decide (v1 = v2)); [done|].
  destruct H as [?|H]; [done|]. rewrite decide_False; [done|].
  rewrite set_count_zero. tauto.
Qed.

Lemma add_edge_adjacent_new g v1 v2 u :
  (v1 < length (_adjacent g))%nat -> (v2 < length (_adjacent g))%nat ->
  v1 <> v2 -> v2 ∉ _adjacent g !!! v1 ->
  _adjacent (add_edge v1 v2 g) !!! u
  = if decide (u = v2) then set_insert v1 (_adjacent g !!! v2)
    else if decide (u = v1) then set_insert v2 (_adjacent g !!! v1)
    else _adjacent g !!! u.
Proof.
  intros H1 H2 Hne Hin. rewrite add_edge_new by done. simpl.
  destruct (decide (u = v2)) as [->|Hu2].
  - rewrite list_lookup_total_alter_eq by (rewrite length_alter; lia).
    by rewrite list_lookup_total_alter_ne.
  - rewrite list_lookup_total_alter_ne by done.
    destruct (decide (u = v1)) as [->|Hu1].
    + by rewrite list_lookup_total_alter_eq.
    + by rewrite list_lookup_total_alter_ne.
Qed.

Lemma add_edge_adjacent_iff g v1 v2 u v :
  graph_wf g ->
  (v1 < length (_weights g))%nat -> (v2 < length (_weights g))%nat ->
  adjacent (add_edge v1 v2 g) u v
  <-> adjacent g u v
      \/ (v1 <> v2 /\ ((u = v1 /\ v = v2) \/ (u = v2 /\ v = v1))).
Proof.
  intros Hwf H1 H2. pose proof Hwf as (Hlen & Hadj & _).
  destruct (decide (v1 = v2 \/ v2 ∈ _adjacent g !!! v1)) as [Hold|Hnew].
  - rewrite add_edge_old by done. split; [tauto|].
    intros [?|(Hne & [[-> ->]|[-> ->]])]; [done| |].
    + destruct Hold; done.
    + destruct Hold as [?|Hin]; [done|]. by apply (Hadj v1 v2).
  - assert (v1 <> v2) by tauto. assert (v2 ∉ _adjacent g !!! v1) by tauto.
    unfold adjacent. rewrite add_edge_adjacent_new by (done || lia).
    destruct (decide (u = v2)) as [->|Hu2]; [|destruct (decide (u = v1)) as [->|Hu1]].
    + rewrite elem_of_set_insert. intuition congruence.
    + rewrite elem_of_set_insert. intuition congruence.
    + intuition congruence.
Qed.

Lemma add_edge_weights g v1 v2 : _weights (add_edge v1 v2 g) = _weights g.
Proof.
  unfold add_edge. destruct (decide (v1 = v2)); [done|].
  by destruct (decide (set_count v2 (_adjacent g !!! v1) = 0%nat)).
Qed.

Lemma add_edge_wf g v1 v2 :
  graph_wf g ->
  (v1 < length (_weights g))%nat -> (v2 < length (_weights g))%nat ->
  has_vertex g v1 = true -> has_vertex g v2 = true ->
  graph_wf (add_edge v1 v2 g).
Proof.
  intros Hwf H1 H2 Hp1 Hp2.
  destruct (decide (v1 = v2 \/ v2 ∈ _adjacent g !!! v1)) as [Hold|Hnew];
    [by rewrite add_edge_old|].
  assert (Hne : v1 <> v2) by tauto.
  assert (Hin : v2 ∉ _adjacent g !!! v1) by tauto.
  pose proof (add_edge_adjacent_iff g v1 v2) as Hiff.
  pose proof Hwf as (Hlen & Hadj & Hnd & Hge & Hnv & m & Hm & Hedges).
  assert (Hin' : v1 ∉ _adjacent g !!! v2).
  { intros H. apply Hin. by apply (Hadj v2 v1). }
  assert (Hw : _weights (add_edge v1 v2 g) = _weights g) by apply add_edge_weights.
  assert (Hh : forall u, has_vertex (add_edge v1 v2 g) u = has_vertex g u).
  { intros u. unfold has_vertex. by rewrite Hw. }
  split; [rewrite Hw, add_edge_new by done; simpl; by rewrite !length_alter|].
  split; [|split; [|split; [|split]]].
  - intros u v Huv. apply Hiff in Huv; [|done..]. rewrite Hh, Hw.
    destruct Huv as [Huv|(_ & [[-> ->]|[-> ->]])].
    + destruct (Hadj _ _ Huv) as (Hs & ? & ? & ?).
      split; [apply Hiff; tauto|done].
    + split; [apply Hiff; tauto|done].
    + split; [apply Hiff; tauto|]. split; [congruence|done].
  - intros u l Hl. apply list_lookup_total_correct in Hl.
    rewrite add_edge_adjacent_new in Hl by (done || lia). subst l.
    assert (Hnd' : forall k, NoDup (_adjacent g !!! k)).
    { intros k. rewrite list_lookup_total_alt.
      destruct (_adjacent g !! k) eqn:E; simpl; [by apply (Hnd k)|apply NoDup_nil_2]. }
    repeat case_decide; try apply NoDup_set_insert; done.
  - rewrite Hw. done.
  - rewrite add_edge_new by done. done.
  - exists (S m). rewrite add_edge_new by done.
    unfold adjacency_total, num_edges in *. simpl.
    assert (Hl1 : _adjacent g !! v1 = Some (_adjacent g !!! v1))
      by (apply list_lookup_lookup_total_lt; lia).
    assert (Hl2 : alter (set_insert v2) v1 (_adjacent g) !! v2
                  = Some (_adjacent g !!! v2)).
    { rewrite list_lookup_alter_ne by done.
      apply list_lookup_lookup_total_lt. lia. }
    pose proof (total_alter (set_insert v2) v1 _ _ Hl1) as T1.
    pose proof (total_alter (set_insert v1) v2 _ _ Hl2) as T2.
    rewrite length_set_insert in T1, T2 by done.
    split; [lia|]. rewrite Hedges. unfold wrap64.
    rewrite Zplus_mod_idemp_l. f_equal. lia.
Qed.


Lemma graph_wf_empty : graph_wf empty_graph.
Proof.
  split; [done|]. split; [|split; [|split; [|split]]]; try done.
  - intros u v H. unfold adjacent in H. simpl in H.
    rewrite list_lookup_total_alt in H. simpl in H. by apply elem_of_nil in H.
  - by exists 0%nat.
Qed.

Lemma graph_wf_apply op g g' :
  graph_wf g -> proper g op = true -> apply_graph_operation op g = Some g' ->
  graph_wf g'.
Proof.
  intros Hwf Hp. unfold proper, allowed in Hp.
  destruct op as [w|v1 v2|x]; simpl.
  - intros [= <-]. apply andb_prop in Hp as [H1 H2].
    apply bool_decide_eq_true in H1. apply bool_decide_eq_true in H2.
    apply add_vertex_wf; [done|lia].
  - intros [= <-]. apply andb_prop in Hp as [H1 H2].
    apply andb_prop in H1 as [Hv1 Hv2]. apply andb_prop in H2 as [Hp1 Hp2].
    apply bool_decide_eq_true in Hv1. apply bool_decide_eq_true in Hv2.
    by apply add_edge_wf.
  - intros Hr. apply andb_prop in Hp as [H1 _].
    apply andb_prop in H1 as [Hx Hpx]. apply bool_decide_eq_true in Hx.
    by apply (remove_vertex_wf g x g').
Qed.

Lemma graph_wf_run ops : forall g g',
  graph_wf g -> run_graph proper ops g = Some g' -> graph_wf g'.
Proof.
  induction ops as [|op ops IH]; intros g g' Hwf; simpl.
  - by intros [= <-].
  - destruct (proper g op) eqn:Hp; [|done].
    destruct (apply_graph_operation op g) as [g1|] eqn:Ha; [|done]. simpl.
    apply IH. by apply (graph_wf_apply op g g1).
Qed.

Lemma NoDup_bounded_length (l : list nat) n :
  NoDup l -> (forall x, x ∈ l -> (x < n)%nat) -> (length l <= n)%nat.
Proof.
  intros Hnd Hb.
  assert (H : (length l <= length (seq 0 n))%nat); [|by rewrite length_seq in H].
  apply submseteq_length, NoDup_submseteq; [done|].
  intros x Hx. apply elem_of_seq. specialize (Hb x Hx). lia.
Qed.

Lemma adjacency_total_bound g :
  graph_wf g ->
  (adjacency_total g <= length (_weights g) * length (_weights g))%nat.
Proof.
  intros Hwf. pose proof Hwf as (Hlen & Hadj & Hnd & _).
  set (n := length (_weights g)).
  assert (Hall : forall u l, _adjacent g !! u = Some l -> (length l <= n)%nat).
  { intros u l Hl. apply NoDup_bounded_length; [by apply (Hnd u)|].
    intros x Hx. apply (adjacent_in_range g u x Hwf).
    unfold adjacent. by rewrite (list_lookup_total_correct _ _ _ Hl). }
  assert (H : (sum_list_with length (_adjacent g) <= length (_adjacent g) * n)%nat).
  { clear -Hall. induction (_adjacent g) as [|a adj IH]; simpl; [lia|].
    assert (length a <= n)%nat by (apply (Hall 0%nat); done).
    assert (sum_list_with length adj <= length adj * n)%nat.
    { apply IH. intros u l Hl. apply (Hall (S u)). done. }
    lia. }
  unfold adjacency_total. rewrite Hlen in H. exact H.
Qed.

Lemma graph_wf_invariants g :
  graph_wf g -> Z.of_nat (length (_weights g)) < 2 ^ 32 -> graph_invariants g.
Proof.
  intros Hwf Hsize.
  pose proof (adjacency_total_bound g Hwf) as Hb.
  pose proof Hwf as (Hlen & Hadj & Hnd & Hge & Hnv & m & Hm & Hne).
  split; [|split; [|split; [|split]]].
  - intros u v H. by apply (Hadj u v).
  - intros u H. by destruct (Hadj u u H) as (_ & ? & _).
  - intros v Hv Hp. split.
    + destruct (_adjacent g !!! v) as [|w l] eqn:E; [done|].
      assert (Hin : adjacent g v w) by (unfold adjacent; rewrite E; apply list_elem_of_here).
      destruct (Hadj v w Hin) as (_ & _ & Hpv & _). congruence.
    + apply list_lookup_lookup_total_lt in Hv. specialize (Hge _ _ Hv).
      unfold has_vertex in Hp. apply bool_decide_eq_false in Hp.
      unfold weight. lia.
  - rewrite Hnv. apply wrap32_small. unfold uint32, present_count.
    pose proof (length_filter (fun w => 0 <= w) (_weights g)). lia.
  - rewrite Hne. unfold wrap64. rewrite Z.mod_small; [lia|].
    assert (Z.of_nat (length (_weights g) * length (_weights g)) < 2 ^ 64); [|lia].
    rewrite Nat2Z.inj_mul. nia.
Qed.

(** C9 as stated fails: an edge may be added to a removed vertex, and a
    weight of 2^32 - 1 is stored as -1, the mark of a removed vertex. *)
Lemma graph_invariants_fail :
  (exists g,
     run_graph allowed
       [g_add_vertex 1; g_add_vertex 1; g_remove_vertex 0; g_add_edge 0 1]
       empty_graph = Some g
     /\ ~ graph_invariants g)
  /\ (exists g,
        run_graph allowed [g_add_vertex 4294967295] empty_graph = Some g
        /\ ~ graph_invariants g).
Proof.
  split; (eexists; split; [vm_compute; reflexivity|]).
  - intros (_ & _ & H & _). specialize (H 0%nat).
    destruct H as [H _]; [simpl; lia|reflexivity|]. discriminate.
  - intros (_ & _ & _ & H & _). vm_compute in H. discriminate.
Qed.

(** C9, amended.  After any sequence of [add_vertex] with a weight below
    2^31, of [add_edge] between present vertices and of [remove_vertex] of a
    present vertex, in a graph of fewer than 2^32 vertex indices, the
    adjacency relation is symmetric and irreflexive, a removed vertex has an
    empty adjacency set and weight -1, [num_vertices] is the number of
    vertex indices with a non-negative weight, and [num_edges] is half the
    sum of the sizes of the adjacency sets. *)
Theorem graph_invariants_kept (ops : list graph_operation) (g : graph) :
  run_graph proper ops empty_graph = Some g ->
  Z.of_nat (length (_weights g)) < 2 ^ 32 ->
  graph_invariants g.
Proof.
  intros Hrun Hsize. apply graph_wf_invariants; [|done].
  by apply (graph_wf_run ops empty_graph g graph_wf_empty).
Qed.

Lemma graph_invariants_kept_witness :
  graph_invariants (mk_graph 1 0 [[]; []; []] [-1; 3; -1]).
Proof.
  apply (graph_invariants_kept
           [g_add_vertex 5; g_add_vertex 3; g_add_vertex 7; g_add_edge 0 1;
            g_add_edge 2 0; g_remove_vertex 0; g_remove_vertex 2]).
  - vm_compute. reflexivity.
  - vm_compute. reflexivity.
Defined.


Lemma remove_vertex_length g x g' :
  remove_vertex x g = Some g' -> length (_weights g') = length (_weights g).
Proof. intros H. by rewrite (remove_vertex_weights _ _ _ H), length_insert. Qed.

(** Removing a list of distinct present vertices. *)
Lemma remove_vertices l : forall g,
  graph_wf g -> NoDup l ->
  (forall v, v ∈ l -> (v < length (_weights g))%nat /\ has_vertex g v = true) ->
  exists g',
    foldl (fun og v => og ≫= remove_vertex v) (Some g) l = Some g'
    /\ graph_wf g'
    /\ length (_weights g') = length (_weights g)
    /\ (forall v, has_vertex g' v = true <-> (has_vertex g v = true /\ (v ∉ l)))
    /\ (forall u v, adjacent g' u v <-> (adjacent g u v /\ (u ∉ l) /\ (v ∉ l))).
Proof.
  induction l as [|x l IH]; intros g Hwf Hnd Hl; simpl.
  - exists g. split; [done|]. split; [done|]. split; [done|]. split.
    + intros v. split; [|tauto]. intros H. split; [done|apply not_elem_of_nil].
    + intros u v. split; [|tauto].
      intros H. repeat split; try done; apply not_elem_of_nil.
  - apply NoDup_cons in Hnd as [Hx Hnd].
    destruct (Hl x (list_elem_of_here _ _)) as [Hxl Hxp].
    destruct (remove_vertex_some g x Hxp) as [g1 Hr]. rewrite Hr.
    pose proof (remove_vertex_wf g x g1 Hwf Hxl Hxp Hr) as Hwf1.
    pose proof (remove_vertex_length g x g1 Hr) as Hlen1.
    destruct (IH g1 Hwf1 Hnd) as (g' & Hf & Hwf' & Hlen' & Hp' & Ha').
    { intros v Hv. rewrite Hlen1, (remove_vertex_has_vertex g x g1 v Hxl Hr).
      destruct (Hl v (list_elem_of_further _ _ _ Hv)) as [? ?].
      rewrite decide_False by (intros ->; done). done. }
    exists g'. split; [done|]. split; [done|]. split; [lia|]. split.
    + intros v. rewrite Hp', (remove_vertex_has_vertex g x g1 v Hxl Hr), not_elem_of_cons.
      destruct (decide (v = x)); intuition congruence.
    + intros u v. rewrite Ha', (remove_vertex_adjacent_iff g x g1 u v Hwf Hxl Hr).
      rewrite !not_elem_of_cons. tauto.
Qed.

(** The loop body on a vertex that is still present: it joins the set, and
    it leaves the graph with its neighbours. *)
Lemma select_vertex_present g mwis i :
  graph_wf g -> (i < length (_weights g))%nat -> has_vertex g i = true ->
  exists g',
    select_vertex (Some (g, mwis)) i = Some (g', mwis ++ [i])
    /\ graph_wf g'
    /\ length (_weights g') = length (_weights g)
    /\ (forall v, has_vertex g' v = true
                  <-> has_vertex g v = true /\ v <> i /\ ~ adjacent g i v)
    /\ (forall u v, adjacent g' u v
                    <-> adjacent g u v /\ has_vertex g' u = true
                        /\ has_vertex g' v = true).
Proof.
  intros Hwf Hi Hp. unfold select_vertex. rewrite Hp. simpl.
  destruct (remove_vertex_some g i Hp) as [g1 Hr]. rewrite Hr.
  pose proof (remove_vertex_wf g i g1 Hwf Hi Hp Hr) as Hwf1.
  pose proof (remove_vertex_length g i g1 Hr) as Hlen1.
  pose proof Hwf as (Hlen & Hadj & Hnd & _).
  set (N := _adjacent g !!! i).
  assert (HN : NoDup N).
  { unfold N. rewrite list_lookup_total_alt.
    destruct (_adjacent g !! i) eqn:E; simpl; [by apply (Hnd i)|apply NoDup_nil_2]. }
  destruct (remove_vertices N g1 Hwf1 HN) as (g' & Hf & Hwf' & Hlen' & Hp' & Ha').
  { intros v Hv. destruct (adjacent_in_range g i v Hwf Hv) as (_ & ? & ? & _ & ? & _).
    rewrite Hlen1, (remove_vertex_has_vertex g i g1 v Hi Hr).
    rewrite decide_False by congruence. done. }
  rewrite Hf. exists g'. split; [done|]. split; [done|]. split; [lia|].
  assert (Hpres : forall v, has_vertex g' v = true
                  <-> has_vertex g v = true /\ v <> i /\ ~ adjacent g i v).
  { intros v. rewrite Hp', (remove_vertex_has_vertex g i g1 v Hi Hr).
    unfold adjacent. fold N. destruct (decide (v = i)); intuition congruence. }
  split; [done|].
  intros u v. rewrite Ha', (remove_vertex_adjacent_iff g i g1 u v Hwf Hi Hr), !Hpres.
  unfold adjacent at 3 4. fold N. split.
  - intros ((Huv & Hui & Hvi) & HuN & HvN).
    destruct (adjacent_in_range g u v Hwf Huv) as (_ & _ & _ & ? & ? & _). tauto.
  - tauto.
Qed.

Lemma select_vertex_absent g mwis i :
  has_vertex g i = false -> select_vertex (Some (g, mwis)) i = Some (g, mwis).
Proof. intros H. unfold select_vertex. by rewrite H. Qed.


(** The loop of both heuristics over an order that lists every present
    vertex. *)
Lemma select_loop before order : forall g acc,
  graph_wf g ->
  (forall i, i ∈ order -> (i < length (_weights g))%nat) ->
  (forall v, (v < length (_weights g))%nat -> has_vertex g v = true -> v ∈ order) ->
  in_order before order ->
  (forall x, before x x = false) ->
  exists g' picks,
    foldl select_vertex (Some (g, acc)) order = Some (g', acc ++ picks)
    /\ graph_wf g'
    /\ length (_weights g') = length (_weights g)
    /\ selection_follows (fun _ => before) g picks
    /\ (forall v, (v < length (_weights g))%nat -> has_vertex g' v = false)
    /\ (forall u v, u ∈ picks -> v ∈ picks -> ~ adjacent g u v)
    /\ (forall x, x ∈ picks -> x ∈ order /\ has_vertex g x = true)
    /\ NoDup picks.
Proof.
  induction order as [|x order IH]; intros g acc Hwf Hrange Hcover Hord Hirr.
  - exists g, []. simpl. rewrite app_nil_r.
    split; [done|]. split; [done|]. split; [done|].
    assert (Hnone : forall v, (v < length (_weights g))%nat -> has_vertex g v = false).
    { intros v Hv. destruct (has_vertex g v) eqn:E; [|done].
      by apply (Hcover v Hv), elem_of_nil in E. }
    split; [done|]. split; [done|].
    split; [intros u v Hu; by apply elem_of_nil in Hu|].
    split; [intros y Hy; by apply elem_of_nil in Hy|apply NoDup_nil_2].
  - destruct Hord as [Hx Hord].
    assert (Hxr : (x < length (_weights g))%nat) by apply Hrange, list_elem_of_here.
    cbn [foldl]. destruct (has_vertex g x) eqn:Hp.
    + destruct (select_vertex_present g acc x Hwf Hxr Hp)
        as (g1 & Hs & Hwf1 & Hlen1 & Hp1 & Ha1).
      destruct (select_vertex_present g [] x Hwf Hxr Hp)
        as (g1' & Hs' & _).
      assert (g1' = g1) as ->.
      { revert Hs Hs'. unfold select_vertex. rewrite Hp. simpl.
        destruct (remove_vertex x g); [|done].
        destruct (foldl _ _ _); [|done]. by intros [= <-] [= <-]. }
      rewrite Hs.
      destruct (IH g1 (acc ++ [x]) Hwf1) as
        (g' & picks & Hf & Hwf' & Hlen' & Hsel & Hnone & Hind & Hsub & Hnd);
        [| |done|done|].
      { intros i Hi. rewrite Hlen1. apply Hrange. by apply list_elem_of_further. }
      { intros v Hv Hpv. rewrite Hlen1 in Hv. apply Hp1 in Hpv as (Hpv & Hne & _).
        specialize (Hcover v Hv Hpv). apply elem_of_cons in Hcover as [?|?]; done. }
      exists g', (x :: picks). rewrite Hf, <- app_assoc.
      split; [done|]. split; [done|]. split; [lia|]. split.
      { cbn [selection_follows]. split; [done|]. split; [done|]. split.
        - intros y Hy Hpy. specialize (Hcover y Hy Hpy).
          apply elem_of_cons in Hcover as [->|Hin]; [apply Hirr|by apply Hx].
        - rewrite Hs'. done. }
      split; [intros v Hv; apply Hnone; lia|].
      assert (Hpicks : forall v, v ∈ picks -> has_vertex g1 v = true).
      { intros v Hv. by apply Hsub. }
      split; [|split].
      * intros u v Hu Hv Huv.
        destruct (adjacent_in_range g u v Hwf Huv) as (_ & _ & Hne & _ & _ & Hvu).
        apply elem_of_cons in Hu as [->|Hu]; apply elem_of_cons in Hv as [->|Hv].
        -- done.
        -- apply Hpicks, Hp1 in Hv. tauto.
        -- apply Hpicks, Hp1 in Hu. tauto.
        -- apply (Hind u v Hu Hv). apply Ha1. split; [done|]. split; by apply Hpicks.
      * intros y Hy. apply elem_of_cons in Hy as [->|Hy].
        -- split; [apply list_elem_of_here|done].
        -- destruct (Hsub y Hy) as [Hin Hpy]. split; [by apply list_elem_of_further|].
           by apply Hp1 in Hpy as [? _].
      * apply NoDup_cons. split; [|done].
        intros Hin. apply Hpicks, Hp1 in Hin. tauto.
    + rewrite (select_vertex_absent g acc x Hp).
      destruct (IH g acc Hwf) as (g' & picks & Hf & Hrest); [| |done|done|].
      { intros i Hi. apply Hrange. by apply list_elem_of_further. }
      { intros v Hv Hpv. specialize (Hcover v Hv Hpv).
        apply elem_of_cons in Hcover as [->|?]; [congruence|done]. }
      exists g', picks. split; [done|].
      destruct Hrest as (? & ? & ? & ? & ? & Hsub & ?).
      do 5 (split; [done|]). split; [|done].
      intros y Hy. destruct (Hsub y Hy) as [? ?].
      split; [by apply list_elem_of_further|done].
Qed.


Lemma elem_of_stable_insert before x l y :
  y ∈ stable_insert before x l <-> y = x \/ y ∈ l.
Proof.
  induction l as [|z l IH]; simpl.
  - rewrite list_elem_of_singleton, elem_of_nil. tauto.
  - destruct (before z x); rewrite !elem_of_cons, ?IH; tauto.
Qed.

Lemma elem_of_stable_sort before l y : y ∈ stable_sort before l <-> y ∈ l.
Proof.
  induction l as [|z l IH]; simpl; [done|].
  rewrite elem_of_stable_insert, elem_of_cons, IH. tauto.
Qed.

Section StableSort.
Variable before : nat -> nat -> bool.
Hypothesis before_asym : forall x y, before x y = true -> before y x = false.
Hypothesis before_negtrans :
  forall x y z, before z y = false -> before y x = false -> before z x = false.

Lemma stable_insert_in_order x l :
  in_order before l -> in_order before (stable_insert before x l).
Proof.
  induction l as [|z l IH]; simpl; intros Hl.
  - split; [|done]. intros y Hy. by apply elem_of_nil in Hy.
  - destruct Hl as [Hz Hl]. destruct (before z x) eqn:E; simpl.
    + split; [|by apply IH]. intros y Hy.
      apply elem_of_stable_insert in Hy as [->|Hy]; [by apply before_asym|by apply Hz].
    + split; [|done]. intros y Hy. apply elem_of_cons in Hy as [->|Hy]; [done|].
      apply (before_negtrans x z y); [by apply Hz|done].
Qed.

Lemma stable_sort_in_order l : in_order before (stable_sort before l).
Proof.
  induction l as [|z l IH]; simpl; [done|]. by apply stable_insert_in_order.
Qed.

End StableSort.

Lemma gwmin_before_false g v w :
  gwmin_before g v w = false
  <-> (gwmin_value g v <= gwmin_value g w)%Q
      /\ (~ (gwmin_value g v == gwmin_value g w)%Q
          \/ (degree g v <= degree g w)%nat).
Proof.
  unfold gwmin_before. cbv zeta.
  rewrite orb_false_iff, negb_false_iff, andb_false_iff, Qle_bool_iff.
  rewrite <- not_true_iff_false, Qeq_bool_iff, bool_decide_eq_false.
  split; (intros [H1 H2]; split; [done|]; destruct H2; [by left|right; lia]).
Qed.

Lemma gwmin_before_true g v w :
  gwmin_before g v w = true
  <-> (gwmin_value g w < gwmin_value g v)%Q
      \/ ((gwmin_value g v == gwmin_value g w)%Q
          /\ (degree g w < degree g v)%nat).
Proof.
  unfold gwmin_before. cbv zeta.
  rewrite orb_true_iff, negb_true_iff, andb_true_iff, bool_decide_eq_true.
  rewrite <- not_true_iff_false, Qle_bool_iff, Qeq_bool_iff.
  split; (intros [H|H]; [left|by right]).
  - by apply Qnot_le_lt.
  - by apply Qlt_not_le.
Qed.

Lemma gwmin_before_irrefl g x : gwmin_before g x x = false.
Proof. apply gwmin_before_false. split; [apply Qle_refl|right; lia]. Qed.

Lemma gwmin_before_asym g x y :
  gwmin_before g x y = true -> gwmin_before g y x = false.
Proof.
  rewrite gwmin_before_true, gwmin_before_false. intros [H|[H1 H2]].
  - split; [by apply Qlt_le_weak|]. left. intros E. rewrite E in H.
    by apply Qlt_irrefl in H.
  - split; [rewrite H1; apply Qle_refl|right; lia].
Qed.

Lemma gwmin_before_negtrans g x y z :
  gwmin_before g z y = false -> gwmin_before g y x = false ->
  gwmin_before g z x = false.
Proof.
  rewrite !gwmin_before_false. intros [H1 H2] [H3 H4].
  split; [by apply (Qle_trans _ (gwmin_value g y))|].
  destruct (Qeq_dec (gwmin_value g z) (gwmin_value g x)) as [E|]; [|by left].
  right.
  assert (E1 : (gwmin_value g z == gwmin_value g y)%Q).
  { apply Qle_antisym; [done|]. by rewrite E. }
  assert (E2 : (gwmin_value g y == gwmin_value g x)%Q) by (by rewrite <- E1).
  destruct H2, H4; try done. lia.
Qed.


Lemma all_present_run ops : forall g g',
  graph_wf g ->
  (forall v, (v < length (_weights g))%nat -> has_vertex g v = true) ->
  run_graph proper ops g = Some g' -> Forall builds ops ->
  forall v, (v < length (_weights g'))%nat -> has_vertex g' v = true.
Proof.
  induction ops as [|op ops IH]; intros g g' Hwf Hall; simpl.
  - by intros [= <-] _.
  - destruct (proper g op) eqn:Hp; [|done].
    destruct (apply_graph_operation op g) as [g1|] eqn:Ha; [|done]. simpl.
    intros Hrun Hb. apply Forall_cons in Hb as [Hop Hb].
    apply (IH g1 g'); [by apply (graph_wf_apply op g g1)| |done|done].
    destruct op as [w|v1 v2|x]; simpl in Ha, Hop; [| |done]; injection Ha as <-.
    + intros v Hv. unfold has_vertex. simpl in *. rewrite length_app in Hv. simpl in Hv.
      destruct (decide (v < length (_weights g))%nat) as [Hlt|Hge].
      * rewrite lookup_total_app_l by done. by apply Hall.
      * rewrite lookup_total_app_r by lia.
        replace (v - length (_weights g))%nat with 0%nat by lia. simpl.
        unfold proper, allowed in Hp. apply andb_prop in Hp as [H1 H2].
        apply bool_decide_eq_true in H1. apply bool_decide_eq_true in H2.
        rewrite to_int32_small by lia. apply bool_decide_eq_true. lia.
    + intros v. unfold has_vertex. rewrite add_edge_weights. apply Hall.
Qed.

Lemma present_count_all g :
  (forall v, (v < length (_weights g))%nat -> has_vertex g v = true) ->
  present_count g = length (_weights g).
Proof.
  unfold present_count, has_vertex. intros H.
  assert (Hall : forall w, w ∈ _weights g -> 0 <= w).
  { intros w Hw. apply list_elem_of_lookup in Hw as [i Hi].
    pose proof (lookup_lt_Some _ _ _ Hi) as Hlt.
    specialize (H i Hlt). apply bool_decide_eq_true in H.
    by rewrite (list_lookup_total_correct _ _ _ Hi) in H. }
  clear H. induction (_weights g) as [|w ws IH]; [done|].
  rewrite filter_cons, decide_True by (apply Hall; apply list_elem_of_here).
  simpl. rewrite IH; [done|]. intros z Hz. apply Hall. by apply list_elem_of_further.
Qed.

Lemma present_count_none g :
  (forall v, (v < length (_weights g))%nat -> has_vertex g v = false) ->
  present_count g = 0%nat.
Proof.
  unfold present_count, has_vertex. intros H.
  assert (Hall : forall w, w ∈ _weights g -> ~ 0 <= w).
  { intros w Hw. apply list_elem_of_lookup in Hw as [i Hi].
    pose proof (lookup_lt_Some _ _ _ Hi) as Hlt.
    specialize (H i Hlt). apply bool_decide_eq_false in H.
    by rewrite (list_lookup_total_correct _ _ _ Hi) in H. }
  clear H. induction (_weights g) as [|w ws IH]; [done|].
  rewrite filter_cons, decide_False by (apply Hall; apply list_elem_of_here).
  apply IH. intros z Hz. apply Hall. by apply list_elem_of_further.
Qed.

Lemma built_graph ops g :
  run_graph proper ops empty_graph = Some g -> Forall builds ops ->
  Z.of_nat (length (_weights g)) < 2 ^ 32 ->
  graph_wf g
  /\ (forall v, (v < length (_weights g))%nat -> has_vertex g v = true)
  /\ Z.to_nat (num_vertices g) = length (_weights g).
Proof.
  intros Hrun Hb Hsize.
  pose proof (graph_wf_run ops empty_graph g graph_wf_empty Hrun) as Hwf.
  assert (Hall : forall v, (v < length (_weights g))%nat -> has_vertex g v = true).
  { apply (all_present_run ops empty_graph g graph_wf_empty); try done;
      simpl; intros; lia. }
  split; [done|]. split; [done|].
  destruct Hwf as (_ & _ & _ & _ & Hnv & _).
  rewrite Hnv, (present_count_all g Hall), wrap32_small by (unfold uint32; lia).
  apply Nat2Z.id.
Qed.



Example gwmin_sample :
  snd <$> maximum_weighted_independent_set_gwmin sample_conflict_graph
  = Some [0; 3; 2]%nat.
Proof. vm_compute. reflexivity. Qed.



Example cuts_graph_sample :
  network_cuts_graph 4 false
    [mk_node_record true []; mk_node_record true [];
     mk_node_record false [mk_cut 3 1 [2%nat]; mk_cut 2 5 [2%nat]];
     mk_node_record false [mk_cut 3 2 [2%nat; 3%nat]; mk_cut 4 1 [3%nat]]]
  = (mk_graph 3 2 [[1]; [0; 2]; [1]]%nat [1; 2; 1],
     [(2, 0); (3, 0); (3, 1)]%nat).
Proof. vm_compute. reflexivity. Qed.


Lemma record_conflicts_elem (a b : cut_addr) gs : forall (cf : list (list cut_addr)) n2,
  b ∈ foldl (fun cf n2 => alter (fun l => l ++ [a]) n2 cf) cf gs !!! n2
  <-> b ∈ cf !!! n2 \/ (b = a /\ n2 ∈ gs /\ (n2 < length cf)%nat).
Proof.
  induction gs as [|x gs IH]; intros cf n2; cbn [foldl].
  - rewrite elem_of_nil. tauto.
  - rewrite IH, length_alter, elem_of_cons.
    destruct (decide (x = n2)) as [->|Hne].
    + destruct (decide (n2 < length cf)%nat) as [Hlt|Hge].
      * rewrite list_lookup_total_alter_eq by done.
        rewrite elem_of_app, list_elem_of_singleton. tauto.
      * rewrite !list_lookup_total_alt, list_lookup_alter_eq.
        rewrite lookup_ge_None_2 by lia. simpl. rewrite elem_of_nil. tauto.
    + rewrite list_lookup_total_alter_ne by done. intuition congruence.
Qed.

Lemma record_conflicts_length (a : cut_addr) gs : forall (cf : list (list cut_addr)),
  length (foldl (fun cf n2 => alter (fun l => l ++ [a]) n2 cf) cf gs) = length cf.
Proof.
  induction gs as [|x gs IH]; intros cf; cbn [foldl]; [done|].
  by rewrite IH, length_alter.
Qed.

Lemma retained_gain allow cut : retained allow cut = true -> 0 <= gain cut.
Proof.
  unfold retained. intros H. apply andb_prop in H as [_ H].
  apply negb_true_iff, bool_decide_eq_false in H. destruct allow; lia.
Qed.

(** One cut of node [n] that passes the tests. *)
Lemma add_cut_inv nodes_size allow n st vs cut :
  (n < nodes_size)%nat -> gain cut < 2 ^ 31 -> retained allow cut = true ->
  cuts_graph_inv nodes_size st vs (S n) ->
  let cctr := length (st_cut_addr_to_vertex st !!! n) in
  let r := add_cut allow n (st, cctr) cut in
  r.2 = length (st_cut_addr_to_vertex r.1 !!! n)
  /\ r.2 = S cctr
  /\ cuts_graph_inv nodes_size r.1 (vs ++ [((n, cctr), cut)]) (S n).
Proof.
  intros Hn Hg Hret (Hwf & Hall & Hlen & Hmap & Hlc & Hlt & Hd & He & Hf & Hgt & Hk).
  cbv zeta. unfold add_cut. rewrite Hret. cbn [negb].
  set (cctr := length (st_cut_addr_to_vertex st !!! n)).
  set (a := (n, cctr)).
  destruct (add_vertex (gain cut) (st_g st)) as [g v] eqn:Ev.
  assert (Hv : v = length vs) by (injection Ev as _ <-; done).
  assert (Hg' : g = (add_vertex (gain cut) (st_g st)).1) by (by rewrite Ev).
  pose proof (retained_gain _ _ Hret) as Hg0.
  unfold cuts_graph_inv.
  cbn [fst snd st_g st_conflicts st_vertex_to_cut_addr st_cut_addr_to_vertex].
  assert (Hnl : (n < length (st_cut_addr_to_vertex st))%nat) by lia.
  split; [by rewrite list_lookup_total_alter_eq, length_app, Nat.add_1_r|].
  split; [done|].
  split; [subst g; apply add_vertex_wf; [done|lia]|].
  split.
  { subst g. intros u Hu. simpl in Hu. rewrite length_app in Hu. simpl in Hu.
    unfold has_vertex. simpl.
    destruct (decide (u < length (_weights (st_g st)))%nat) as [Hl|Hl].
    - rewrite lookup_total_app_l by done. by apply Hall.
    - rewrite lookup_total_app_r by lia.
      replace (u - length (_weights (st_g st)))%nat with 0%nat by lia. simpl.
      rewrite to_int32_small by lia. by apply bool_decide_eq_true. }
  split; [subst g; simpl; rewrite !length_app; simpl; lia|].
  split; [by rewrite Hmap, map_app|].
  split; [by rewrite record_conflicts_length|].
  split; [by rewrite length_alter|].
  split.
  { intros u b c Hu. apply lookup_app_Some in Hu as [Hu|[Hge Hu]].
    - specialize (Hd u b c Hu).
      destruct (decide (b.1 = n)) as [E|Hne].
      + rewrite <- E, list_lookup_total_alter_eq by (rewrite E; done).
        by apply lookup_app_l_Some.
      + by rewrite list_lookup_total_alter_ne.
    - apply list_lookup_singleton_Some in Hu as [Eu [= <- <-]]. cbn [fst snd].
      rewrite list_lookup_total_alter_eq by done.
      rewrite lookup_app_r by done. fold cctr. rewrite Nat.sub_diag. simpl.
      f_equal. lia. }
  split.
  { intros m l c u Hl Hu. rewrite list_lookup_alter in Hl.
    destruct (decide (n = m)) as [<-|Hne].
    - destruct (st_cut_addr_to_vertex st !! n) as [l0|] eqn:El; [|done].
      injection Hl as <-.
      assert (El' : st_cut_addr_to_vertex st !!! n = l0)
        by (by apply list_lookup_total_correct).
      apply lookup_app_Some in Hu as [Hu|[Hge Hu]].
      + destruct (He n l0 c u El Hu) as [c0 Hc0]. exists c0.
        by apply lookup_app_l_Some.
      + apply list_lookup_singleton_Some in Hu as [Ec <-]. exists cut. rewrite lookup_app_r by lia.
        rewrite Hv, Nat.sub_diag. simpl. unfold a, cctr. rewrite El'.
        repeat f_equal. lia.
    - destruct (He m l c u Hl Hu) as [c0 Hc0]. exists c0.
      by apply lookup_app_l_Some. }
  split.
  { intros n2 b Hb. apply record_conflicts_elem in Hb as [Hb|(-> & _)].
    - destruct (Hf n2 b Hb) as (u & c0 & Hu). exists u, c0.
      by apply lookup_app_l_Some.
    - exists (length vs), cut. rewrite lookup_app_r by lia.
      by rewrite Nat.sub_diag. }
  split.
  { intros u b c n2 Hu Hin Hn2. apply record_conflicts_elem.
    apply lookup_app_Some in Hu as [Hu|[Hge Hu]].
    - left. by apply (Hgt u b c).
    - apply list_lookup_singleton_Some in Hu as [Eu [= <- <-]]. right. split; [done|]. split; [done|lia]. }
  intros m Hm. destruct (decide (m = n)) as [->|Hne]; [lia|].
  rewrite list_lookup_total_alter_ne by done. by apply Hk.
Qed.


Lemma add_cuts_inv nodes_size allow n cs : forall st vs,
  (n < nodes_size)%nat -> (forall cut, cut ∈ cs -> gain cut < 2 ^ 31) ->
  cuts_graph_inv nodes_size st vs (S n) ->
  let cctr := length (st_cut_addr_to_vertex st !!! n) in
  cuts_graph_inv nodes_size (foldl (add_cut allow n) (st, cctr) cs).1
    (vs ++ node_candidates allow n cctr cs) (S n).
Proof.
  induction cs as [|cut cs IH]; intros st vs Hn Hg Hinv; cbn [foldl node_candidates].
  - by rewrite app_nil_r.
  - destruct (retained allow cut) eqn:Hret.
    + destruct (add_cut_inv nodes_size allow n st vs cut Hn) as (E1 & E2 & Hinv');
        [apply Hg, list_elem_of_here|done|done|].
      cbv zeta in *.
      destruct (add_cut allow n (st, length (st_cut_addr_to_vertex st !!! n)) cut)
        as [st1 c1] eqn:Ea.
      cbn [fst snd] in *.
      specialize (IH st1 _ Hn (fun c Hc => Hg c (list_elem_of_further _ _ _ Hc)) Hinv').
      cbv zeta in IH. rewrite <- E1, <- app_assoc in IH. rewrite <- E2. exact IH.
    + assert (Ea : add_cut allow n (st, length (st_cut_addr_to_vertex st !!! n)) cut
                   = (st, length (st_cut_addr_to_vertex st !!! n))).
      { unfold add_cut. by rewrite Hret. }
      rewrite Ea. apply IH; [done| |done].
      intros c Hc. apply Hg. by apply list_elem_of_further.
Qed.

Lemma cuts_graph_inv_next nodes_size st vs n :
  cuts_graph_inv nodes_size st vs n -> cuts_graph_inv nodes_size st vs (S n).
Proof.
  intros (? & ? & ? & ? & ? & ? & ? & ? & ? & ? & Hk).
  do 10 (split; [done|]). intros m Hm. apply Hk. lia.
Qed.

Lemma add_node_cuts_inv nodes_size allow st vs n r :
  (forall cut, cut ∈ cuts r -> gain cut < 2 ^ 31) ->
  cuts_graph_inv nodes_size st vs n ->
  cuts_graph_inv nodes_size (add_node_cuts nodes_size allow st (n, r))
    (vs ++ candidates nodes_size allow [(n, r)]) (S n).
Proof.
  intros Hg Hinv. unfold add_node_cuts, candidates. cbn [flat_map].
  rewrite app_nil_r.
  destruct (bool_decide (nodes_size <= n)%nat || skipped r) eqn:Hs.
  - rewrite app_nil_r. by apply cuts_graph_inv_next.
  - apply orb_false_iff in Hs as [Hn _]. apply bool_decide_eq_false in Hn.
    assert (E : st_cut_addr_to_vertex st !!! n = []).
    { destruct Hinv as (_ & _ & _ & _ & _ & _ & _ & _ & _ & _ & Hk). by apply Hk. }
    pose proof (add_cuts_inv nodes_size allow n (cuts r) st vs ltac:(lia) Hg
                  (cuts_graph_inv_next _ _ _ _ Hinv)) as H.
    cbv zeta in H. rewrite E in H. exact H.
Qed.

Lemma candidates_app nodes_size allow l1 l2 :
  candidates nodes_size allow (l1 ++ l2)
  = candidates nodes_size allow l1 ++ candidates nodes_size allow l2.
Proof. unfold candidates. by rewrite flat_map_app. Qed.

Lemma candidates_cons nodes_size allow e l :
  candidates nodes_size allow (e :: l)
  = candidates nodes_size allow [e] ++ candidates nodes_size allow l.
Proof. apply (candidates_app nodes_size allow [e] l). Qed.

Lemma add_nodes_inv nodes_size allow l : forall k st vs,
  (forall r cut, r ∈ l -> cut ∈ cuts r -> gain cut < 2 ^ 31) ->
  cuts_graph_inv nodes_size st vs k ->
  cuts_graph_inv nodes_size
    (foldl (add_node_cuts nodes_size allow) st (imap (fun i r => ((k + i)%nat, r)) l))
    (vs ++ candidates nodes_size allow (imap (fun i r => ((k + i)%nat, r)) l))
    (k + length l).
Proof.
  induction l as [|r l IH]; intros k st vs Hg Hinv.
  - simpl. by rewrite app_nil_r, Nat.add_0_r.
  - rewrite imap_cons. cbn [foldl length].
    change ((k + 0)%nat, r) with ((fun i r => ((k + i)%nat, r)) 0%nat r).
    cbv beta. rewrite Nat.add_0_r.
    rewrite candidates_cons, app_assoc.
    assert (Hext : imap ((fun i r0 => ((k + i)%nat, r0)) ∘ S) l
                   = imap (fun i r0 => ((S k + i)%nat, r0)) l).
    { apply imap_ext. intros i x _. simpl. f_equal. lia. }
    rewrite Hext. replace (k + S (length l))%nat with (S k + length l)%nat by lia.
    apply IH.
    + intros r0 cut Hr. apply Hg. by apply list_elem_of_further.
    + apply add_node_cuts_inv; [|done]. intros cut. apply Hg, list_elem_of_here.
Qed.

Lemma cuts_graph_inv_init nodes_size :
  cuts_graph_inv nodes_size
    (mk_state empty_graph (replicate nodes_size []) [] (replicate nodes_size []))
    [] 0.
Proof.
  split; [apply graph_wf_empty|]. split; [simpl; intros; lia|].
  split; [done|]. split; [done|].
  split; [apply length_replicate|]. split; [apply length_replicate|].
  split; [done|]. split.
  { simpl. intros n l c v Hl Hc. apply lookup_replicate in Hl as [-> _]. done. }
  split.
  { simpl. intros n2 a Ha. rewrite list_lookup_total_alt in Ha.
    destruct (replicate nodes_size [] !! n2) as [l|] eqn:E; simpl in Ha.
    - apply lookup_replicate in E as [-> _]. by apply elem_of_nil in Ha.
    - by apply elem_of_nil in Ha. }
  split; [done|].
  simpl. intros n _. rewrite list_lookup_total_alt.
  destruct (replicate nodes_size [] !! n) as [l|] eqn:E; simpl; [|done].
  by apply lookup_replicate in E as [-> _].
Qed.


Lemma add_edge_full n g v1 v2 :
  full_graph n g -> (v1 < n)%nat -> (v2 < n)%nat ->
  full_graph n (add_edge v1 v2 g)
  /\ (forall u v, adjacent g u v -> adjacent (add_edge v1 v2 g) u v)
  /\ (v1 <> v2 -> adjacent (add_edge v1 v2 g) v1 v2).
Proof.
  intros (Hwf & Hall & Hlen) H1 H2.
  pose proof (add_edge_adjacent_iff g v1 v2) as Hiff.
  split; [|split].
  - split; [apply add_edge_wf; try done; try lia; apply Hall; lia|].
    rewrite add_edge_weights. split; [|done].
    intros v Hv. unfold has_vertex. rewrite add_edge_weights. by apply Hall.
  - intros u v Huv. apply Hiff; [done|lia|lia|by left].
  - intros Hne. apply Hiff; [done|lia|lia|]. right. tauto.
Qed.

Lemma foldl_monotone {A} (R : graph -> Prop) (f : graph -> A -> graph)
    (Q : A -> graph -> Prop) (l : list A) :
  (forall g x, x ∈ l -> R g ->
     R (f g x) /\ (forall u v, adjacent g u v -> adjacent (f g x) u v) /\ Q x (f g x)) ->
  (forall x g g', Q x g -> (forall u v, adjacent g u v -> adjacent g' u v) -> Q x g') ->
  forall g, R g ->
    R (foldl f g l)
    /\ (forall u v, adjacent g u v -> adjacent (foldl f g l) u v)
    /\ (forall x, x ∈ l -> Q x (foldl f g l)).
Proof.
  intros Hstep Hmono. induction l as [|x l IH]; intros g Hg; cbn [foldl].
  - split; [done|]. split; [done|]. intros x Hx. by apply elem_of_nil in Hx.
  - destruct (Hstep g x (list_elem_of_here _ _) Hg) as (H1 & H2 & H3).
    destruct (IH (fun g y Hy => Hstep g y (list_elem_of_further _ _ _ Hy)) (f g x) H1)
      as (I1 & I2 & I3).
    split; [done|]. split; [intros u v Huv; by apply I2, H2|].
    intros y Hy. apply elem_of_cons in Hy as [->|Hy]; [|by apply I3].
    by apply (Hmono x (f g x)).
Qed.

(** The loops over the pairs of one conflict list. *)
Lemma add_conflicts_full n st cl g :
  (forall a, a ∈ cl -> (vertex_of st a < n)%nat) ->
  full_graph n g ->
  full_graph n (add_conflicts st g cl)
  /\ (forall u v, adjacent g u v -> adjacent (add_conflicts st g cl) u v)
  /\ (forall i j, (i < j)%nat -> (j < length cl)%nat ->
        vertex_of st (cl !!! i) <> vertex_of st (cl !!! j) ->
        adjacent (add_conflicts st g cl)
          (vertex_of st (cl !!! i)) (vertex_of st (cl !!! j))).
Proof.
  intros Hvalid Hg. unfold add_conflicts.
  assert (Hin : forall i, (i < length cl)%nat -> cl !!! i ∈ cl).
  { intros i Hi. apply list_elem_of_lookup. exists i.
    by apply list_lookup_lookup_total_lt. }
  destruct (foldl_monotone (full_graph n)
              (fun g j => foldl (add_conflict st cl j) g (seq 0 j))
              (fun j g => forall i, (i < j)%nat ->
                 vertex_of st (cl !!! i) <> vertex_of st (cl !!! j) ->
                 adjacent g (vertex_of st (cl !!! i)) (vertex_of st (cl !!! j)))
              (seq 1 (length cl - 1))) with (g := g) as (H1 & H2 & H3); [| |done|].
  - intros g0 j Hj Hg0. apply elem_of_seq in Hj.
    destruct (foldl_monotone (full_graph n) (add_conflict st cl j)
                (fun i g => vertex_of st (cl !!! i) <> vertex_of st (cl !!! j) ->
                   adjacent g (vertex_of st (cl !!! i)) (vertex_of st (cl !!! j)))
                (seq 0 j)) with (g := g0) as (I1 & I2 & I3); [| |done|].
    + intros g1 i Hi Hg1. apply elem_of_seq in Hi.
      unfold add_conflict, vertex_of.
      destruct (cl !!! i) as [n1 c1] eqn:E1. destruct (cl !!! j) as [n2 c2] eqn:E2.
      cbn [fst snd].
      assert (Hv1 : (vertex_of st (n1, c1) < n)%nat)
        by (rewrite <- E1; apply Hvalid, Hin; lia).
      assert (Hv2 : (vertex_of st (n2, c2) < n)%nat)
        by (rewrite <- E2; apply Hvalid, Hin; lia).
      unfold vertex_of in Hv1, Hv2. cbn [fst snd] in Hv1, Hv2.
      destruct (decide (_ <> _)) as [Hne|He]; [|by split].
      destruct (add_edge_full n g1 _ _ Hg1 Hv1 Hv2) as (? & ? & ?).
      split; [done|]. split; [done|]. auto.
    + intros i g1 g2 Hq Hm Hne. apply Hm. by apply Hq.
    + split; [done|]. split; [done|]. intros i Hi. apply I3, elem_of_seq. lia.
  - intros j g1 g2 Hq Hm i Hi Hne. apply Hm. by apply Hq.
  - split; [done|]. split; [done|]. intros i j Hij Hj.
    apply H3; [|done]. apply elem_of_seq. lia.
Qed.


(** The conflict graph: every two candidates that touch a common gate are
    adjacent. *)
Lemma network_cuts_graph_conflicts nodes_size allow ntk :
  (forall r cut, r ∈ ntk -> cut ∈ cuts r -> gain cut < 2 ^ 31) ->
  let vs := candidates nodes_size allow (imap (fun n r => (n, r)) ntk) in
  let r := network_cuts_graph nodes_size allow ntk in
  full_graph (length vs) r.1
  /\ r.2 = map fst vs
  /\ (forall u v cu cv x, vs !! u = Some cu -> vs !! v = Some cv -> u <> v ->
        x ∈ gates cu.2 -> x ∈ gates cv.2 -> (x < nodes_size)%nat ->
        adjacent r.1 u v).
Proof.
  intros Hg vs r.
  pose proof (add_nodes_inv nodes_size allow ntk 0 _ [] Hg
                (cuts_graph_inv_init nodes_size)) as Hinv.
  cbn [app Nat.add] in Hinv. fold vs in Hinv.
  set (st := foldl (add_node_cuts nodes_size allow)
               (mk_state empty_graph (replicate nodes_size []) []
                  (replicate nodes_size []))
               (imap (fun n r => (n, r)) ntk)) in *.
  destruct Hinv as (Hwf & Hall & Hlen & Hmap & Hlc & Hlt & Hd & He & Hf & Hgt & _).
  assert (Hvert : forall v a cut, vs !! v = Some (a, cut) -> vertex_of st a = v).
  { intros v a cut Hv. unfold vertex_of. apply list_lookup_total_correct.
    by apply (Hd v a cut). }
  assert (Hvalid : forall cl a, cl ∈ st_conflicts st -> a ∈ cl ->
            (vertex_of st a < length vs)%nat).
  { intros cl a Hcl Ha. apply list_elem_of_lookup in Hcl as [n2 Hn2].
    rewrite <- (list_lookup_total_correct _ _ _ Hn2) in Ha.
    destruct (Hf n2 a Ha) as (v & cut & Hv).
    rewrite (Hvert v a cut Hv). by apply lookup_lt_Some in Hv. }
  destruct (foldl_monotone (full_graph (length vs)) (add_conflicts st)
              (fun cl g => forall i j, (i < j)%nat -> (j < length cl)%nat ->
                 vertex_of st (cl !!! i) <> vertex_of st (cl !!! j) ->
                 adjacent g (vertex_of st (cl !!! i)) (vertex_of st (cl !!! j)))
              (st_conflicts st)) with (g := st_g st) as (H1 & H2 & H3).
  - intros g cl Hcl Hfull.
    by apply add_conflicts_full; [intros a Ha; apply (Hvalid cl)|].
  - intros cl g g' Hq Hm i j Hij Hj Hne. apply Hm. by apply Hq.
  - done.
  - change r.1 with (foldl (add_conflicts st) (st_g st) (st_conflicts st)).
    change r.2 with (st_vertex_to_cut_addr st).
    split; [done|]. split; [done|].
    intros u v [au cu] [av cv] x Hu Hv Hne Hxu Hxv Hx. cbn [snd] in *.
    pose proof (Hgt u au cu x Hu Hxu Hx) as Hau.
    pose proof (Hgt v av cv x Hv Hxv Hx) as Hav.
    assert (Hcl : st_conflicts st !!! x ∈ st_conflicts st).
    { apply list_elem_of_lookup. exists x.
      apply list_lookup_lookup_total_lt. lia. }
    set (cl := st_conflicts st !!! x) in *.
    apply list_elem_of_lookup in Hau as [p Hp]. apply list_elem_of_lookup in Hav as [q Hq].
    pose proof (lookup_lt_Some _ _ _ Hp) as Hpl.
    pose proof (lookup_lt_Some _ _ _ Hq) as Hql.
    pose proof (Hvert u au cu Hu) as Eu. pose proof (Hvert v av cv Hv) as Ev.
    specialize (H3 cl Hcl).
    destruct (decide (p < q)%nat) as [Hpq|Hpq].
    + specialize (H3 p q Hpq Hql).
      rewrite (list_lookup_total_correct _ _ _ Hp),
        (list_lookup_total_correct _ _ _ Hq), Eu, Ev in H3. by apply H3.
    + assert (Hqp : (q < p)%nat).
      { destruct (decide (p = q)) as [->|]; [|lia].
        rewrite Hp in Hq. injection Hq as <-. congruence. }
      specialize (H3 q p Hqp Hpl).
      rewrite (list_lookup_total_correct _ _ _ Hp),
        (list_lookup_total_correct _ _ _ Hq), Eu, Ev in H3.
      destruct H1 as (Hwf1 & _).
      apply (adjacent_in_range _ v u Hwf1). apply H3. congruence.
Qed.

Lemma full_graph_num_vertices n g :
  full_graph n g -> Z.of_nat n < 2 ^ 32 -> Z.to_nat (num_vertices g) = n.
Proof.
  intros (Hwf & Hall & Hlen) Hn.
  destruct Hwf as (_ & _ & _ & _ & Hnv & _).
  rewrite Hnv, (present_count_all g Hall), Hlen, wrap32_small by (unfold uint32; lia).
  apply Nat2Z.id.
Qed.

(** Both heuristics return an independent set of a graph with no removed
    vertex. *)
Lemma select_candidates_independent n g s :
  full_graph n g -> Z.of_nat n < 2 ^ 32 ->
  exists g' mwis,
    select_candidates s g = Some (g', mwis)
    /\ (forall u v, u ∈ mwis -> v ∈ mwis -> ~ adjacent g u v)
    /\ (forall u, u ∈ mwis -> (u < n)%nat)
    /\ NoDup mwis.
Proof.
  intros Hfull Hn. pose proof (full_graph_num_vertices n g Hfull Hn) as Hnv.
  destruct Hfull as (Hwf & Hall & Hlen).
  assert (Hloop : forall before order,
            (forall i, i ∈ order <-> (i < n)%nat) ->
            in_order before order -> (forall x, before x x = false) ->
            exists g' mwis,
              foldl select_vertex (Some (g, [])) order = Some (g', mwis)
              /\ (forall u v, u ∈ mwis -> v ∈ mwis -> ~ adjacent g u v)
              /\ (forall u, u ∈ mwis -> (u < n)%nat)
              /\ NoDup mwis).
  { intros before order Hord Hin Hirr.
    destruct (select_loop before order g [] Hwf) as
      (g' & picks & Hf & _ & _ & _ & _ & Hind & Hsub & Hnd); try done.
    - intros i Hi. rewrite Hlen. by apply Hord.
    - intros v Hv _. apply Hord. lia.
    - exists g', picks. split; [done|]. split; [done|]. split; [|done].
      intros u Hu. apply Hord. by apply Hsub. }
  destruct s; simpl.
  - unfold maximum_weighted_independent_set_gwmin. cbv zeta. rewrite Hnv.
    apply (Hloop (gwmin_before g)).
    + intros i. rewrite elem_of_stable_sort, elem_of_seq. lia.
    + apply stable_sort_in_order;
        [apply gwmin_before_asym|apply gwmin_before_negtrans].
    + apply gwmin_before_irrefl.
  - unfold maximal_weighted_independent_set. rewrite Hnv.
    apply (Hloop (fun _ _ => false)).
    + intros i. rewrite elem_of_seq. lia.
    + clear. generalize 0%nat. induction n as [|n IH]; intros k; simpl; [done|].
      split; [done|apply IH].
    + done.
Qed.

(** C6.  On the conflict graph of a run, under either strategy, the selected
    vertices are an independent set, and two distinct selected candidates
    touch disjoint sets of gates. *)
Theorem selected_candidates_disjoint (nodes_size : nat) (allow_zero_gain : bool)
    (ntk : list node_record) (s : strategy) :
  (forall r cut, r ∈ ntk -> cut ∈ cuts r ->
     gain cut < 2 ^ 31 /\ forall x, x ∈ gates cut -> (x < nodes_size)%nat) ->
  let vs := candidates nodes_size allow_zero_gain (imap (fun n r => (n, r)) ntk) in
  Z.of_nat (length vs) < 2 ^ 32 ->
  let r := network_cuts_graph nodes_size allow_zero_gain ntk in
  r.2 = map fst vs
  /\ exists g' selected,
       select_candidates s r.1 = Some (g', selected)
       /\ (forall u v, u ∈ selected -> v ∈ selected -> ~ adjacent r.1 u v)
       /\ (forall u v cu cv, u ∈ selected -> v ∈ selected -> u <> v ->
             vs !! u = Some cu -> vs !! v = Some cv ->
             forall x, x ∈ gates cu.2 -> x ∉ gates cv.2)
       /\ (forall u, u ∈ selected -> is_Some (vs !! u)).
Proof.
  intros Hin vs Hsize r.
  destruct (network_cuts_graph_conflicts nodes_size allow_zero_gain ntk)
    as (Hfull & Hmap & Hconf).
  { intros rec cut Hr Hc. by apply (Hin rec cut). }
  fold vs in Hfull, Hmap, Hconf. fold r in Hfull, Hmap, Hconf.
  split; [done|].
  destruct (select_candidates_independent (length vs) r.1 s Hfull Hsize)
    as (g' & sel & Hs & Hind & Hlt & _).
  exists g', sel. split; [done|]. split; [done|]. split.
  - intros u v cu cv Hu Hv Hne Hcu Hcv x Hxu Hxv.
    apply (Hind u v Hu Hv). apply (Hconf u v cu cv x); try done.
    destruct cu as [[nu cc] cut].
    assert (Hcut : exists rec, rec ∈ ntk /\ cut ∈ cuts rec).
    { clear -Hcu. apply list_elem_of_lookup_2 in Hcu. unfold vs, candidates in Hcu.
      apply list_elem_of_In, in_flat_map in Hcu as ([n rec] & Hrec & Hc).
      apply list_elem_of_In in Hrec, Hc.
      apply list_elem_of_lookup in Hrec as [i Hi].
      rewrite list_lookup_imap in Hi.
      destruct (ntk !! i) as [rec'|] eqn:E; [|done]. injection Hi as <- <-.
      exists rec'. split; [by apply list_elem_of_lookup_2 in E|].
      destruct (bool_decide (nodes_size <= i)%nat || skipped rec');
        [by apply elem_of_nil in Hc|].
      clear -Hc. revert Hc. generalize 0%nat.
      induction (cuts rec') as [|c cs IH]; intros k Hc; simpl in Hc;
        [by apply elem_of_nil in Hc|].
      destruct (retained allow_zero_gain c).
      - apply elem_of_cons in Hc as [[= _ _ ->]|Hc]; [apply list_elem_of_here|].
        apply list_elem_of_further. by apply (IH (S k)).
      - apply list_elem_of_further. by apply (IH k). }
    destruct Hcut as (rec & Hrec & Hc). by apply (Hin rec cut Hrec Hc).
  - intros u Hu. apply lookup_lt_is_Some. by apply Hlt.
Qed.


Lemma selected_candidates_disjoint_witness :
  (network_cuts_graph 4 false sample_cuts).2
  = map fst (candidates 4 false (imap (fun n r => (n, r)) sample_cuts))
  /\ exists g' selected,
       select_candidates greedy (network_cuts_graph 4 false sample_cuts).1
       = Some (g', selected)
       /\ (forall u v, u ∈ selected -> v ∈ selected ->
             ~ adjacent (network_cuts_graph 4 false sample_cuts).1 u v)
       /\ (forall u v cu cv, u ∈ selected -> v ∈ selected -> u <> v ->
             candidates 4 false (imap (fun n r => (n, r)) sample_cuts) !! u = Some cu ->
             candidates 4 false (imap (fun n r => (n, r)) sample_cuts) !! v = Some cv ->
             forall x, x ∈ gates cu.2 -> x ∉ gates cv.2)
       /\ (forall u, u ∈ selected ->
             is_Some (candidates 4 false (imap (fun n r => (n, r)) sample_cuts) !! u)).
Proof.
  apply (selected_candidates_disjoint 4 false sample_cuts greedy).
  - assert (F : Forall (fun r => Forall (fun cut =>
                  gain cut < 2 ^ 31 /\ Forall (fun x => (x < 4)%nat) (gates cut))
                  (cuts r)) sample_cuts).
    { unfold sample_cuts. repeat constructor; simpl; lia. }
    intros r cut Hr Hc. rewrite Forall_forall in F. specialize (F r Hr).
    rewrite Forall_forall in F. destruct (F cut Hc) as [Hg Hx].
    split; [done|]. by rewrite Forall_forall in Hx.
  - vm_compute. reflexivity.
Defined.

Example select_sample :
  snd <$> select_candidates minimize_weight (network_cuts_graph 4 false sample_cuts).1
  = Some [1]%nat
  /\ snd <$> select_candidates greedy (network_cuts_graph 4 false sample_cuts).1
     = Some [0; 2]%nat.
Proof. split; vm_compute; reflexivity. Qed.

End GraphFacts.

(** ** The reconvergence-driven cut *)

Section ReconvCutFacts.
Import Klut ReconvCut.


Lemma same_structure_children ntk ntk' n :
  same_structure ntk ntk' ->
  children (node_at ntk' n) = children (node_at ntk n).
Proof.
  intros H. unfold node_at. rewrite !list_lookup_total_alt.
  assert (E : children <$> nodes ntk' !! n = children <$> nodes ntk !! n).
  { rewrite <- !list_lookup_fmap. unfold same_structure in H. by rewrite H. }
  destruct (nodes ntk' !! n), (nodes ntk !! n); simpl in *; congruence.
Qed.

Lemma same_structure_is_pi ntk ntk' n :
  same_structure ntk ntk' -> is_pi ntk' n = is_pi ntk n.
Proof. intros H. unfold is_pi. by rewrite (same_structure_children _ _ _ H). Qed.

Lemma same_structure_fanins ntk ntk' n :
  same_structure ntk ntk' -> fanins ntk' n = fanins ntk n.
Proof.
  intros H. unfold fanins.
  by rewrite (same_structure_is_pi _ _ _ H), (same_structure_children _ _ _ H).
Qed.

Lemma same_structure_length ntk ntk' :
  same_structure ntk ntk' -> length (nodes ntk') = length (nodes ntk).
Proof.
  intros H. unfold same_structure in H.
  by rewrite <- (length_fmap children (nodes ntk')), H, length_fmap.
Qed.

Lemma same_structure_refl ntk : same_structure ntk ntk.
Proof. done. Qed.

Lemma same_structure_trans a b c :
  same_structure a b -> same_structure b c -> same_structure a c.
Proof. unfold same_structure. congruence. Qed.

Lemma same_structure_set_value c v ntk : same_structure ntk (set_value c v ntk).
Proof.
  unfold same_structure, set_value. simpl. apply list_eq. intros k.
  rewrite !list_lookup_fmap, list_lookup_alter.
  destruct (decide (c = k)) as [->|]; [|done]. by destruct (nodes ntk !! k).
Qed.

Lemma same_structure_clear_values ntk : same_structure ntk (clear_values ntk).
Proof.
  unfold same_structure, clear_values. simpl. apply list_eq. intros k.
  rewrite !list_lookup_fmap. by destruct (nodes ntk !! k).
Qed.

Lemma fanins_in_range_same ntk ntk' :
  same_structure ntk ntk' -> fanins_in_range ntk -> fanins_in_range ntk'.
Proof.
  intros H Hr n m Hm.
  pose proof (same_structure_children ntk ntk' n H) as Hc.
  unfold node_at in Hc. rewrite (list_lookup_total_correct _ _ _ Hm) in Hc.
  pose proof (lookup_lt_Some _ _ _ Hm) as Hlt.
  rewrite (same_structure_length _ _ H) in Hlt |- *.
  apply lookup_lt_is_Some in Hlt as [m0 Hm0].
  rewrite (list_lookup_total_correct _ _ _ Hm0) in Hc. rewrite Hc.
  by apply (Hr n m0).
Qed.

Lemma value_set_value c v ntk x :
  value (set_value c v ntk) x
  = if decide (x = c /\ (c < length (nodes ntk))%nat) then v else value ntk x.
Proof.
  unfold value, node_at, set_value. simpl.
  rewrite !list_lookup_total_alt, list_lookup_alter.
  destruct (decide (c = x)) as [->|Hne].
  - destruct (nodes ntk !! x) as [m|] eqn:E; simpl.
    + rewrite decide_True; [done|]. split; [done|]. by apply lookup_lt_Some in E.
    + rewrite decide_False; [done|]. apply lookup_ge_None in E. lia.
  - rewrite decide_False; [done|]. intros [? _]. congruence.
Qed.

Lemma unmarked_alter (ns : list klut_storage_node) : forall c,
  (c < length ns)%nat -> data0_h2 (ns !!! c) = 0 ->
  S (length (filter (fun n => data0_h2 n = 0) (alter (set_data0_h2 1) c ns)))
  = length (filter (fun n => data0_h2 n = 0) ns).
Proof.
  induction ns as [|m ns IH]; intros c Hc Hv; [simpl in Hc; lia|].
  destruct c as [|c].
  - change (alter (set_data0_h2 1) 0%nat (m :: ns)) with (set_data0_h2 1 m :: ns).
    change ((m :: ns) !!! 0%nat) with m in Hv.
    rewrite !filter_cons, decide_False, decide_True by done. done.
  - change (alter (set_data0_h2 1) (S c) (m :: ns))
      with (m :: alter (set_data0_h2 1) c ns).
    change ((m :: ns) !!! S c) with (ns !!! c) in Hv. simpl in Hc.
    rewrite !filter_cons. destruct (decide (data0_h2 m = 0)); simpl;
      rewrite <- (IH c) by (done || lia); done.
Qed.

Lemma unmarked_set_value c ntk :
  (c < length (nodes ntk))%nat -> value ntk c = 0 ->
  S (unmarked (set_value c 1 ntk)) = unmarked ntk.
Proof. intros Hc Hv. by apply unmarked_alter. Qed.


Lemma cost_fold ntk l : forall z,
  foldl (fun current_cost child =>
           if negb (is_constant child) && bool_decide (value ntk child = 0)
           then current_cost + 1 else current_cost) z l
  = z + Z.of_nat (counted ntk l).
Proof.
  unfold counted. induction l as [|c l IH]; intros z; cbn [foldl]; [simpl; lia|].
  rewrite IH, filter_cons.
  destruct (decide (is_constant c = false /\ value ntk c = 0)) as [[H1 H2]|Hn].
  - rewrite H1, bool_decide_eq_true_2 by done. cbn [negb andb length]. lia.
  - destruct (is_constant c); cbn [negb andb]; [done|].
    rewrite bool_decide_eq_false_2; [done|tauto].
Qed.

Lemma cost_counted ntk n :
  cost ntk n = Z.of_nat (counted ntk (fanins ntk n)) - 1.
Proof. unfold cost. rewrite cost_fold. lia. Qed.

Lemma counted_le ntk l : (counted ntk l <= length l)%nat.
Proof. apply length_filter. Qed.

Lemma fanins_length ntk n :
  (length (fanins ntk n) <= length (children (node_at ntk n)))%nat.
Proof. unfold fanins. destruct (_ || _); simpl; lia. Qed.

Lemma cost_range ntk n :
  fanins_in_range ntk -> -1 <= cost ntk n < 2 ^ 31.
Proof.
  intros Hr. rewrite cost_counted.
  pose proof (counted_le ntk (fanins ntk n)).
  pose proof (fanins_length ntk n) as Hl.
  unfold node_at in Hl. rewrite list_lookup_total_alt in Hl.
  destruct (nodes ntk !! n) as [m|] eqn:E; simpl in Hl.
  - destruct (Hr n m E) as [Hm _]. lia.
  - lia.
Qed.

Lemma fanins_elem_range ntk n c :
  fanins_in_range ntk -> c ∈ fanins ntk n -> (c < length (nodes ntk))%nat.
Proof.
  intros Hr. unfold fanins. destruct (_ || _); [by intros ?%elem_of_nil|].
  unfold node_at. rewrite list_lookup_total_alt.
  destruct (nodes ntk !! n) as [m|] eqn:E; simpl; [|by intros ?%elem_of_nil].
  by apply (Hr n m).
Qed.

(** The loop over the fan-ins of the expanded node: the cut grows by at most
    the unmarked fan-ins, and every node it gains is marked. *)
Lemma expand_children n l : forall cut ntk,
  (forall c, c ∈ l -> (c < length (nodes ntk))%nat) ->
  let r := foldl (expand_child n) (cut, ntk) l in
  same_structure ntk r.2
  /\ (length r.1 + unmarked r.2 = length cut + unmarked ntk)%nat
  /\ (length r.1 <= length cut
        + length (filter (fun c => value ntk c = 0%Z) l))%nat.
Proof.
  induction l as [|c l IH]; intros cut ntk Hl; cbn [foldl].
  - simpl. split; [done|]. split; lia.
  - assert (Hc : (c < length (nodes ntk))%nat) by apply Hl, list_elem_of_here.
    assert (Hstep : expand_child n (cut, ntk) c
              = if negb (is_constant n) && negb (bool_decide (c ∈ cut))
                   && bool_decide (value ntk c = 0)
                then (cut ++ [c], set_value c 1 ntk) else (cut, ntk)) by done.
    rewrite Hstep. clear Hstep.
    destruct (negb (is_constant n) && negb (bool_decide (c ∈ cut))
              && bool_decide (value ntk c = 0)) eqn:Ec.
    + apply andb_prop in Ec as [_ Hv]. apply bool_decide_eq_true in Hv.
      pose proof (same_structure_set_value c 1 ntk) as Hs.
      destruct (IH (cut ++ [c]) (set_value c 1 ntk)) as (I1 & I2 & I3).
      { intros x Hx. rewrite (same_structure_length _ _ Hs).
        by apply Hl, list_elem_of_further. }
      cbv zeta in *. split; [by apply (same_structure_trans _ _ _ Hs)|].
      pose proof (unmarked_set_value c ntk Hc Hv) as Hu.
      rewrite length_app in I2, I3. simpl in I2, I3.
      split; [lia|]. rewrite filter_cons, decide_True by done. simpl.
      assert (Hmono : (length (filter (fun x => value (set_value c 1 ntk) x = 0%Z) l)
                       <= length (filter (fun x => value ntk x = 0%Z) l))%nat).
      { clear. induction l as [|x l IHl]; [done|]. rewrite !filter_cons.
        rewrite value_set_value.
        destruct (decide (x = c /\ (c < length (nodes ntk))%nat)).
        - rewrite decide_False by done. destruct (decide (value ntk x = 0)); simpl; lia.
        - destruct (decide (value ntk x = 0)); simpl; lia. }
      lia.
    + destruct (IH cut ntk) as (I1 & I2 & I3).
      { intros x Hx. by apply Hl, list_elem_of_further. }
      cbv zeta in *. split; [done|]. split; [done|].
      rewrite filter_cons. destruct (decide (value ntk c = 0)); simpl; lia.
Qed.

Lemma find_non_pi_spec ntk cut : forall pre,
  match find_non_pi ntk pre cut with
  | None => forall x, x ∈ cut -> is_pi ntk x = true
  | Some (pre', n, post) =>
      exists mid, cut = mid ++ n :: post /\ pre' = pre ++ mid
                  /\ is_pi ntk n = false
                  /\ forall x, x ∈ mid -> is_pi ntk x = true
  end.
Proof.
  induction cut as [|x cut IH]; intros pre; cbn [find_non_pi].
  - intros x Hx. by apply elem_of_nil in Hx.
  - destruct (is_pi ntk x) eqn:Ex; simpl.
    + specialize (IH (pre ++ [x])).
      destruct (find_non_pi ntk (pre ++ [x]) cut) as [[[pre' n] post]|].
      * destruct IH as (mid & -> & -> & Hn & Hmid). exists (x :: mid).
        split; [done|]. split; [by rewrite <- app_assoc|]. split; [done|].
        intros y Hy. apply elem_of_cons in Hy as [->|Hy]; [done|by apply Hmid].
      * intros y Hy. apply elem_of_cons in Hy as [->|Hy]; [done|by apply IH].
    + exists []. split; [done|]. split; [by rewrite app_nil_r|]. split; [done|].
      intros y Hy. by apply elem_of_nil in Hy.
Qed.


Lemma counted_no_constant ntk l :
  (forall c, c ∈ l -> is_constant c = false) ->
  counted ntk l = length (filter (fun c => value ntk c = 0) l).
Proof.
  unfold counted. induction l as [|c l IH]; intros H; [done|].
  rewrite !filter_cons.
  assert (Hc : is_constant c = false) by apply H, list_elem_of_here.
  assert (IH' := IH (fun x Hx => H x (list_elem_of_further _ _ _ Hx))).
  destruct (decide (value ntk c = 0)).
  - rewrite decide_True by done. simpl. by rewrite IH'.
  - rewrite decide_False by tauto. done.
Qed.

Section SortedCut.
Variable std_sort : (node -> node -> bool) -> list node -> list node.
Variable cut_size : Z.
Hypothesis std_sort_perm : forall less l, std_sort less l ≡ₚ l.
Hypothesis std_sort_sorted : forall (key : node -> Z) l pre x post,
  std_sort (fun a b => bool_decide (key a < key b)) l = pre ++ x :: post ->
  forall y, y ∈ post -> key x <= key y.

Lemma compute_cut_recur_terminates fuel : forall cut ntk,
  fanins_in_range ntk ->
  (length cut + unmarked ntk < fuel)%nat ->
  compute_cut_recur std_sort cut_size fuel cut ntk <> OutOfFuel.
Proof.
  induction fuel as [|fuel IH]; intros cut ntk Hr Hm; [lia|].
  cbn [compute_cut_recur].
  destruct (negb (bool_decide (Z.of_nat (length cut) <= cut_size))); [done|].
  set (s := std_sort (fun a b => bool_decide (cost ntk a < cost ntk b)) cut).
  assert (Hlen : length s = length cut) by (unfold s; by rewrite std_sort_perm).
  pose proof (find_non_pi_spec ntk s []) as Hf.
  destruct (find_non_pi ntk [] s) as [[[pre n] post]|]; [|done].
  destruct Hf as (mid & Hs & -> & Hn & Hmid). rewrite app_nil_l.
  destruct (bool_decide (cut_size < wrap64 (Z.of_nat (length s) + cost ntk n)));
    [done|].
  destruct (expand_children n (fanins ntk n) (mid ++ post) ntk) as (E1 & E2 & _).
  { intros c Hc. by apply (fanins_elem_range ntk n). }
  cbv zeta in *.
  destruct (foldl (expand_child n) (mid ++ post, ntk) (fanins ntk n))
    as [cut' ntk'] eqn:Ef.
  cbn [fst snd] in *. apply IH; [by apply (fanins_in_range_same ntk)|].
  rewrite Hs, length_app in Hlen. simpl in Hlen. rewrite length_app in E2. lia.
Qed.

Lemma compute_cut_recur_bounded fuel : forall cut ntk,
  fanins_in_range ntk -> no_constant_fanin ntk ->
  0 <= cut_size < 2 ^ 32 ->
  Z.of_nat (length cut) <= cut_size ->
  (length cut + unmarked ntk < fuel)%nat ->
  exists cut' ntk',
    compute_cut_recur std_sort cut_size fuel cut ntk = Done cut' ntk'
    /\ same_structure ntk ntk'
    /\ Z.of_nat (length cut') <= cut_size
    /\ stopped cut_size cut' ntk'.
Proof.
  induction fuel as [|fuel IH]; intros cut ntk Hr Hnc Hcs Hle Hm; [lia|].
  cbn [compute_cut_recur].
  rewrite bool_decide_eq_true_2 by done. cbn [negb].
  set (s := std_sort (fun a b => bool_decide (cost ntk a < cost ntk b)) cut).
  assert (Hlen : length s = length cut) by (unfold s; by rewrite std_sort_perm).
  pose proof (find_non_pi_spec ntk s []) as Hf.
  destruct (find_non_pi ntk [] s) as [[[pre n] post]|] eqn:Efind.
  - destruct Hf as (mid & Hs & -> & Hn & Hmid). rewrite app_nil_l.
    pose proof (cost_range ntk n Hr) as Hcr.
    assert (Hpos : (1 <= length s)%nat).
    { rewrite Hs, length_app. simpl. lia. }
    assert (Hw : wrap64 (Z.of_nat (length s) + cost ntk n)
                 = Z.of_nat (length s) + cost ntk n).
    { unfold wrap64. apply Z.mod_small. lia. }
    rewrite Hw.
    destruct (bool_decide (cut_size < Z.of_nat (length s) + cost ntk n)) eqn:Ex.
    + apply bool_decide_eq_true in Ex. exists s, ntk.
      split; [done|]. split; [done|]. split; [lia|]. right.
      exists n. split; [rewrite Hs; apply elem_of_app; right; apply list_elem_of_here|].
      split; [done|]. split; [|done].
      intros m Hm' Hpi. rewrite Hs in Hm'.
      apply elem_of_app in Hm' as [Hm'|Hm'].
      * rewrite (Hmid m Hm') in Hpi. done.
      * apply elem_of_cons in Hm' as [->|Hm']; [lia|].
        by apply (std_sort_sorted (cost ntk) cut mid n post).
    + apply bool_decide_eq_false in Ex.
      destruct (expand_children n (fanins ntk n) (mid ++ post) ntk)
        as (E1 & E2 & E3).
      { intros c Hc. by apply (fanins_elem_range ntk n). }
      cbv zeta in *.
      destruct (foldl (expand_child n) (mid ++ post, ntk) (fanins ntk n))
        as [cut' ntk'] eqn:Ef.
      cbn [fst snd] in *.
      rewrite <- (counted_no_constant ntk) in E3 by apply Hnc.
      pose proof (cost_counted ntk n) as Hcc.
      rewrite Hs, length_app in Hlen, Hpos, Ex. simpl in Hlen, Hpos, Ex.
      rewrite length_app in E2, E3.
      destruct (IH cut' ntk') as (cut2 & ntk2 & Hrun & Hss & Hb & Hst).
      * by apply (fanins_in_range_same ntk).
      * intros x c Hc. rewrite (same_structure_fanins _ _ _ E1) in Hc.
        by apply (Hnc x).
      * done.
      * lia.
      * lia.
      * exists cut2, ntk2. split; [done|]. split; [|done].
        by apply (same_structure_trans _ ntk').
  - exists s, ntk. split; [done|]. split; [done|]. split; [lia|]. by left.
Qed.

End SortedCut.


Lemma same_structure_mark pivots : forall ntk,
  same_structure ntk (foldl (fun ntk p => set_value p 1 ntk) ntk pivots).
Proof.
  induction pivots as [|p l IH]; intros ntk; cbn [foldl]; [done|].
  apply (same_structure_trans _ (set_value p 1 ntk));
    [apply same_structure_set_value|apply IH].
Qed.

Lemma unmarked_le ntk : (unmarked ntk <= length (nodes ntk))%nat.
Proof. apply length_filter. Qed.

Section SortedCut2.
Variable std_sort : (node -> node -> bool) -> list node -> list node.
Variable cut_size : Z.
Hypothesis std_sort_perm : forall less l, std_sort less l ≡ₚ l.
Hypothesis std_sort_sorted : forall (key : node -> Z) l pre x post,
  std_sort (fun a b => bool_decide (key a < key b)) l = pre ++ x :: post ->
  forall y, y ∈ post -> key x <= key y.

(** C4, amended.  With any sort that permutes and orders by cost, on a
    network whose fan-ins are nodes, the cut computation always returns.
    When moreover there are at most [cut_size] pivots and no gate has a
    constant fan-in, no assertion fails: the cut has at most [cut_size]
    leaves at every entry and on return, and on return either every leaf is
    a primary input or expanding the cheapest leaf that is not would bring
    the cut over [cut_size]. *)
Theorem reconv_cut_terminates_bounded (pivots : list node)
    (ntk : klut_network) (fuel : nat) :
  fanins_in_range ntk ->
  (length pivots + length (nodes ntk) < fuel)%nat ->
  run std_sort cut_size fuel pivots ntk <> OutOfFuel
  /\ (pivots <> [] -> Z.of_nat (length pivots) <= cut_size ->
      cut_size < 2 ^ 32 -> no_constant_fanin ntk ->
      exists cut ntk',
        run std_sort cut_size fuel pivots ntk = Done cut ntk'
        /\ same_structure ntk ntk'
        /\ Z.of_nat (length cut) <= cut_size
        /\ stopped cut_size cut ntk').
Proof.
  intros Hr Hfuel. unfold run.
  set (ntk1 := foldl (fun ntk p => set_value p 1 ntk) (clear_values ntk) pivots).
  assert (Hss : same_structure ntk ntk1).
  { apply (same_structure_trans _ (clear_values ntk));
      [apply same_structure_clear_values|apply same_structure_mark]. }
  assert (Hr1 : fanins_in_range ntk1) by (by apply (fanins_in_range_same ntk)).
  assert (Hm : (length pivots + unmarked ntk1 < fuel)%nat).
  { pose proof (unmarked_le ntk1). rewrite (same_structure_length _ _ Hss) in H. lia. }
  split.
  - destruct (bool_decide (pivots = [])); [done|].
    by apply compute_cut_recur_terminates.
  - intros Hne Hle Hcs Hnc. rewrite bool_decide_eq_false_2 by done.
    destruct (compute_cut_recur_bounded std_sort cut_size std_sort_perm
                std_sort_sorted fuel pivots ntk1) as (cut & ntk' & Hrun & Hs' & Hb & Hst);
      try done.
    + intros x c Hc. rewrite (same_structure_fanins _ _ _ Hss) in Hc. by apply (Hnc x).
    + lia.
    + exists cut, ntk'. split; [done|]. split; [|done].
      by apply (same_structure_trans _ ntk1).
Qed.

End SortedCut2.


Lemma stable_insert_perm before x l : Graph.stable_insert before x l ≡ₚ x :: l.
Proof.
  induction l as [|y l IH]; simpl; [done|].
  destruct (before y x); [|done]. rewrite IH. apply Permutation_swap.
Qed.

Lemma stable_sort_perm before l : Graph.stable_sort before l ≡ₚ l.
Proof.
  induction l as [|y l IH]; simpl; [done|].
  by rewrite stable_insert_perm, IH.
Qed.

Lemma in_order_app before pre l : Graph.in_order before (pre ++ l) -> Graph.in_order before l.
Proof. induction pre as [|p pre IH]; simpl; [done|]. intros [_ H]. by apply IH. Qed.

Lemma stable_sort_by_key (key : nat -> Z) l pre x post :
  Graph.stable_sort (fun a b => bool_decide (key a < key b)) l = pre ++ x :: post ->
  forall y, y ∈ post -> key x <= key y.
Proof.
  intros E y Hy.
  pose proof (stable_sort_in_order (fun a b => bool_decide (key a < key b))) as Hs.
  specialize (Hs ltac:(intros a b H; apply bool_decide_eq_true in H;
                        apply bool_decide_eq_false; lia)).
  specialize (Hs ltac:(intros a b c H1 H2; apply bool_decide_eq_false in H1;
                        apply bool_decide_eq_false in H2;
                        apply bool_decide_eq_false; lia)).
  specialize (Hs l). rewrite E in Hs. apply in_order_app in Hs as [Hx _].
  specialize (Hx y Hy). apply bool_decide_eq_false in Hx. lia.
Qed.

Lemma fanins_in_range_nodes ntk :
  Forall (fun m => Z.of_nat (length (children m)) < 2 ^ 31
                   /\ Forall (fun c => (c < length (nodes ntk))%nat) (children m))
    (nodes ntk) ->
  fanins_in_range ntk.
Proof.
  intros H n m Hm. rewrite Forall_forall in H.
  destruct (H m) as [H1 H2]; [by apply list_elem_of_lookup_2 in Hm|].
  split; [done|]. by rewrite Forall_forall in H2.
Qed.

Lemma no_constant_fanin_nodes ntk :
  Forall (fun m => Forall (fun c => is_constant c = false) (children m)) (nodes ntk) ->
  no_constant_fanin ntk.
Proof.
  intros H n c. unfold fanins. destruct (_ || _); [by intros ?%elem_of_nil|].
  unfold node_at. rewrite list_lookup_total_alt.
  destruct (nodes ntk !! n) as [m|] eqn:E; simpl; [|by intros ?%elem_of_nil].
  rewrite Forall_forall in H. specialize (H m (list_elem_of_lookup_2 _ _ _ E)).
  rewrite Forall_forall in H. apply H.
Qed.

Lemma and_network_nodes :
  nodes and_network
  = [mk_node [] 0 0 0%nat 0; mk_node [] 0 0 1%nat 0; mk_node [] 1 0 2%nat 0;
     mk_node [] 1 0 2%nat 0; mk_node [2; 3]%nat 0 0 4%nat 0].
Proof. vm_compute. reflexivity. Qed.

Lemma reconv_cut_terminates_bounded_witness :
  exists cut ntk',
    run Graph.stable_sort 2 10 [4%nat] and_network = Done cut ntk'
    /\ same_structure and_network ntk'
    /\ Z.of_nat (length cut) <= 2
    /\ stopped 2 cut ntk'.
Proof.
  assert (Hr : fanins_in_range and_network).
  { apply fanins_in_range_nodes. rewrite and_network_nodes.
    repeat constructor; simpl; lia. }
  assert (Hf : (length [4%nat] + length (nodes and_network) < 10)%nat)
    by (rewrite and_network_nodes; simpl; lia).
  destruct (reconv_cut_terminates_bounded Graph.stable_sort 2 stable_sort_perm
              stable_sort_by_key [4%nat] and_network 10 Hr Hf) as [_ H].
  apply H.
  - done.
  - simpl. lia.
  - lia.
  - apply no_constant_fanin_nodes. rewrite and_network_nodes. repeat constructor.
Defined.

Example reconv_cut_and :
  exists ntk', run Graph.stable_sort 2 10 [4%nat] and_network = Done [2; 3]%nat ntk'.
Proof. eexists. vm_compute. reflexivity. Qed.

(** C4 as stated fails: with more pivots than [cut_size] the assertion fails
    at the first entry, and a gate with constant fan-ins brings the cut over
    [cut_size], since its constants are not counted by [cost]. *)
Lemma reconv_cut_assertion_fails :
  run Graph.stable_sort 1 10 [2; 3]%nat and_network = AssertionFailed
  /\ run Graph.stable_sort 1 10 [2%nat] constant_and_network = AssertionFailed.
Proof. split; vm_compute; reflexivity. Qed.

End ReconvCutFacts.

(** ** The reference-counting walks *)

Section MffcFacts.
Import Klut ReconvCut CutRewriting.

Section CostFn.


Variable cost_fn : klut_network -> node -> Z.
Hypothesis cost_fn_values : forall ntk ntk' n,
  clear_values ntk' = clear_values ntk -> cost_fn ntk' n = cost_fn ntk n.

Local Abbreviation walk := (CutRewriting.walk cost_fn).

Lemma walk_S up fuel n ntk :
  walk up (S fuel) n ntk
  = if terminal ntk n then Some (ntk, 0)
    else foldl (walk_fanin up (walk up fuel)) (Some (ntk, wrap32 (cost_fn ntk n)))
           (fanins ntk n).
Proof. by destruct up. Qed.

Lemma walk_fanin_Some up rec ntk acc s :
  walk_fanin up rec (Some (ntk, acc)) s
  = let ntk1 := set_value s (wrap32 (value ntk s + delta up)) ntk in
    if bool_decide ((if up then value ntk s else wrap32 (value ntk s - 1)) = 0)
    then match rec s ntk1 with
         | None => None
         | Some (ntk2, c) => Some (ntk2, wrap32 (acc + c))
         end
    else Some (ntk1, acc).
Proof. by destruct up. Qed.

Lemma walk_fanin_None up rec l : foldl (walk_fanin up rec) None l = None.
Proof. induction l as [|s l IH]; [done|]. simpl. by destruct up. Qed.

Lemma clear_values_set_value c v ntk :
  clear_values (set_value c v ntk) = clear_values ntk.
Proof.
  unfold clear_values, set_value, set_nodes. simpl. f_equal.
  apply list_eq. intros k. rewrite !list_lookup_fmap, list_lookup_alter.
  destruct (decide (c = k)) as [->|]; [|done]. by destruct (nodes ntk !! k).
Qed.

Lemma clear_values_same_structure ntk ntk' :
  clear_values ntk' = clear_values ntk -> ReconvCut.same_structure ntk ntk'.
Proof.
  intros H.
  eapply same_structure_trans; [apply same_structure_clear_values|].
  rewrite <- H. unfold ReconvCut.same_structure.
  symmetry. apply (same_structure_clear_values ntk').
Qed.

Lemma clear_values_fanins ntk ntk' n :
  clear_values ntk' = clear_values ntk -> fanins ntk' n = fanins ntk n.
Proof. intros H. by apply same_structure_fanins, clear_values_same_structure. Qed.

Lemma clear_values_terminal ntk ntk' n :
  clear_values ntk' = clear_values ntk -> terminal ntk' n = terminal ntk n.
Proof.
  intros H. unfold terminal, is_ci, is_ro.
  by rewrite (same_structure_is_pi _ _ _ (clear_values_same_structure _ _ H)).
Qed.

Lemma clear_values_length ntk ntk' :
  clear_values ntk' = clear_values ntk -> length (nodes ntk') = length (nodes ntk).
Proof. intros H. by apply same_structure_length, clear_values_same_structure. Qed.

Lemma value_out_of_range ntk x : (length (nodes ntk) <= x)%nat -> value ntk x = 0.
Proof.
  intros H. unfold value, node_at. rewrite list_lookup_total_alt.
  by rewrite (proj2 (lookup_ge_None _ _) H).
Qed.

Lemma not_terminal_in_range ntk x :
  terminal ntk x = false -> (x < length (nodes ntk))%nat.
Proof.
  unfold terminal, is_ci, is_ro, is_constant, is_pi. intros H.
  destruct (decide (x < length (nodes ntk))%nat) as [|Hge]; [done|].
  unfold node_at in H. rewrite list_lookup_total_alt in H.
  rewrite (proj2 (lookup_ge_None _ _)) in H by lia. simpl in H.
  repeat case_bool_decide; simpl in *; try done; lia.
Qed.

(** Equal values on equal structures: equal networks. *)
Lemma clear_values_eq ntk ntk' :
  clear_values ntk' = clear_values ntk ->
  (forall x, (x < length (nodes ntk))%nat -> value ntk' x = value ntk x) ->
  ntk' = ntk.
Proof.
  intros H Hv. pose proof (clear_values_length _ _ H) as Hlen.
  unfold clear_values, set_nodes in H.
  destruct ntk as [ns i o h c t e], ntk' as [ns' i' o' h' c' t' e'].
  simpl in *. injection H as Hn -> -> -> -> -> ->. f_equal.
  apply list_eq. intros k.
  destruct (decide (k < length ns)%nat) as [Hk|Hk].
  - specialize (Hv k Hk). unfold value, node_at in Hv. simpl in Hv.
    rewrite !list_lookup_total_alt in Hv.
    assert (E : (map (set_data0_h2 0) ns') !! k = (map (set_data0_h2 0) ns) !! k)
      by by rewrite Hn.
    change map with (@fmap list _) in E. rewrite !list_lookup_fmap in E.
    destruct (ns' !! k) as [[c1 a1 b1 d1 e1]|] eqn:E1,
             (ns !! k) as [[c2 a2 b2 d2 e2]|] eqn:E2; simpl in *; try done.
    unfold set_data0_h2 in E. simpl in E. congruence.
  - rewrite !(proj2 (lookup_ge_None _ _)); [done|lia|lia].
Qed.

Lemma zero_hits_wrap up v m : zero_hits up (wrap32 v) m = zero_hits up v m.
Proof.
  revert v. induction m as [|m IH]; intros v; [done|]. simpl.
  rewrite <- (IH (wrap32 v + delta up)), <- (IH (v + delta up)), wrap32_add_l.
  f_equal. destruct up; [by rewrite wrap32_idem|by rewrite wrap32_sub_l].
Qed.

Lemma zero_hits_add up v a b :
  zero_hits up v (a + b)
  = (zero_hits up v a + zero_hits up (v + delta up * Z.of_nat a) b)%nat.
Proof.
  revert v. induction a as [|a IH]; intros v.
  - simpl. f_equal. lia.
  - cbn [Nat.add zero_hits]. rewrite IH.
    replace (v + delta up + delta up * Z.of_nat a) with (v + delta up * Z.of_nat (S a))
      by lia.
    lia.
Qed.

(** Going up from where going down ended passes zero as often. *)
Lemma zero_hits_up_last v m :
  zero_hits true v (S m)
  = (zero_hits true v m + if bool_decide (wrap32 (v + Z.of_nat m) = 0%Z) then 1 else 0)%nat.
Proof.
  revert v. induction m as [|m IH]; intros v.
  - cbn [zero_hits]. change (Z.of_nat 0) with 0. rewrite Z.add_0_r. lia.
  - change (zero_hits true v (S (S m)))
      with ((if bool_decide (wrap32 v = 0%Z) then 1 else 0)
            + zero_hits true (v + 1)%Z (S m))%nat.
    rewrite IH. cbn [zero_hits delta].
    replace (v + 1 + Z.of_nat m) with (v + Z.of_nat (S m)) by lia. lia.
Qed.

Lemma zero_hits_back v m :
  zero_hits true (v - Z.of_nat m) m = zero_hits false v m.
Proof.
  revert v. induction m as [|m IH]; intros v; [done|].
  rewrite zero_hits_up_last. cbn [zero_hits delta].
  rewrite <- IH.
  replace (v - Z.of_nat (S m) + Z.of_nat m) with (v - 1) by lia.
  replace (v + -1 - Z.of_nat m) with (v - Z.of_nat (S m)) by lia. lia.
Qed.

Lemma values_ok_set_value h v ntk :
  uint32 v -> values_ok ntk -> values_ok (set_value h v ntk).
Proof. intros Hv H x. rewrite value_set_value. case_decide; [done|apply H]. Qed.

Lemma walked_values_ok up ntk ntk' R L F :
  walked up ntk ntk' R L F -> values_ok ntk'.
Proof.
  intros (Hc & Hv & _) x. destruct (decide (x < length (nodes ntk))%nat).
  - rewrite Hv by done. apply wrap32_range.
  - rewrite value_out_of_range; [unfold uint32; lia|].
    rewrite (clear_values_length _ _ Hc). lia.
Qed.

Lemma flat_map_fanins ntk ntk' F :
  clear_values ntk' = clear_values ntk ->
  flat_map (fanins ntk') F = flat_map (fanins ntk) F.
Proof.
  intros H. induction F as [|p F IH]; simpl; [done|].
  by rewrite IH, (clear_values_fanins _ _ _ H).
Qed.

Lemma sum_with_app g l1 l2 : sum_with g (l1 ++ l2) = sum_with g l1 + sum_with g l2.
Proof. induction l1 as [|p l1 IH]; simpl; [done|]. rewrite IH. lia. Qed.

Lemma sum_with_cost ntk ntk' F :
  clear_values ntk' = clear_values ntk ->
  sum_with (cost_fn ntk') F = sum_with (cost_fn ntk) F.
Proof.
  intros H. induction F as [|p F IH]; simpl; [done|].
  by rewrite IH, (cost_fn_values _ _ _ H).
Qed.

Lemma walked_refl up ntk : values_ok ntk -> walked up ntk ntk [] [] [].
Proof.
  intros Hok. split; [done|]. split.
  - intros x _. simpl. rewrite occ_nil. simpl. rewrite Z.mul_0_r, Z.add_0_r.
    symmetry. apply wrap32_small, Hok.
  - intros x. simpl. rewrite !occ_nil. by destruct (terminal ntk x).
Qed.

Lemma walked_compose up a b c R1 L1 F1 R2 L2 F2 :
  walked up a b R1 L1 F1 -> walked up b c R2 L2 F2 ->
  walked up a c (R1 ++ R2) (L1 ++ L2) (F1 ++ F2).
Proof.
  intros (Hc1 & Hv1 & Hn1) (Hc2 & Hv2 & Hn2).
  pose proof (clear_values_length _ _ Hc1) as Hlen.
  split; [congruence|]. split.
  - intros x Hx. rewrite Hv2 by lia. rewrite Hv1 by done.
    rewrite (flat_map_fanins _ _ _ Hc1), flat_map_app, !occ_app, wrap32_add_l.
    f_equal. lia.
  - intros x.
    rewrite !occ_app, Hn1, Hn2, (clear_values_terminal _ _ _ Hc1),
      (flat_map_fanins _ _ _ Hc1), flat_map_app, !occ_app.
    destruct (terminal a x) eqn:Ht; [lia|].
    rewrite (Hv1 x (not_terminal_in_range _ _ Ht)), zero_hits_wrap.
    replace (occ x L1 + occ x L2
             + (occ x (flat_map (fanins a) F1) + occ x (flat_map (fanins a) F2)))%nat
      with ((occ x L1 + occ x (flat_map (fanins a) F1))
            + (occ x L2 + occ x (flat_map (fanins a) F2)))%nat by lia.
    rewrite (zero_hits_add up (value a x)
               (occ x L1 + occ x (flat_map (fanins a) F1))
               (occ x L2 + occ x (flat_map (fanins a) F2))). lia.
Qed.

(** One fan-in [h] is moved and, when the test passes, walked. *)
Lemma walked_touch up ntk h ntk2 T :
  values_ok ntk ->
  walked up (set_value h (wrap32 (value ntk h + delta up)) ntk) ntk2
    (if bool_decide ((if up then value ntk h else wrap32 (value ntk h - 1)) = 0)
        && negb (terminal ntk h) then [h] else []) [] T ->
  walked up ntk ntk2 [] [h] T.
Proof.
  intros Hok (Hc & Hv & Hn).
  set (ntk1 := set_value h (wrap32 (value ntk h + delta up)) ntk) in *.
  assert (Hc1 : clear_values ntk1 = clear_values ntk) by apply clear_values_set_value.
  pose proof (clear_values_length _ _ Hc1) as Hlen.
  split; [congruence|]. split.
  - intros x Hx. rewrite Hv by lia. rewrite (flat_map_fanins _ _ _ Hc1).
    unfold ntk1 at 1. rewrite value_set_value, occ_nil, occ_cons, occ_nil.
    destruct (decide (h = x)) as [->|Hne].
    + rewrite decide_True by done. rewrite wrap32_add_l. f_equal. lia.
    + rewrite decide_False by (intros [? _]; congruence). f_equal.
  - intros x. rewrite Hn, (clear_values_terminal _ _ _ Hc1), (flat_map_fanins _ _ _ Hc1).
    rewrite occ_nil, (occ_cons x h), occ_nil.
    destruct (decide (h = x)) as [->|Hne].
    + destruct (terminal ntk x) eqn:Ht.
      * rewrite andb_false_r, occ_nil. lia.
      * rewrite andb_true_r. unfold ntk1 at 1.
        rewrite value_set_value, decide_True
          by (split; [done|by apply not_terminal_in_range]).
        rewrite zero_hits_wrap.
        change (1 + 0 + occ x (flat_map (fanins ntk) T))%nat
          with (S (occ x (flat_map (fanins ntk) T))).
        cbn [zero_hits Nat.add].
        assert (E : bool_decide ((if up then value ntk x else wrap32 (value ntk x - 1)) = 0)
                    = bool_decide (wrap32 (if up then value ntk x else value ntk x - 1) = 0)).
        { destruct up; [|done]. by rewrite (wrap32_small _ (Hok x)). }
        rewrite E. clear E. destruct (bool_decide (wrap32 _ = 0)); cbv iota;
          [rewrite occ_cons, decide_True, occ_nil by done|rewrite occ_nil]; lia.
    + assert (E : occ x (if bool_decide ((if up then value ntk h
                                           else wrap32 (value ntk h - 1)) = 0)
                            && negb (terminal ntk h) then [h] else []) = 0%nat).
      { destruct (_ && _); [|done]. by rewrite occ_cons, decide_False, occ_nil. }
      rewrite E. unfold ntk1 at 1.
      rewrite value_set_value, decide_False by (intros [? _]; congruence). done.
Qed.

Lemma walk_trace up : forall fuel n ntk ntk' c,
  values_ok ntk ->
  walk up fuel n ntk = Some (ntk', c) ->
  exists T, walked up ntk ntk' (if terminal ntk n then [] else [n]) [] T
            /\ c = wrap32 (sum_with (cost_fn ntk) T).
Proof.
  induction fuel as [|fuel IH]; intros n ntk ntk' c Hok H; [by destruct up|].
  rewrite walk_S in H. destruct (terminal ntk n) eqn:Ht.
  { injection H as <- <-. exists []. split; [by apply walked_refl|done]. }
  assert (Hfold : forall L ntk acc ntk' acc',
    values_ok ntk -> uint32 acc ->
    foldl (walk_fanin up (walk up fuel)) (Some (ntk, acc)) L = Some (ntk', acc') ->
    exists F, walked up ntk ntk' [] L F
              /\ acc' = wrap32 (acc + sum_with (cost_fn ntk) F)).
  { clear n ntk ntk' c Hok H Ht.
    induction L as [|h L IHL]; intros ntk acc ntk' acc' Hok Hacc H.
    { simpl in H. injection H as <- <-. exists []. split; [by apply walked_refl|].
      simpl. rewrite Z.add_0_r. symmetry. by apply wrap32_small. }
    cbn [foldl] in H. rewrite walk_fanin_Some in H. cbv zeta in H.
    set (ntk1 := set_value h (wrap32 (value ntk h + delta up)) ntk) in *.
    assert (Hok1 : values_ok ntk1) by (apply values_ok_set_value; [apply wrap32_range|done]).
    assert (Hc1 : clear_values ntk1 = clear_values ntk) by apply clear_values_set_value.
    destruct (bool_decide ((if up then value ntk h else wrap32 (value ntk h - 1)) = 0))
      eqn:Hfired.
    - destruct (walk up fuel h ntk1) as [[ntk2 c]|] eqn:E;
        [|by rewrite walk_fanin_None in H].
      destruct (IH _ _ _ _ Hok1 E) as (Th & Hw & ->).
      pose proof (walked_values_ok _ _ _ _ _ _ Hw) as Hok2.
      destruct (IHL _ _ _ _ Hok2 (wrap32_range _) H) as (F' & Hw' & ->).
      exists (Th ++ F'). split.
      + apply (walked_compose up ntk ntk2 ntk' [] [h] Th [] L F'); [|done].
        apply walked_touch; [done|]. fold ntk1. rewrite Hfired. simpl.
        rewrite (clear_values_terminal _ _ _ Hc1) in Hw.
        by destruct (terminal ntk h).
      + destruct Hw as (Hc2 & _).
        rewrite sum_with_app, (sum_with_cost ntk ntk1), (sum_with_cost ntk ntk2)
          by congruence.
        rewrite wrap32_add_l.
        replace (acc + wrap32 (sum_with (cost_fn ntk) Th) + sum_with (cost_fn ntk) F')
          with (wrap32 (sum_with (cost_fn ntk) Th) + (acc + sum_with (cost_fn ntk) F'))
          by lia.
        rewrite wrap32_add_l. f_equal. lia.
    - destruct (IHL _ _ _ _ Hok1 Hacc H) as (F' & Hw' & ->).
      exists F'. split.
      + apply (walked_compose up ntk ntk1 ntk' [] [h] [] [] L F'); [|done].
        apply walked_touch; [done|]. fold ntk1. rewrite Hfired. simpl.
        by apply walked_refl.
      + by rewrite (sum_with_cost ntk ntk1). }
  destruct (Hfold _ _ _ _ _ Hok (wrap32_range _) H) as (F & (Hc & Hv & Hn) & ->).
  exists (n :: F). split.
  - split; [done|]. split.
    + intros x Hx. rewrite (Hv x Hx). cbn [flat_map]. rewrite occ_app, occ_nil. f_equal.
    + intros x. cbn [flat_map].
      rewrite (occ_cons x n F), (Hn x), (occ_cons x n []), !occ_nil, occ_app.
      cbn [Nat.add]. destruct (terminal ntk x); lia.
  - cbn [sum_with foldr]. fold (sum_with (cost_fn ntk) F). by rewrite wrap32_add_l.
Qed.

(** With a rank that falls along every fan-in, a budget above the rank of
    the node is enough for a walk to return. *)
Lemma walk_returns up (rank : node -> nat) ntk0 :
  (forall p c, c ∈ fanins ntk0 p -> (rank c < rank p)%nat) ->
  forall fuel n ntk,
    clear_values ntk = clear_values ntk0 -> (rank n < fuel)%nat ->
    exists ntk' c, walk up fuel n ntk = Some (ntk', c)
                   /\ clear_values ntk' = clear_values ntk0.
Proof.
  intros Hrank. induction fuel as [|fuel IH]; intros n ntk Hc Hn; [lia|].
  rewrite walk_S. destruct (terminal ntk n); [by eauto|].
  assert (Hfold : forall L ntk acc,
    clear_values ntk = clear_values ntk0 ->
    (forall s, s ∈ L -> (rank s < fuel)%nat) ->
    exists ntk' acc',
      foldl (walk_fanin up (walk up fuel)) (Some (ntk, acc)) L = Some (ntk', acc')
      /\ clear_values ntk' = clear_values ntk0).
  { clear n ntk Hc Hn. induction L as [|h L IHL]; intros ntk acc Hc HL; [by eauto|].
    cbn [foldl]. rewrite walk_fanin_Some. cbv zeta.
    set (ntk1 := set_value h (wrap32 (value ntk h + delta up)) ntk).
    assert (Hc1 : clear_values ntk1 = clear_values ntk0)
      by (unfold ntk1; by rewrite clear_values_set_value).
    assert (HL' : forall s, s ∈ L -> (rank s < fuel)%nat)
      by (intros s Hs; apply HL; by right).
    destruct (bool_decide _).
    - destruct (IH h ntk1 Hc1 (HL h ltac:(left))) as (ntk2 & c & -> & Hc2).
      by apply IHL.
    - by apply IHL. }
  apply Hfold; [done|]. intros s Hs.
  rewrite (clear_values_fanins _ _ _ Hc) in Hs. apply Hrank in Hs. lia.
Qed.

Lemma occ_elem x l : (1 <= occ x l)%nat -> x ∈ l.
Proof.
  intros H. apply list_elem_of_In. apply (count_occ_In Nat.eq_dec). unfold occ in H. lia.
Qed.

Lemma occ_not_elem x l : x ∉ l -> occ x l = 0%nat.
Proof.
  intros H. destruct (occ x l) eqn:E; [done|]. exfalso. apply H, occ_elem. lia.
Qed.

Lemma sum_with_zero (g : node -> Z) l :
  (forall p, p ∈ l -> g p = 0) -> sum_with g l = 0.
Proof.
  induction l as [|p l IH]; intros H; simpl; [done|].
  rewrite IH, (H p) by (intros; try apply H; by constructor). done.
Qed.

(** Two lists with the same number of occurrences of every node that counts
    have the same sum. *)
Lemma sum_with_counts (g : node -> Z) : forall T1 T2,
  (forall p, g p <> 0 -> occ p T1 = occ p T2) ->
  sum_with g T1 = sum_with g T2.
Proof.
  induction T1 as [|a T1 IH]; intros T2 H.
  - symmetry. apply sum_with_zero. intros p Hp.
    destruct (decide (g p = 0)) as [|Hg]; [done|].
    specialize (H p Hg). apply occ_pos in Hp. rewrite occ_nil in H. lia.
  - destruct (decide (g a = 0)) as [Hg|Hg].
    + simpl. rewrite Hg, Z.add_0_l. apply IH. intros p Hp.
      rewrite <- (H p Hp), occ_cons, decide_False; [done|]. congruence.
    + pose proof (H a Hg) as Ha. rewrite occ_cons, decide_True in Ha by done.
      assert (Hin : a ∈ T2) by (apply occ_elem; lia).
      apply list_elem_of_split in Hin as (l1 & l2 & ->).
      rewrite sum_with_app. simpl. rewrite (IH (l1 ++ l2)).
      * rewrite sum_with_app. lia.
      * intros p Hp. specialize (H p Hp).
        rewrite occ_app, !occ_cons in H. rewrite occ_app. lia.
Qed.

Lemma occ_flat_map x (f : node -> list node) T :
  Z.of_nat (occ x (flat_map f T)) = sum_with (fun p => Z.of_nat (occ x (f p))) T.
Proof.
  induction T as [|p T IH]; simpl; [done|]. rewrite occ_app, <- IH. lia.
Qed.

Lemma occ_fanins_counts ntk x T1 T2 :
  (forall p, x ∈ fanins ntk p -> occ p T1 = occ p T2) ->
  occ x (flat_map (fanins ntk) T1) = occ x (flat_map (fanins ntk) T2).
Proof.
  intros H. apply Nat2Z.inj. rewrite !occ_flat_map. apply sum_with_counts.
  intros p Hp. apply H, occ_elem. lia.
Qed.

Lemma max_rank_elem rank l p : p ∈ l -> (rank p <= max_rank rank l)%nat.
Proof.
  induction l as [|q l IH]; [by intros ?%elem_of_nil|].
  intros [->|Hp]%elem_of_cons; simpl; [lia|]. specialize (IH Hp). lia.
Qed.

(** In a network without cycles the walk down and the walk back up enter
    every node equally often. *)
Lemma walks_fire_equally (rank : node -> nat) ntk ntk1 ntk2 R TD TU :
  (forall p c, c ∈ fanins ntk p -> (rank c < rank p)%nat) ->
  walked false ntk ntk1 R [] TD ->
  walked true ntk1 ntk2 R [] TU ->
  forall x, occ x TD = occ x TU.
Proof.
  intros Hrank (Hc1 & Hv1 & Hn1) (Hc2 & Hv2 & Hn2).
  set (B := S (max_rank rank (TD ++ TU))).
  assert (HB : forall p, (B <= rank p)%nat -> occ p TD = 0%nat /\ occ p TU = 0%nat).
  { intros p Hp.
    split; apply occ_not_elem; intros Hin;
      assert (Hm : p ∈ TD ++ TU) by (apply elem_of_app; auto);
      apply (max_rank_elem rank) in Hm; unfold B in Hp; lia. }
  assert (H : forall k x, (B - rank x = k)%nat -> occ x TD = occ x TU).
  { induction k as [k IHk] using lt_wf_ind. intros x Hk.
    assert (Hm : occ x (flat_map (fanins ntk) TD) = occ x (flat_map (fanins ntk) TU)).
    { apply occ_fanins_counts. intros p Hp. apply Hrank in Hp.
      destruct (decide (rank p < B)%nat) as [Hlt|Hge].
      - apply (IHk (B - rank p)%nat); [lia|done].
      - destruct (HB p) as [-> ->]; [lia|done]. }
    rewrite Hn1, Hn2, (clear_values_terminal _ _ _ Hc1), (flat_map_fanins _ _ _ Hc1).
    destruct (terminal ntk x) eqn:Ht; [done|].
    rewrite (Hv1 x (not_terminal_in_range _ _ Ht)), zero_hits_wrap, occ_nil.
    cbn [Nat.add]. rewrite Hm. f_equal.
    rewrite <- zero_hits_back. f_equal; unfold delta; lia. }
  intros x. by apply (H (B - rank x)%nat).
Qed.

(** [recursive_ref] after [recursive_deref], for any values in range. *)
Lemma deref_then_ref (rank : node -> nat) ntk n fuel :
  values_ok ntk ->
  (forall p c, c ∈ fanins ntk p -> (rank c < rank p)%nat) ->
  (rank n < fuel)%nat ->
  exists ntk1 c,
    recursive_deref cost_fn fuel n ntk = Some (ntk1, c)
    /\ recursive_ref cost_fn fuel n ntk1 = Some (ntk, c).
Proof.
  intros Hok Hrank Hn.
  destruct (walk_returns false rank ntk Hrank fuel n ntk eq_refl Hn)
    as (ntk1 & c & E1 & Hc1).
  destruct (walk_returns true rank ntk Hrank fuel n ntk1 Hc1 Hn)
    as (ntk2 & c' & E2 & Hc2).
  destruct (walk_trace false _ _ _ _ _ Hok E1) as (TD & HwD & ->).
  pose proof (walked_values_ok _ _ _ _ _ _ HwD) as Hok1.
  destruct (walk_trace true _ _ _ _ _ Hok1 E2) as (TU & HwU & ->).
  rewrite (clear_values_terminal _ _ _ Hc1) in HwU.
  pose proof (walks_fire_equally rank _ _ _ _ _ _ Hrank HwD HwU) as Hocc.
  exists ntk1, (wrap32 (sum_with (cost_fn ntk) TD)). split; [exact E1|].
  change (walk true fuel n ntk1 = Some (ntk, wrap32 (sum_with (cost_fn ntk) TD))).
  rewrite E2. f_equal. f_equal.
  - apply clear_values_eq; [done|]. intros x Hx.
    destruct HwD as (_ & Hv1 & _), HwU as (_ & Hv2 & _).
    rewrite Hv2 by (rewrite (clear_values_length _ _ Hc1); done).
    rewrite (Hv1 x Hx), (flat_map_fanins _ _ _ Hc1), wrap32_add_l, !occ_nil.
    cbn [Nat.add].
    rewrite <- (occ_fanins_counts ntk x TD TU) by (intros; apply Hocc).
    rewrite <- (wrap32_small _ (Hok x)) at 2. f_equal. unfold delta. lia.
  - rewrite (sum_with_cost ntk ntk1) by done. f_equal. symmetry.
    apply sum_with_counts. intros; apply Hocc.
Qed.

Lemma node_at_clear_values ntk k :
  node_at (clear_values ntk) k = set_data0_h2 0 (node_at ntk k).
Proof.
  unfold node_at, clear_values. simpl. rewrite !list_lookup_total_alt.
  change map with (@fmap list _). rewrite list_lookup_fmap.
  by destruct (nodes ntk !! k).
Qed.

Lemma clear_values_fanout_size ntk ntk' k :
  clear_values ntk' = clear_values ntk -> fanout_size ntk' k = fanout_size ntk k.
Proof.
  intros H. pose proof (node_at_clear_values ntk' k) as E.
  rewrite H, node_at_clear_values in E. unfold fanout_size.
  by apply (f_equal data0_h1) in E.
Qed.

Lemma clear_values_idem ntk : clear_values (clear_values ntk) = clear_values ntk.
Proof.
  unfold clear_values, set_nodes. simpl. f_equal. rewrite map_map.
  by apply map_ext.
Qed.

Lemma run_init_values_spec ntk0 :
  (forall k, uint32 (fanout_size ntk0 k)) ->
  clear_values (run_init_values ntk0) = clear_values ntk0
  /\ values_ok (run_init_values ntk0).
Proof.
  intros Hf. unfold run_init_values.
  assert (H : forall l ntk,
    clear_values ntk = clear_values ntk0 -> values_ok ntk ->
    clear_values (foldl (fun ntk n => set_value n (fanout_size ntk n) ntk) ntk l)
    = clear_values ntk0
    /\ values_ok (foldl (fun ntk n => set_value n (fanout_size ntk n) ntk) ntk l)).
  { induction l as [|k l IH]; intros ntk Hc Hok; [done|]. cbn [foldl]. apply IH.
    - by rewrite clear_values_set_value.
    - apply values_ok_set_value; [|done].
      rewrite (clear_values_fanout_size _ _ _ Hc). apply Hf. }
  apply H; [apply clear_values_idem|].
  intros x. unfold value. rewrite node_at_clear_values. simpl. unfold uint32. lia.
Qed.

(** C2.  On a network without cycles whose values were initialised from the
    fan-out sizes, [recursive_deref] of a node returns, and [recursive_ref]
    of the same node then returns the same accumulated cost and puts every
    value back: the network is again the one before the first walk.  The
    cost function does not read the values. *)
Theorem recursive_ref_undoes_recursive_deref (rank : node -> nat) ntk0 n fuel :
  (forall p c, c ∈ fanins ntk0 p -> (rank c < rank p)%nat) ->
  (forall k, uint32 (fanout_size ntk0 k)) ->
  (rank n < fuel)%nat ->
  exists ntk1 c,
    recursive_deref cost_fn fuel n (run_init_values ntk0) = Some (ntk1, c)
    /\ recursive_ref cost_fn fuel n ntk1 = Some (run_init_values ntk0, c).
Proof.
  intros Hrank Hf Hn. destruct (run_init_values_spec ntk0 Hf) as [Hc Hok].
  apply (deref_then_ref rank); [done| |done].
  intros p c. rewrite (clear_values_fanins _ _ _ Hc). apply Hrank.
Qed.

Lemma fanins_below ntk :
  forallb (fun im => forallb (fun c => c <? im.1)%nat (children im.2))
    (combine (seq 0 (length (nodes ntk))) (nodes ntk)) = true ->
  forall p c, c ∈ fanins ntk p -> (c < p)%nat.
Proof.
  intros H p c. unfold fanins. destruct (_ || _); [by intros ?%elem_of_nil|].
  unfold node_at. rewrite list_lookup_total_alt.
  destruct (nodes ntk !! p) as [m|] eqn:E; simpl; [|by intros ?%elem_of_nil].
  intros Hc. rewrite forallb_forall in H.
  specialize (H (p, m)). simpl in H.
  assert (Hin : In (p, m) (combine (seq 0 (length (nodes ntk))) (nodes ntk))).
  { apply list_elem_of_In, list_elem_of_lookup. exists p.
    apply (lookup_zip_with_Some pair). exists p, m. split; [done|]. split; [|done].
    apply lookup_seq. split; [done|]. by apply lookup_lt_Some in E. }
  specialize (H Hin). rewrite forallb_forall in H.
  apply list_elem_of_In in Hc. apply H in Hc. by apply Nat.ltb_lt in Hc.
Qed.

Lemma fanout_sizes_in_range ntk :
  forallb (fun m => (0 <=? data0_h1 m) && (data0_h1 m <? 2 ^ 32)) (nodes ntk) = true ->
  forall k, uint32 (fanout_size ntk k).
Proof.
  intros H k. unfold fanout_size, node_at. rewrite list_lookup_total_alt.
  destruct (nodes ntk !! k) as [m|] eqn:E; simpl; [|unfold uint32; lia].
  rewrite forallb_forall in H.
  specialize (H m (proj1 (list_elem_of_In _ _) (list_elem_of_lookup_2 _ _ _ E))).
  apply andb_prop in H as [H1 H2]. unfold uint32. lia.
Qed.

End CostFn.

Lemma recursive_ref_undoes_recursive_deref_witness :
  exists ntk1 c,
    recursive_deref unit_cost 6 5 (run_init_values not_and_network) = Some (ntk1, c)
    /\ recursive_ref unit_cost 6 5 ntk1 = Some (run_init_values not_and_network, c).
Proof.
  apply (recursive_ref_undoes_recursive_deref unit_cost (fun _ _ _ _ => eq_refl)
           (fun n => n) not_and_network 5%nat 6%nat).
  - apply fanins_below. vm_compute. reflexivity.
  - apply fanout_sizes_in_range. vm_compute. reflexivity.
  - lia.
Defined.

(** The walk down from the negation frees the negation and the conjunction:
    cost two with unit costs. *)
Example recursive_deref_not_and :
  snd <$> recursive_deref unit_cost 6 5 (run_init_values not_and_network) = Some 2.
Proof. vm_compute. reflexivity. Qed.

End MffcFacts.

(** ** The vector node map *)

Section NodeMapFacts.
Import NodeMap.
Context {T Ntk : Type} `{Network Ntk}.


(** C10.  [resize] keeps every stored value; when the network is larger than
    the map it grows the map to the size of the network and fills the new
    slots with [init_value]; otherwise it changes nothing. *)
Theorem resize_keeps_values (ntk : Ntk) (init_value : T) (data : list T) :
  let data' := resize ntk init_value data in
  (forall i x, data !! i = Some x -> data' !! i = Some x)
  /\ Z.of_nat (length data') = Z.max (Z.of_nat (length data)) (size ntk)
  /\ (forall i, (length data <= i)%nat -> Z.of_nat i < size ntk ->
        data' !! i = Some init_value)
  /\ (size ntk <= Z.of_nat (length data) -> data' = data).
Proof.
  cbv zeta. unfold resize.
  destruct (decide (Z.of_nat (length data) < size ntk)) as [Hlt|Hge].
  - unfold vector_resize. rewrite decide_False by lia.
    split; [intros i x Hi; by apply lookup_app_l_Some|].
    split; [rewrite length_app, length_replicate; lia|].
    split; [|lia].
    intros i Hi Hs. rewrite lookup_app_r by done.
    apply lookup_replicate_2. lia.
  - split; [done|]. split; [lia|]. split; [lia|done].
Qed.

End NodeMapFacts.

(** ** Cleaning up dangling nodes *)

Section CleanupFacts.
Import Klut CutRewriting Cleanup.


Lemma translate_signals (m : list signal) : forall L dest acc,
  foldl (translate_signal m) (dest, acc) L = (dest, acc ++ map (fun f => m !!! f) L).
Proof.
  induction L as [|f L IH]; intros dest acc; simpl; [by rewrite app_nil_r|].
  change (translate_signal m (dest, acc) f) with (dest, acc ++ [m !!! f]).
  by rewrite IH, <- app_assoc.
Qed.

Lemma length_reference_children (cs : list signal) : forall ns : list klut_storage_node,
  length (foldl (fun ns c => alter incr_h1 c ns) ns cs) = length ns.
Proof.
  induction cs as [|c cs IH]; intros ns; simpl; [done|]. by rewrite IH, length_alter.
Qed.

Lemma _create_node_interface cs lit ntk :
  inputs (_create_node cs lit ntk).1 = inputs ntk
  /\ outputs (_create_node cs lit ntk).1 = outputs ntk
  /\ (length (nodes ntk) <= length (nodes (_create_node cs lit ntk).1)
      <= S (length (nodes ntk)))%nat.
Proof.
  unfold _create_node. destruct (hash ntk !! (cs, lit)); cbn [fst nodes inputs outputs];
    [repeat split; (done || lia)|].
  rewrite length_alter, length_reference_children, length_app. simpl.
  repeat split; (done || lia).
Qed.

Lemma create_node_interface cs tt ntk :
  inputs (create_node cs tt ntk).1 = inputs ntk
  /\ outputs (create_node cs tt ntk).1 = outputs ntk
  /\ (length (nodes ntk) <= length (nodes (create_node cs tt ntk).1)
      <= S (length (nodes ntk)))%nat.
Proof.
  unfold create_node. destruct (Cache.insert tt (cache ntk)) as [c lit].
  apply (_create_node_interface cs lit (set_cache c ntk)).
Qed.

Lemma not_terminal_fanins ntk n :
  terminal ntk n = false -> fanins ntk n <> [].
Proof.
  unfold terminal, is_ci, is_ro, is_constant, fanins, is_pi.
  intros H. repeat case_bool_decide; simpl in *; try done; try lia.
Qed.

(** The loop over the nodes: every gate is cloned; the interface of the
    destination stays, it grows by at most one node for each gate, and the
    map changes at gates only. *)
Lemma cleanup_nodes_loop ntk : forall l dest m,
  exists dest' m',
    foldl (cleanup_node ntk) (Some (dest, m)) l = Some (dest', m')
    /\ inputs dest' = inputs dest
    /\ outputs dest' = outputs dest
    /\ (length (nodes dest') <= length (nodes dest)
          + length (filter (fun x => terminal ntk x = false) l))%nat
    /\ length m' = length m
    /\ forall x, terminal ntk x = true -> m' !!! x = m !!! x.
Proof.
  induction l as [|n l IH]; intros dest m.
  { exists dest, m. simpl. repeat split; try done. lia. }
  cbn [foldl]. unfold cleanup_node at 2. fold (terminal ntk n).
  destruct (terminal ntk n) eqn:Ht.
  - destruct (IH dest m) as (dest' & m' & E & Hi & Ho & Hl & Hm & Hx).
    exists dest', m'. rewrite filter_cons_False by (rewrite Ht; done). by repeat split.
  - rewrite translate_signals. cbn [app]. unfold clone_node.
    rewrite decide_False
      by (intros E%(f_equal length); rewrite length_map in E;
          pose proof (not_terminal_fanins _ _ Ht); by destruct (fanins ntk n)).
    set (r := create_node _ _ dest).
    destruct (create_node_interface (map (fun f => m !!! f) (fanins ntk n))
                (Cache.lookup (data1_h1 (node_at ntk n)) (cache ntk)) dest)
      as (Hi1 & Ho1 & Hl1).
    fold r in Hi1, Ho1, Hl1. destruct r as [dest2 s]. simpl in *.
    destruct (IH dest2 (<[n := s]> m)) as (dest' & m' & E & Hi & Ho & Hl & Hm & Hx).
    exists dest', m'. rewrite filter_cons_True by done.
    split; [done|]. split; [congruence|]. split; [congruence|].
    split; [simpl; lia|]. split; [by rewrite Hm, length_insert|].
    intros x Hxt. rewrite (Hx x Hxt).
    apply list_lookup_total_insert_ne. intros ->. congruence.
Qed.

(** The depth-first walk returns when a rank falls along every fan-in, and
    lists no node twice. *)
Lemma create_topo_rec_spec (rank : node -> nat) ntk :
  (forall p c, c ∈ fanins ntk p -> (rank c < rank p)%nat) ->
  forall fuel n order,
    (rank n < fuel)%nat -> NoDup order ->
    exists order',
      create_topo_rec fuel ntk n order = Some order'
      /\ NoDup order'
      /\ forall x, x ∈ order' -> x ∈ order \/ (rank x <= rank n)%nat.
Proof.
  intros Hrank. induction fuel as [|fuel IH]; intros n order Hn Hnd; [lia|].
  cbn [create_topo_rec]. case_bool_decide as Hin; [by eauto|].
  assert (Hfold : forall L o,
    (forall c, c ∈ L -> (rank c < rank n)%nat) -> NoDup o ->
    (forall x, x ∈ o -> x ∈ order \/ (rank x < rank n)%nat) ->
    exists o',
      foldl (fun acc c => acc ≫= create_topo_rec fuel ntk c) (Some o) L = Some o'
      /\ NoDup o'
      /\ forall x, x ∈ o' -> x ∈ order \/ (rank x < rank n)%nat).
  { induction L as [|c L IHL]; intros o HL Ho Hx; [by eauto|].
    cbn [foldl mbind option_bind].
    destruct (IH c o) as (o1 & -> & Hnd1 & Hx1);
      [pose proof (HL c ltac:(left)); lia|done|].
    apply IHL; [intros; apply HL; by right|done|].
    intros x Hx'. destruct (Hx1 x Hx') as [H|H]; [by apply Hx|].
    right. pose proof (HL c ltac:(left)). lia. }
  destruct (Hfold (fanins ntk n) order) as (o' & -> & Hnd' & Hx');
    [intros c Hc; by apply Hrank|done|by left|].
  exists (o' ++ [n]). split; [done|]. split.
  - apply NoDup_app. split; [done|]. split; [|apply NoDup_singleton].
    intros x Hx ->%list_elem_of_singleton. destruct (Hx' n Hx); [done|lia].
  - intros x [Hx| ->%list_elem_of_singleton]%elem_of_app; [|right; lia].
    destruct (Hx' x Hx); [by left|right; lia].
Qed.

Lemma topo_order_spec (rank : node -> nat) ntk fuel :
  (forall p c, c ∈ fanins ntk p -> (rank c < rank p)%nat) ->
  (forall f, f ∈ outputs ntk -> (rank f < fuel)%nat) ->
  exists order, topo_order fuel ntk = Some order /\ NoDup order.
Proof.
  intros Hrank Hout. unfold topo_order.
  set (start := foldl _ _ (inputs ntk)).
  assert (Hs : NoDup start).
  { unfold start. generalize (inputs ntk).
    assert (H : forall (l o : list node), NoDup o ->
      NoDup (foldl (fun o n => if bool_decide (n ∈ o) then o else o ++ [n]) o l)).
    { induction l as [|n l IH]; intros o Ho; [done|]. cbn [foldl]. apply IH.
      case_bool_decide as Hin; [done|]. apply NoDup_app.
      split; [done|]. split; [|apply NoDup_singleton].
      by intros x Hx ->%list_elem_of_singleton. }
    intros l. apply H. unfold get_constant. apply NoDup_cons. split.
    - by intros ?%list_elem_of_singleton.
    - apply NoDup_singleton. }
  clearbody start. revert start Hs Hout. generalize (outputs ntk).
  induction l as [|f l IH]; intros start Hs Hout; [by eauto|].
  cbn [foldl mbind option_bind].
  destruct (create_topo_rec_spec rank ntk Hrank fuel f start) as (o & -> & Hnd & _);
    [apply Hout; by left|done|].
  apply IH; [done|]. intros; apply Hout; by right.
Qed.

Lemma create_pis_spec count dest :
  nodes (create_pis count dest).1
    = nodes dest ++ replicate count (set_data1_h1 2%nat empty_node)
  /\ inputs (create_pis count dest).1 = inputs dest ++ seq (length (nodes dest)) count
  /\ outputs (create_pis count dest).1 = outputs dest
  /\ (create_pis count dest).2 = seq (length (nodes dest)) count.
Proof.
  unfold create_pis.
  set (f := fun st : klut_network * list signal =>
              let '(d, s) := create_pi st.1 in (d, st.2 ++ [s])).
  induction count as [|k (Hn & Hi & Ho & Hp)].
  { simpl. by rewrite !app_nil_r. }
  rewrite Nat.iter_succ. destruct (Nat.iter k f (dest, [])) as [d ps].
  unfold f, create_pi. cbn [fst snd nodes inputs outputs] in *.
  rewrite Hn, Hi, Ho, Hp, length_app, length_replicate.
  rewrite !seq_S, app_assoc. split; [|done].
  rewrite <- app_assoc. f_equal. by rewrite <- replicate_S_end.
Qed.

(** Assigning the leaves to distinct primary inputs in order. *)
Lemma assign_leaves : forall (ins leaves : list nat) (m : list signal),
  NoDup ins -> length leaves = length ins ->
  (forall x, x ∈ ins -> (x < length m)%nat) ->
  let m' := foldl (fun m nl => <[nl.1 := nl.2]> m) m (zip ins leaves) in
  length m' = length m
  /\ (fun x => m' !!! x) <$> ins = leaves
  /\ forall x, x ∉ ins -> m' !!! x = m !!! x.
Proof.
  induction ins as [|a ins IH]; intros leaves m Hnd Hlen Hr.
  { destruct leaves; [done|discriminate]. }
  destruct leaves as [|p leaves]; [discriminate|].
  apply NoDup_cons in Hnd as [Ha Hnd]. cbn [zip zip_with foldl fst snd].
  destruct (IH leaves (<[a := p]> m) Hnd) as (Hl & Hm & Hx).
  { simpl in Hlen. lia. }
  { intros x Hx. rewrite length_insert. apply Hr. by right. }
  cbv zeta. rewrite length_insert in Hl. split; [done|]. split.
  - rewrite fmap_cons. f_equal; [|done].
    rewrite (Hx a Ha). apply list_lookup_total_insert_eq. apply Hr. by left.
  - intros x Hxn. rewrite Hx by (intros ?; apply Hxn; by right).
    apply list_lookup_total_insert_ne. intros ->. apply Hxn. by left.
Qed.

Lemma create_pos_spec fs : forall dest,
  inputs (foldl (fun d f => create_po f d) dest fs) = inputs dest
  /\ outputs (foldl (fun d f => create_po f d) dest fs) = outputs dest ++ fs
  /\ length (nodes (foldl (fun d f => create_po f d) dest fs)) = length (nodes dest).
Proof.
  induction fs as [|f fs IH]; intros dest; simpl.
  { by rewrite app_nil_r. }
  destruct (IH (create_po f dest)) as (-> & -> & ->). unfold create_po. simpl.
  by rewrite length_alter, <- app_assoc.
Qed.

Lemma terminal_input ntk x : is_pi ntk x = true -> terminal ntk x = true.
Proof. unfold terminal, is_ci. intros ->. by rewrite orb_true_r. Qed.

(** The constants, the primary inputs and the gates of a walk are different
    nodes of the network. *)
Lemma gates_bound ntk (order : list node) :
  (2 <= length (nodes ntk))%nat ->
  NoDup (inputs ntk) ->
  (forall x, x ∈ inputs ntk -> is_pi ntk x = true /\ (x < length (nodes ntk))%nat) ->
  NoDup order ->
  (2 + length (inputs ntk) + length (filter (fun x => terminal ntk x = false) order)
   <= length (nodes ntk))%nat.
Proof.
  intros H2 Hnd Hin Ho.
  set (gates := filter (fun x => terminal ntk x = false) order).
  assert (Hg : forall x, x ∈ gates -> terminal ntk x = false).
  { intros x Hx. unfold gates in Hx. by apply list_elem_of_filter in Hx as [? _]. }
  assert (Hi : forall x, x ∈ inputs ntk -> (1 < x)%nat).
  { intros x [Hx _]%Hin. unfold is_pi in Hx.
    apply andb_prop in Hx as [Hx _]. by apply bool_decide_eq_true in Hx. }
  assert (Hc : forall x, (x <= 1)%nat -> x ∉ inputs ntk ++ gates).
  { intros x Hx1 [Hx|Hx]%elem_of_app.
    - apply Hi in Hx. lia.
    - apply Hg in Hx. unfold terminal, is_constant in Hx.
      by rewrite bool_decide_eq_true_2 in Hx by done. }
  pose proof (NoDup_bounded_length (0 :: 1 :: inputs ntk ++ gates)%nat
                (length (nodes ntk))) as Hb.
  cbn [length] in Hb. rewrite length_app in Hb. cbn [Nat.add]. apply Hb.
  - apply NoDup_cons. split.
    { intros [?|Hx]%elem_of_cons; [done|]. by apply (Hc 0%nat) in Hx; [|lia]. }
    apply NoDup_cons. split; [apply Hc; lia|].
    apply NoDup_app. split; [done|]. split; [|by apply NoDup_filter].
    intros x [Hx _]%Hin Hx'%Hg. apply terminal_input in Hx. congruence.
  - intros x [->|[->|[Hx|Hx]%elem_of_app]%elem_of_cons]%elem_of_cons.
    + lia.
    + lia.
    + by apply Hin.
    + by apply not_terminal_in_range, Hg.
Qed.




End CleanupFacts.
